(** * Spotlight+AI: a shallow embedding of the recommendation pipeline

    The development follows the TypeScript sources:
    - [spotlight-ai.ts]: the in-memory store, the concept actions
      ([recordMuseumTaste], [clearMuseumTaste], [llmRecommend],
      [getRecommendations]), the tolerant parser [parseLLMJson] and the
      validators;
    - the resilient LLM wrapper ([GeminiLLM.executeLLM] with its memo cache
      and its retry loop).

    JavaScript values are modelled as the language has them: strings are
    sequences of UTF-16 code units, numbers are IEEE 754 binary64 values
    (the executable specification [spec_float] of the Standard Library, at
    precision 53 and maximal exponent 1024), [Map]s are finite maps. *)

From Stdlib Require Import ZArith NArith Ascii String Lia.
From Stdlib Require Import Floats.SpecFloat.
From Stdlib Require DecimalString HexadecimalString.
From stdpp Require Import base option list gmap sorting.

Set Warnings "-register-all".
#[local] Open Scope string_scope.
#[local] Open Scope list_scope.

(** ** JavaScript strings *)

Abbreviation jsstring := (list N).

(** ASCII text of the development as a JS string. *)
Definition str (s : string) : jsstring :=
  map N_of_ascii (list_ascii_of_string s).

(** The same, where a backquote in the text stands for a double quote. *)
Definition qq (s : string) : jsstring :=
  map (fun c => if N.eqb c 96 then 34%N else c) (str s).

Definition isWhiteSpace (c : N) : bool :=
  existsb (N.eqb c)
    [9; 10; 11; 12; 13; 32; 160; 5760; 8232; 8233; 8239; 8287; 12288; 65279]%N
  || (N.leb 8192 c && N.leb c 8202).

Definition isDigit (c : N) : bool := N.leb 48 c && N.leb c 57.

Definition isUpper (c : N) : bool := N.leb 65 c && N.leb c 90.

Definition isLower (c : N) : bool := N.leb 97 c && N.leb c 122.

(** The class [\w] of a regular expression without the [u] flag. *)
Definition isWordChar (c : N) : bool :=
  isDigit c || isUpper c || isLower c || N.eqb c 95.

Definition toLowerAscii (c : N) : N := if isUpper c then (c + 32)%N else c.

Definition toUpperAscii (c : N) : N := if isLower c then (c - 32)%N else c.

(** [String.prototype.toUpperCase]; the mapping of characters outside ASCII
    is not modelled (it is applied to status codes only). *)
Definition toUpperCase (s : jsstring) : jsstring := map toUpperAscii s.

Fixpoint trimStart (s : jsstring) : jsstring :=
  match s with
  | [] => []
  | c :: r => if isWhiteSpace c then trimStart r else s
  end.

Definition trimEnd (s : jsstring) : jsstring := rev (trimStart (rev s)).

(** [String.prototype.trim] *)
Definition trim (s : jsstring) : jsstring := trimEnd (trimStart s).

Fixpoint startsWith (p s : jsstring) : bool :=
  match p, s with
  | [], _ => true
  | a :: p', b :: s' => N.eqb a b && startsWith p' s'
  | _ :: _, [] => false
  end.

(** [s.includes(p)]: [p] occurs in [s]. *)
Fixpoint includes (p s : jsstring) : bool :=
  startsWith p s ||
  match s with
  | [] => false
  | _ :: r => includes p r
  end.

(** ** JavaScript numbers *)

Abbreviation number := spec_float.

Definition prec : Z := 53.
Definition emax : Z := 1024.

(** The double nearest to an integer. *)
Definition number_of_Z (z : Z) : number := binary_normalize prec emax z 0 false.

(** The double nearest to the decimal [(-1)^neg * D * 10^E]. *)
Definition number_of_decimal (neg : bool) (D E : Z) : number :=
  match D with
  | Zpos d =>
      match E with
      | Zneg e =>
          SFdiv prec emax (S754_finite neg d 0) (S754_finite false (Pos.pow 10 e) 0)
      | _ => binary_round prec emax neg (Z.to_pos (Zpos d * 10 ^ E)) 0
      end
  | _ => S754_zero neg
  end.

Definition num_0 : number := S754_zero false.
Definition num_1 : number := Eval vm_compute in number_of_Z 1.
Definition num_10 : number := Eval vm_compute in number_of_Z 10.
Definition num_100 : number := Eval vm_compute in number_of_Z 100.
Definition num_half : number := Eval vm_compute in number_of_decimal false 5 (-1).

(** [a * b], [a - b], [a < b], [a > b] *)
Definition num_mul (a b : number) : number := SFmul prec emax a b.
Definition num_sub (a b : number) : number := SFsub prec emax a b.
Definition num_lt (a b : number) : bool := SFltb a b.
Definition num_gt (a b : number) : bool := SFltb b a.
Definition num_le (a b : number) : bool := SFleb a b.

Module Number.

Definition isNaN (n : number) : bool :=
  match n with S754_nan => true | _ => false end.

Definition isFinite (n : number) : bool :=
  match n with S754_zero _ | S754_finite _ _ _ => true | _ => false end.

End Number.

Module Math.

(** [Math.min(a, b)]: NaN if either is; [-0] counts as below [+0]. *)
Definition min (a b : number) : number :=
  if Number.isNaN a || Number.isNaN b then S754_nan
  else match a, b with
       | S754_zero false, S754_zero true => b
       | _, _ => if num_lt b a then b else a
       end.

(** [Math.max(a, b)]: NaN if either is; [+0] counts as above [-0]. *)
Definition max (a b : number) : number :=
  if Number.isNaN a || Number.isNaN b then S754_nan
  else match a, b with
       | S754_zero true, S754_zero false => b
       | _, _ => if num_gt b a then b else a
       end.

Definition abs (a : number) : number := SFabs a.

(** [Math.round(x)]: the nearest integer, ties towards +infinity; the sign
    of a zero result is the sign of [x]. *)
Definition round (x : number) : number :=
  match x with
  | S754_finite s m e =>
      if (0 <=? e)%Z then x
      else
        let v := cond_Zopp s (Zpos m) in
        let n := ((2 * v + 2 ^ (- e)) / 2 ^ (1 - e))%Z in
        if (n =? 0)%Z then S754_zero s else number_of_Z n
  | _ => x
  end.

End Math.

(** ** JSON values and [JSON.parse] *)

Inductive jsvalue :=
| JNull
| JBool (b : bool)
| JNum (n : number)
| JStr (s : jsstring)
| JArr (items : list jsvalue)
| JObj (fields : list (jsstring * jsvalue)).

(** Own data properties in creation order; defining a key again replaces
    its value. *)
Fixpoint obj_set (k : jsstring) (v : jsvalue) (fs : list (jsstring * jsvalue))
  : list (jsstring * jsvalue) :=
  match fs with
  | [] => [(k, v)]
  | (k', v') :: r =>
      if decide (k = k') then (k, v) :: r else (k', v') :: obj_set k v r
  end.

Fixpoint obj_get (k : jsstring) (fs : list (jsstring * jsvalue)) : option jsvalue :=
  match fs with
  | [] => None
  | (k', v) :: r => if decide (k = k') then Some v else obj_get k r
  end.

(** [v.k] for a value other than [null]; [None] is [undefined].  None of the
    keys read by the program ([recommendations], [museumId], [score],
    [rationale]) exists on a primitive, an array or a prototype. *)
Definition prop (v : jsvalue) (k : jsstring) : option jsvalue :=
  match v with
  | JObj fs => obj_get k fs
  | _ => None
  end.

Module JSON.

Definition isJsonWs (c : N) : bool :=
  N.eqb c 9 || N.eqb c 10 || N.eqb c 13 || N.eqb c 32.

Fixpoint skip_ws (s : jsstring) : jsstring :=
  match s with
  | [] => []
  | c :: r => if isJsonWs c then skip_ws r else s
  end.

Definition hexval (c : N) : option N :=
  if isDigit c then Some (c - 48)%N
  else if N.leb 65 c && N.leb c 70 then Some (c - 55)%N
  else if N.leb 97 c && N.leb c 102 then Some (c - 87)%N
  else None.

Definition hex4 (a b c d : N) : option N :=
  match hexval a, hexval b, hexval c, hexval d with
  | Some x, Some y, Some z, Some w => Some (((x * 16 + y) * 16 + z) * 16 + w)%N
  | _, _, _, _ => None
  end.

(** The characters of a string literal after its opening quote. *)
Fixpoint string_body (acc s : jsstring) : option (jsstring * jsstring) :=
  match s with
  | [] => None
  | c :: r =>
      if N.eqb c 34 then Some (rev acc, r)
      else if N.eqb c 92 then
        match r with
        | [] => None
        | e :: r1 =>
            if N.eqb e 34 || N.eqb e 92 || N.eqb e 47 then string_body (e :: acc) r1
            else if N.eqb e 98 then string_body (8%N :: acc) r1
            else if N.eqb e 102 then string_body (12%N :: acc) r1
            else if N.eqb e 110 then string_body (10%N :: acc) r1
            else if N.eqb e 114 then string_body (13%N :: acc) r1
            else if N.eqb e 116 then string_body (9%N :: acc) r1
            else if N.eqb e 117 then
              match r1 with
              | h1 :: h2 :: h3 :: h4 :: r2 =>
                  match hex4 h1 h2 h3 h4 with
                  | Some u => string_body (u :: acc) r2
                  | None => None
                  end
              | _ => None
              end
            else None
        end
      else if N.ltb c 32 then None
      else string_body (c :: acc) r
  end.

(** Leading decimal digits: their value on top of [acc], their number,
    and the rest. *)
Fixpoint digits (acc : Z) (n : Z) (s : jsstring) : Z * Z * jsstring :=
  match s with
  | c :: r =>
      if isDigit c then digits (acc * 10 + Z.of_N (c - 48)) (n + 1) r
      else (acc, n, s)
  | [] => (acc, n, s)
  end.

(** A number literal: an optional minus sign, an integer part without
    leading zero, an optional fraction, an optional exponent. *)
Definition number_literal (s : jsstring) : option (number * jsstring) :=
  let '(neg, s0) :=
    match s with
    | c :: r => if N.eqb c 45 then (true, r) else (false, s)
    | [] => (false, s)
    end in
  match s0 with
  | [] => None
  | c :: r =>
      if negb (isDigit c) then None
      else
        let '(ip, _, s1) :=
          if N.eqb c 48 then (0%Z, 1%Z, r) else digits 0 0 s0 in
        let frac :=
          match s1 with
          | d :: r1 =>
              if N.eqb d 46 then
                let '(m, n, s2) := digits ip 0 r1 in
                if (n =? 0)%Z then None else Some (m, n, s2)
              else Some (ip, 0%Z, s1)
          | [] => Some (ip, 0%Z, s1)
          end in
        match frac with
        | None => None
        | Some (m, nf, s2) =>
            let ex :=
              match s2 with
              | e :: r2 =>
                  if N.eqb e 101 || N.eqb e 69 then
                    let '(eneg, r3) :=
                      match r2 with
                      | g :: r2' =>
                          if N.eqb g 45 then (true, r2')
                          else if N.eqb g 43 then (false, r2')
                          else (false, r2)
                      | [] => (false, r2)
                      end in
                    let '(x, n, s3) := digits 0 0 r3 in
                    if (n =? 0)%Z then None
                    else Some ((if eneg then - x else x)%Z, s3)
                  else Some (0%Z, s2)
              | [] => Some (0%Z, s2)
              end in
            match ex with
            | None => None
            | Some (x, s3) => Some (number_of_decimal neg m (x - nf), s3)
            end
        end
  end.

(** Recursive descent on the JSON grammar.  [value] skips the white space
    before the value; [elements] and [members] parse what follows the
    opening bracket of a non-empty array or object.  Every call consumes
    input at most two levels further down, so a budget of twice the length
    of the text is never exhausted. *)
Fixpoint value (fuel : nat) (s : jsstring) {struct fuel}
  : option (jsvalue * jsstring) :=
  match fuel with
  | O => None
  | S f =>
      match skip_ws s with
      | [] => None
      | c :: r =>
          if N.eqb c 123 then
            match skip_ws r with
            | c1 :: r1 => if N.eqb c1 125 then Some (JObj [], r1) else members f [] r
            | [] => None
            end
          else if N.eqb c 91 then
            match skip_ws r with
            | c1 :: r1 => if N.eqb c1 93 then Some (JArr [], r1) else elements f [] r
            | [] => None
            end
          else if N.eqb c 34 then
            match string_body [] r with
            | Some (t, r1) => Some (JStr t, r1)
            | None => None
            end
          else if startsWith (str "true") (c :: r) then Some (JBool true, drop 4 (c :: r))
          else if startsWith (str "false") (c :: r) then Some (JBool false, drop 5 (c :: r))
          else if startsWith (str "null") (c :: r) then Some (JNull, drop 4 (c :: r))
          else
            match number_literal (c :: r) with
            | Some (n, r1) => Some (JNum n, r1)
            | None => None
            end
      end
  end
with elements (fuel : nat) (acc : list jsvalue) (s : jsstring) {struct fuel}
  : option (jsvalue * jsstring) :=
  match fuel with
  | O => None
  | S f =>
      match value f s with
      | None => None
      | Some (v, r) =>
          match skip_ws r with
          | c :: r1 =>
              if N.eqb c 44 then elements f (v :: acc) r1
              else if N.eqb c 93 then Some (JArr (rev (v :: acc)), r1)
              else None
          | [] => None
          end
      end
  end
with members (fuel : nat) (acc : list (jsstring * jsvalue)) (s : jsstring)
  {struct fuel} : option (jsvalue * jsstring) :=
  match fuel with
  | O => None
  | S f =>
      match skip_ws s with
      | c :: r =>
          if N.eqb c 34 then
            match string_body [] r with
            | None => None
            | Some (k, r1) =>
                match skip_ws r1 with
                | c1 :: r2 =>
                    if N.eqb c1 58 then
                      match value f r2 with
                      | None => None
                      | Some (v, r3) =>
                          match skip_ws r3 with
                          | c2 :: r4 =>
                              if N.eqb c2 44 then members f (obj_set k v acc) r4
                              else if N.eqb c2 125 then Some (JObj (obj_set k v acc), r4)
                              else None
                          | [] => None
                          end
                      end
                    else None
                | [] => None
                end
            end
          else None
      | [] => None
      end
  end.

(** [JSON.parse(text)]; [None] is a thrown [SyntaxError]. *)
Definition parse (text : jsstring) : option jsvalue :=
  match value (2 * length text + 2) text with
  | Some (v, r) => match skip_ws r with [] => Some v | _ :: _ => None end
  | None => None
  end.

End JSON.


(** ** Thrown errors *)

(** What the messages of the validators interpolate: the [museumId]
    property of the offending entry. *)
Inductive ValidatorError :=
| MissingRecommendationsArray
| EmptyRecommendationsSet
| MissingMuseumId
| MissingNumericScore (id : option jsvalue)
| MissingRationale (id : option jsvalue)
| NotInUnseenSet (id : option jsvalue)
| DuplicateRecommendation (id : option jsvalue)
| ScoreOutOfRange (id : option jsvalue)
| MissingPercentPrefix (id : option jsvalue)
| PercentOutOfRange (id : option jsvalue)
| PercentDisagreesWithScore (id : option jsvalue)
| EmptyRationale (id : option jsvalue)
| BannedTasteWord (id : option jsvalue)
| TooManySentences (id : option jsvalue).

Inductive Error :=
| KMustBeAtLeastOne
| LLMFailure (message : jsstring)
| FailedToParseLLMOutput
| JsonSyntaxError
| MalformedRecommendationsBlock
| TypeError
| Validator (e : ValidatorError).

(** The outcome of a computation that may throw. *)
Inductive Res (A : Type) :=
| Ok (a : A)
| Throw (e : Error).

Arguments Ok {A} a.
Arguments Throw {A} e.

#[global] Instance Res_ret : MRet Res := fun A a => Ok a.

#[global] Instance Res_bind : MBind Res := fun A B f m =>
  match m with
  | Ok a => f a
  | Throw e => Throw e
  end.

(** [for (const r of l) body(r)] where the body may throw. *)
Fixpoint for_of {A : Type} (body : A -> Res unit) (l : list A) : Res unit :=
  match l with
  | [] => Ok tt
  | r :: l' => body r ;; for_of body l'
  end.

(** ** The regular expressions of the validators *)

(** At most [n] leading digits. *)
Fixpoint leading_digits (n : nat) (s : jsstring) : jsstring * jsstring :=
  match n, s with
  | S n', c :: r =>
      if isDigit c then let '(ds, r') := leading_digits n' r in (c :: ds, r')
      else ([], s)
  | _, _ => ([], s)
  end.

(** The match of [/^\((\d{1,3})%\s*match\)\s+/i] on [s]: the digits captured
    and what follows the match. *)
Definition match_percent_prefix (s : jsstring) : option (jsstring * jsstring) :=
  match s with
  | c :: r =>
      if N.eqb c 40 then
        let '(ds, r1) := leading_digits 3 r in
        match ds, r1 with
        | _ :: _, p :: r2 =>
            if N.eqb p 37 then
              let r3 := trimStart r2 in
              if startsWith (str "match") (map toLowerAscii (take 5 r3)) then
                match drop 5 r3 with
                | q :: ((w :: _) as r4) =>
                    if N.eqb q 41 && isWhiteSpace w then Some (ds, trimStart r4)
                    else None
                | _ => None
                end
              else None
            else None
        | _, _ => None
        end
      else None
  | [] => None
  end.

(** [parseInt(ds, 10)] on a string of decimal digits. *)
Definition parseInt (ds : jsstring) : Z :=
  fold_left (fun acc c => (acc * 10 + Z.of_N (c - 48))%Z) ds 0%Z.

Definition banned_words : list jsstring := [str "LOVE"; str "LIKE"; str "MEH"].

(** One of the words starts [s] and is not followed by a word character. *)
Definition banned_word_here (s : jsstring) : bool :=
  existsb
    (fun w =>
       startsWith w s &&
       match drop (length w) s with
       | [] => true
       | c :: _ => negb (isWordChar c)
       end)
    banned_words.

(** [/\b(LOVE|LIKE|MEH)\b/.test(s)], scanning from a position whose
    preceding character is a word character or not. *)
Fixpoint banned_word_from (after_word : bool) (s : jsstring) : bool :=
  match s with
  | [] => false
  | c :: r =>
      (negb after_word && banned_word_here s) || banned_word_from (isWordChar c) r
  end.

Definition has_banned_word (s : jsstring) : bool := banned_word_from false s.

Definition isSentenceEnd (c : N) : bool :=
  N.eqb c 46 || N.eqb c 63 || N.eqb c 33.

(** [s.split(/(?<=[.?!])\s+/)]: a separator is a maximal run of white space
    that follows one of [.?!].  [skipping] holds inside a separator,
    [after_end] when the previous character is one of [.?!], and [acc] is
    the current piece, reversed. *)
Fixpoint split_go (skipping after_end : bool) (acc s : jsstring) : list jsstring :=
  match s with
  | [] => [rev acc]
  | c :: r =>
      if isWhiteSpace c then
        if skipping then split_go true false acc r
        else if after_end then rev acc :: split_go true false [] r
        else split_go false false (c :: acc) r
      else split_go false (isSentenceEnd c) (c :: acc) r
  end.

Definition split_sentences (s : jsstring) : list jsstring :=
  split_go false false [] s.

(** The match of [/{[\s\S]*}/]: from the first opening brace to the last
    closing brace after it. *)
Fixpoint from_first (c : N) (s : jsstring) : option jsstring :=
  match s with
  | [] => None
  | d :: r => if N.eqb d c then Some s else from_first c r
  end.

Definition match_brace_block (raw : jsstring) : option jsstring :=
  match from_first 123 raw with
  | None => None
  | Some t =>
      match from_first 125 (rev t) with
      | None => None
      | Some u => Some (rev u)
      end
  end.

(** ** Parsing and validating the model output *)

(** [!v] is false: the value is truthy. *)
Definition truthy (v : jsvalue) : bool :=
  match v with
  | JNull => false
  | JBool b => b
  | JNum n =>
      match n with
      | S754_zero _ | S754_nan => false
      | _ => true
      end
  | JStr s => match s with [] => false | _ => true end
  | JArr _ | JObj _ => true
  end.

(** [Array.isArray(obj.recommendations)] for a truthy [obj]. *)
Definition recommendations_of (obj : jsvalue) : option (list jsvalue) :=
  match prop obj (str "recommendations") with
  | Some (JArr l) => Some l
  | _ => None
  end.

Definition has_recommendations (obj : jsvalue) : bool :=
  truthy obj && bool_decide (is_Some (recommendations_of obj)).

(** The [try] block of [parseLLMJson]: [None] when [JSON.parse] or the
    check of the [recommendations] array throws. *)
Definition parse_direct (raw : jsstring) : option jsvalue :=
  match JSON.parse raw with
  | Some obj => if has_recommendations obj then Some obj else None
  | None => None
  end.

Definition parseLLMJson (raw : jsstring) : Res jsvalue :=
  match parse_direct raw with
  | Some obj => Ok obj
  | None =>
      (* Attempt to recover a JSON block if prose was added *)
      match match_brace_block raw with
      | None => Throw FailedToParseLLMOutput
      | Some block =>
          match JSON.parse block with
          | None => Throw JsonSyntaxError
          | Some obj =>
              if has_recommendations obj then Ok obj
              else Throw MalformedRecommendationsBlock
          end
      end
  end.

Definition museumId_prop (r : jsvalue) : option jsvalue := prop r (str "museumId").

(** A property read on an entry of the array: [null.x] throws. *)
Definition read (r : jsvalue) (k : jsstring) : Res (option jsvalue) :=
  match r with
  | JNull => Throw TypeError
  | _ => Ok (prop r k)
  end.

Fixpoint no_duplicates_loop (unseenSet seen : gset jsstring) (recs : list jsvalue)
  : Res unit :=
  match recs with
  | [] => Ok tt
  | r :: recs' =>
      id ← read r (str "museumId");
      match id with
      | Some (JStr m) =>
          if bool_decide (m ∈ unseenSet) then
            if bool_decide (m ∈ seen) then Throw (Validator (DuplicateRecommendation id))
            else no_duplicates_loop unseenSet ({[m]} ∪ seen) recs'
          else Throw (Validator (NotInUnseenSet id))
      | _ => Throw (Validator (NotInUnseenSet id))
      end
  end.

Definition validateNoDuplicatesAndOnlyUnseen (recs : list jsvalue) (unseen : list jsstring)
  : Res unit :=
  no_duplicates_loop (list_to_set unseen) ∅ recs.

(** The tests of one entry by [validateScoreAndPercentAgreement]. *)
Definition check_score_and_percent (r : jsvalue) : Res unit :=
  score ← read r (str "score");
  match score with
  | Some (JNum s) =>
      if negb (Number.isFinite s) || num_lt s num_0 || num_gt s num_1
      then Throw (Validator (ScoreOutOfRange (museumId_prop r)))
      else
        match prop r (str "rationale") with
        | Some (JStr rationale) =>
            (* Must start with "(NN% match) " *)
            match match_percent_prefix rationale with
            | None => Throw (Validator (MissingPercentPrefix (museumId_prop r)))
            | Some (ds, _) =>
                let nn := number_of_Z (parseInt ds) in
                if num_lt nn num_0 || num_gt nn num_100
                then Throw (Validator (PercentOutOfRange (museumId_prop r)))
                else
                  let expected := Math.round (num_mul s num_100) in
                  let delta := Math.abs (num_sub nn expected) in
                  if num_gt delta num_10
                  then Throw (Validator (PercentDisagreesWithScore (museumId_prop r)))
                  else Ok tt
            end
        | _ => Throw TypeError
        end
  | _ => Throw (Validator (ScoreOutOfRange (museumId_prop r)))
  end.

Definition validateScoreAndPercentAgreement (recs : list jsvalue) : Res unit :=
  for_of check_score_and_percent recs.

(** [r.rationale.replace(/^\(\d{1,3}%\s*match\)\s+/i, '').trim()] *)
Definition strip_percent_prefix (rationale : jsstring) : jsstring :=
  trim match match_percent_prefix rationale with
       | Some (_, rest) => rest
       | None => rationale
       end.

Definition count_sentences (rationale : jsstring) : nat :=
  length (filter (fun s => (0 <? length (trim s))%nat = true) (split_sentences rationale)).

(** The tests of one entry by [validateRationaleRules]. *)
Definition check_rationale_rules (r : jsvalue) : Res unit :=
  text ← read r (str "rationale");
  match text with
  | Some (JStr t) =>
      (* Remove the "(NN% match) " prefix before text checks *)
      let rationale := strip_percent_prefix t in
      match rationale with
      | [] => Throw (Validator (EmptyRationale (museumId_prop r)))
      | _ :: _ =>
          (* No literal LOVE/LIKE/MEH as standalone tokens *)
          if has_banned_word rationale
          then Throw (Validator (BannedTasteWord (museumId_prop r)))
          else if (3 <? count_sentences rationale)%nat
          then Throw (Validator (TooManySentences (museumId_prop r)))
          else Ok tt
      end
  | _ => Throw TypeError
  end.

Definition validateRationaleRules (recs : list jsvalue) : Res unit :=
  for_of check_rationale_rules recs.

(** Basic shape presence of one entry. *)
Definition check_shape (r : jsvalue) : Res unit :=
  id ← read r (str "museumId");
  match id with
  | Some (JStr m) =>
      match trim m with
      | [] => Throw (Validator MissingMuseumId)
      | _ :: _ =>
          match prop r (str "score") with
          | Some (JNum _) =>
              match prop r (str "rationale") with
              | Some (JStr t) =>
                  match trim t with
                  | [] => Throw (Validator (MissingRationale id))
                  | _ :: _ => Ok tt
                  end
              | _ => Throw (Validator (MissingRationale id))
              end
          | _ => Throw (Validator (MissingNumericScore id))
          end
      end
  | _ => Throw (Validator MissingMuseumId)
  end.

(** Run all validators on parsed LLM output *)
Definition validateLLMRecommendations (parsed : jsvalue) (unseen : list jsstring)
  : Res unit :=
  if negb (truthy parsed) then Throw (Validator MissingRecommendationsArray)
  else
    match recommendations_of parsed with
    | None => Throw (Validator MissingRecommendationsArray)
    | Some [] => Throw (Validator EmptyRecommendationsSet)
    | Some recs =>
        for_of check_shape recs ;;
        validateNoDuplicatesAndOnlyUnseen recs unseen ;;
        validateScoreAndPercentAgreement recs ;;
        validateRationaleRules recs
    end.

(** [isValidRec(r)] *)
Definition isValidRec (r : jsvalue) : bool :=
  truthy r &&
  match prop r (str "museumId") with
  | Some (JStr _) =>
      match prop r (str "rationale") with
      | Some (JStr _) | None => true
      | Some _ => false
      end
  | _ => false
  end.

Definition clamp01 (n : number) : number :=
  if Number.isNaN n then num_half
  else Math.max num_0 (Math.min num_1 n).

(** [simpleHash(s)]: a 32-bit rolling hash, printed in hexadecimal. *)
Definition toInt32 (z : Z) : Z :=
  let m := (z mod 2 ^ 32)%Z in
  if (m <? 2 ^ 31)%Z then m else (m - 2 ^ 32)%Z.

Definition simpleHash (s : jsstring) : jsstring :=
  let h := fold_left (fun h c => toInt32 (h * 31 + Z.of_N c)) s 0%Z in
  str "h" ++ str (HexadecimalString.NilZero.string_of_uint
                    (N.to_hex_uint (Z.to_N (h mod 2 ^ 32)))).

(** ** Prompt construction *)

Definition hexDigit (n : N) : N := if N.ltb n 10 then (48 + n)%N else (87 + n)%N.

(** A code unit as a JSON escape with four hexadecimal digits. *)
Definition unicodeEscape (c : N) : jsstring :=
  [92; 117; hexDigit (c / 4096); hexDigit (c / 256 mod 16);
   hexDigit (c / 16 mod 16); hexDigit (c mod 16)]%N.

Definition isHighSurrogate (c : N) : bool := N.leb 55296 c && N.leb c 56319.
Definition isLowSurrogate (c : N) : bool := N.leb 56320 c && N.leb c 57343.

(** The characters of a string as [JSON.stringify] writes them between the
    quotes: short escapes, escapes of control characters and of surrogates
    that are not paired. *)
Fixpoint quoteJSONChars (s : jsstring) : jsstring :=
  match s with
  | [] => []
  | c :: r =>
      if N.eqb c 8 then str "\b" ++ quoteJSONChars r
      else if N.eqb c 9 then str "\t" ++ quoteJSONChars r
      else if N.eqb c 10 then str "\n" ++ quoteJSONChars r
      else if N.eqb c 12 then str "\f" ++ quoteJSONChars r
      else if N.eqb c 13 then str "\r" ++ quoteJSONChars r
      else if N.eqb c 34 then [92; 34]%N ++ quoteJSONChars r
      else if N.eqb c 92 then [92; 92]%N ++ quoteJSONChars r
      else if N.ltb c 32 then unicodeEscape c ++ quoteJSONChars r
      else if isHighSurrogate c then
        match r with
        | d :: r' =>
            if isLowSurrogate d then c :: d :: quoteJSONChars r'
            else unicodeEscape c ++ quoteJSONChars r
        | [] => unicodeEscape c
        end
      else if isLowSurrogate c then unicodeEscape c ++ quoteJSONChars r
      else c :: quoteJSONChars r
  end.

Definition quoteJSONString (s : jsstring) : jsstring :=
  [34%N] ++ quoteJSONChars s ++ [34%N].

(** [sep] between the elements of [l]. *)
Fixpoint join (sep : jsstring) (l : list jsstring) : jsstring :=
  match l with
  | [] => []
  | [x] => x
  | x :: l' => x ++ sep ++ join sep l'
  end.

(** [JSON.stringify(a, null, 2)] for an array whose elements are already
    serialized at the indentation of the array. *)
Definition stringifyArray (elements : list jsstring) : jsstring :=
  match elements with
  | [] => str "[]"
  | _ :: _ =>
      str "[" ++ [10%N] ++ str "  " ++
      join (str "," ++ [10%N] ++ str "  ") elements ++ [10%N] ++ str "]"
  end.

Inductive Taste := LOVE | LIKE | MEH.

Definition Taste_name (t : Taste) : jsstring :=
  match t with
  | LOVE => str "LOVE"
  | LIKE => str "LIKE"
  | MEH => str "MEH"
  end.

(** An element [{ museumId, taste }] of the taste payload, one level deep. *)
Definition stringifyTaste (museum : jsstring) (taste : Taste) : jsstring :=
  str "{" ++ [10%N] ++
  str "    " ++ qq "`museumId`: " ++ quoteJSONString museum ++ str "," ++ [10%N] ++
  str "    " ++ qq "`taste`: " ++ quoteJSONString (Taste_name taste) ++ [10%N] ++
  str "  }".

(** [`${k}`] for an integer of magnitude below 10^21, where the language
    prints the digits. *)
Definition Z_toString (k : Z) : jsstring :=
  str (DecimalString.NilZero.string_of_int (Z.to_int k)).

(** The lines of the template literal between its first and last line
    break. *)
Definition prompt_lines (k tastes candidates : jsstring) : list jsstring :=
    [str "You are a museum recommendation assistant.";
     [];
     str "Select up to " ++ k ++ str " museums from CANDIDATES that best match the user's TASTE_SIGNALS.";
     str "Do NOT include any museum already present in TASTE_SIGNALS.";
     [];
     str "SCORING RUBRIC (must follow):";
     str "1) Map user tastes to weights:";
     str "   - LOVE " ++ [8594%N] ++ str " 1.0";
     str "   - LIKE " ++ [8594%N] ++ str " 0.6";
     str "   - MEH  " ++ [8594%N] ++ str " 0.2";
     str "2) For each candidate, estimate a similarity in [0,1] to each rated museum.";
     str "   Similarity is based on publicly known characteristics such as:";
     str "   collections (e.g., contemporary, old masters, photography), era (modern/postwar),";
     str "   media (sculpture/painting/installation), curatorial program (experimental vs. encyclopedic).";
     str "   If uncertain, keep similarity modest (" ++ [8804%N] ++ str "0.5). Do NOT invent facts.";
     str "3) Compute raw match:";
     str "      raw = ( " ++ [931%N] ++ str "_i weight(taste_i) * similarity(candidate, rated_i) ) / ( " ++ [931%N] ++ str "_i weight(taste_i) )";
     str "4) Penalize strong resemblance to low-interest museums:";
     str "   Let maxMEH = max similarity to any museum that the user was lukewarm on (MEH).";
     str "   final = raw - 0.3 * max(0, maxMEH - 0.6)   // soft penalty for high similarity to MEH";
     qq "5) Clamp final score to [0,1]. Use this as `score`.";
     str "6) Rank candidates by score (desc) and return the top " ++ k ++ str ".";
     [];
     str "RATIONALE POLICY:";
     str "- For each recommendation, write a concise rationale of at most 2 sentences.";
     qq "- Prepend the rationale with `(NN% match) ` where NN = round(score * 100).";
     qq "- Do NOT use the literal words `LOVE`, `LIKE`, or `MEH` in the rationale; use natural phrasing (e.g., `you adored`, `you enjoyed`, `you were lukewarm on`).";
     str "- Do NOT mention user location or neighborhood in the rationale.";
     str "- When possible, cite at least one rated museum by name to explain the match.";
     qq "- Include at least one concrete attribute or program characteristic if known (e.g., `postwar sculpture focus`, `rotating contemporary photography shows`). Do NOT invent facts; keep general if unsure.";
     [];
     str "OUTPUT FORMAT (strict JSON only; no prose, no trailing commas):";
     str "{";
     qq "  `recommendations`: [";
     qq "    { `museumId`: `<string-from-CANDIDATES>`, `score`: <number between 0 and 1>, `rationale`: `<starts with (NN% match) and totals <= 2 sentences>` }";
     str "  ]";
     str "}";
     [];
     str "TASTE_SIGNALS (JSON):";
     tastes;
     [];
     str "CANDIDATES (JSON array of museumIds):";
     candidates].

Definition buildPromptFromTasteSignals
  (tastes : list (jsstring * Taste)) (candidates : list jsstring) (k : Z) : jsstring :=
  let tastePayload := map (fun t => stringifyTaste (fst t) (snd t)) tastes in
  trim ([10%N] ++
        join [10%N]
          (prompt_lines (Z_toString k)
             (stringifyArray tastePayload)
             (stringifyArray (map quoteJSONString candidates))) ++
        [10%N]).

(** ** Domain and state *)

Abbreviation User := (list N).
Abbreviation Museum := (list N).

Module TasteSignalRow.
Record t := mk {
  user : User;
  museum : Museum;
  taste : Taste;
  updatedAt : jsstring
}.
End TasteSignalRow.

Module RecommendationRow.
Record t := mk {
  user : User;
  museum : Museum;
  score : number;
  rationale : jsstring;
  generatedAt : jsstring;
  modelVersion : jsstring;
  promptHash : option jsstring
}.
End RecommendationRow.

(** State (in-memory) *)
Record SpotlightAIStore := {
  TasteSignals : gmap (list N) (list TasteSignalRow.t);
  Recommendations : gmap (list N) (list RecommendationRow.t)
}.

Definition emptyStore : SpotlightAIStore :=
  {| TasteSignals := ∅; Recommendations := ∅ |}.

(** What an action runs in: the store, and the prompts sent to the LLM so
    far (most recent last). *)
Record World := {
  store : SpotlightAIStore;
  llmCalls : list jsstring
}.

(** An action of the concept: it may read and write the store, call the
    LLM, and throw. *)
Definition Action (A : Type) : Type := World -> Res A * World.

#[global] Instance Action_ret : MRet Action := fun A a w => (Ok a, w).

#[global] Instance Action_bind : MBind Action := fun A B f m w =>
  match m w with
  | (Ok a, w') => f a w'
  | (Throw e, w') => (Throw e, w')
  end.

Definition throw {A : Type} (e : Error) : Action A := fun w => (Throw e, w).

Definition lift {A : Type} (r : Res A) : Action A := fun w => (r, w).

Definition getTasteSignals (user : User) : Action (list TasteSignalRow.t) :=
  fun w => (Ok (default [] (TasteSignals (store w) !! user)), w).

Definition getRecommendationRows (user : User) : Action (list RecommendationRow.t) :=
  fun w => (Ok (default [] (Recommendations (store w) !! user)), w).

Definition setTasteSignals (user : User) (l : list TasteSignalRow.t) : Action unit :=
  fun w =>
    (Ok tt,
     {| store := {| TasteSignals := <[user := l]> (TasteSignals (store w));
                    Recommendations := Recommendations (store w) |};
        llmCalls := llmCalls w |}).

Definition setRecommendations (user : User) (rows : list RecommendationRow.t)
  : Action unit :=
  fun w =>
    (Ok tt,
     {| store := {| TasteSignals := TasteSignals (store w);
                    Recommendations := <[user := rows]> (Recommendations (store w)) |};
        llmCalls := llmCalls w |}).

(** [await this.llm.executeLLM(prompt)]: the LLM is whatever was injected;
    [llm] gives what this call returns or throws. *)
Definition callLLM (llm : jsstring -> Res jsstring) (prompt : jsstring)
  : Action jsstring :=
  fun w => (llm prompt, {| store := store w; llmCalls := llmCalls w ++ [prompt] |}).

(** ** Sorting *)

(** [l.sort(cmp)].  The sort of the language is stable; [x] goes after [y]
    when [cmp(x, y) > 0] and they keep their order otherwise.  With a
    consistent comparator this is the only result the language allows. *)
Fixpoint insert_sorted {A : Type} (cmp : A -> A -> number) (x : A) (l : list A)
  : list A :=
  match l with
  | [] => [x]
  | y :: l' =>
      if num_gt (cmp x y) num_0 then y :: insert_sorted cmp x l' else x :: l
  end.

Definition Array_sort {A : Type} (cmp : A -> A -> number) (l : list A) : list A :=
  foldr (insert_sorted cmp) [] l.

(** [l.slice(0, n)] *)
Definition slice0 {A : Type} (n : Z) (l : list A) : list A := take (Z.to_nat n) l.

(** ** Concept implementation *)

(** recordMuseumTaste (user, museum, taste): upsert TasteSignals(user,
    museum) with taste; set updatedAt := now *)
Definition recordMuseumTaste (now : jsstring) (user : User) (museum : Museum)
  (taste : Taste) : Action unit :=
  list ← getTasteSignals user;
  let row := TasteSignalRow.mk user museum taste now in
  let idx := list_find (fun ts => TasteSignalRow.museum ts = museum) list in
  let list' :=
    match idx with
    | Some (i, _) => <[i := row]> list
    | None => list ++ [row]
    end in
  setTasteSignals user list'.

(** clearMuseumTaste (user, museum): delete TasteSignals(user, museum) *)
Definition clearMuseumTaste (user : User) (museum : Museum) : Action unit :=
  list ← getTasteSignals user;
  setTasteSignals user (filter (fun ts => TasteSignalRow.museum ts ≠ museum) list).

(** The parameters of [llmRecommend], for a [k] that is an integer; for a
    [k] that is any number (NaN, an infinity, a fraction) see [AnyNumber]
    below. *)
Module Params.
Record t := mk {
  user : User;
  k : Z;
  candidates : list Museum;
  modelVersion : option jsstring
}.
End Params.

(** An entry of [top]. *)
Module Ranked.
Record t := mk {
  museum : Museum;
  rationale : jsstring;
  score : number
}.
End Ranked.

(** [rec.score ?? 0.5] as the number that [clamp01] works on.  The
    conversion of a string, an array or an object to a number is not
    modelled: [validateLLMRecommendations] has rejected such a score. *)
Definition score_or_default (r : jsvalue) : number :=
  match prop r (str "score") with
  | Some (JNum n) => n
  | Some (JBool true) => num_1
  | Some (JBool false) => num_0
  | Some JNull | None => num_half
  | Some _ => S754_nan
  end.

(** [(rec.rationale ?? '')] for an entry that [isValidRec] accepts. *)
Definition rationale_or_empty (r : jsvalue) : jsstring :=
  match prop r (str "rationale") with
  | Some (JStr t) => t
  | _ => []
  end.

(** [.filter(isValidRec).map(rec => ({ museum, rationale, score }))] on one
    entry: [None] when the filter drops it. *)
Definition ranked_entry (r : jsvalue) : option Ranked.t :=
  if isValidRec r then
    match prop r (str "museumId") with
    | Some (JStr m) =>
        Some (Ranked.mk m (trim (rationale_or_empty r)) (clamp01 (score_or_default r)))
    | _ => None
    end
  else None.

(** [(a, b) => b.score - a.score] *)
Definition byScoreDesc {A : Type} (score : A -> number) (a b : A) : number :=
  num_sub (score b) (score a).

Definition rank (recs : list jsvalue) (unseen : list Museum) (k : Z) : list Ranked.t :=
  slice0 k
    (Array_sort (byScoreDesc Ranked.score)
       (filter (fun r => Ranked.museum r ∈ unseen) (omap ranked_entry recs))).

Definition result_of {A : Type} (museum rationale : A -> jsstring) (l : list A)
  : list (Museum * jsstring) :=
  map (fun t => (museum t, rationale t)) l.

(** llmRecommend (user, k): calls an LLM with user's TasteSignals; returns up
    to k new museums (not already rated) with (score, rationale); replaces
    Recommendations(user). *)
Definition llmRecommend (llm : jsstring -> Res jsstring) (now : jsstring)
  (params : Params.t) : Action (list (Museum * jsstring)) :=
  let user := Params.user params in
  let k := Params.k params in
  let candidates := Params.candidates params in
  if (k <? 1)%Z then throw KMustBeAtLeastOne
  else
    tasteSignals ← getTasteSignals user;
    match tasteSignals with
    | [] => setRecommendations user [] ;; mret []
    | _ :: _ =>
        let rated : gset (list N) := list_to_set (map TasteSignalRow.museum tasteSignals) in
        let unseen := filter (fun m => m ∉ rated) candidates in
        match unseen with
        | [] => setRecommendations user [] ;; mret []
        | _ :: _ =>
            let prompt :=
              buildPromptFromTasteSignals
                (map (fun t => (TasteSignalRow.museum t, TasteSignalRow.taste t)) tasteSignals)
                unseen k in
            raw ← callLLM llm prompt;
            parsed ← lift (parseLLMJson raw);
            (* Validate the model output BEFORE mapping to internal rows *)
            lift (validateLLMRecommendations parsed unseen) ;;
            let modelVersion :=
              default (str "gemini-2.5-flash-lite") (Params.modelVersion params) in
            let promptHash := simpleHash prompt in
            let top := rank (default [] (recommendations_of parsed)) unseen k in
            let rows :=
              map (fun t =>
                     RecommendationRow.mk user (Ranked.museum t) (Ranked.score t)
                       (Ranked.rationale t) now modelVersion (Some promptHash))
                  top in
            setRecommendations user rows ;;
            mret (result_of Ranked.museum Ranked.rationale top)
        end
    end.

(** getRecommendations (user, k): returns top-k cached Recommendations
    without a fresh LLM call *)
Definition getRecommendations (user : User) (k : Z) : Action (list (Museum * jsstring)) :=
  rows ← getRecommendationRows user;
  mret (result_of RecommendationRow.museum RecommendationRow.rationale
          (slice0 (Z.max 1 k)
             (Array_sort (byScoreDesc RecommendationRow.score) rows))).

(** system.refreshOnRatingChange (user): call llmRecommend(user, k :=
    default) *)
Definition refreshOnRatingChange (llm : jsstring -> Res jsstring) (now : jsstring)
  (user : User) (defaultK : Z) (candidates : list Museum)
  : Action (list (Museum * jsstring)) :=
  llmRecommend llm now (Params.mk user defaultK candidates None).

(** ** The LLM wrapper: memo cache, time-out and retries *)

Module GeminiLLM.

Definition MEMO_TTL_MS : Z := 15000.
Definition MAX_RETRIES : Z := 2.
Definition BACKOFF_MS : Z := 500.

(** What a rejected [generateContent] carries, as the [catch] block reads
    it: [err?.name], [String(err?.message || err)] and
    [String(err?.status || err?.code || '')]. *)
Record Thrown := {
  name : jsstring;
  message : jsstring;
  status : jsstring
}.

(** The end of one external call.  The timer that aborts a pending call is
    part of the environment: an aborted call ends in a failure whose name is
    [AbortError]. *)
Inductive Outcome :=
| Response (text : jsstring)
| Failure (err : Thrown).

(** The environment: the outcome of the external calls, in the order in
    which they are issued, and the values of [Date.now()], in the order in
    which it is read. *)
Record Env := {
  generateContent : nat -> jsstring -> jsstring -> Outcome;
  dateNow : nat -> Z
}.

Record MemoEntry := {
  at_ : Z;
  text_ : jsstring
}.

(** The module-level cache, and what the wrapper has done so far: the
    external calls issued (model and prompt), the delays slept, and the
    number of clock reads. *)
Record State := {
  memo : gmap (list N) MemoEntry;
  calls : list (jsstring * jsstring);
  sleeps : list Z;
  clockReads : nat
}.

Definition initialState : State :=
  {| memo := ∅; calls := []; sleeps := []; clockReads := 0 |}.

Section Wrapper.

(** [crypto.createHash('sha256').update(s).digest('base64url')] *)
Variable digest : jsstring -> jsstring.

Variable env : Env.

Definition promptKey (model prompt : jsstring) : jsstring :=
  digest (model ++ str "::" ++ prompt).

(** [Date.now()] *)
Definition readClock (st : State) : Z * State :=
  (dateNow env (clockReads st),
   {| memo := memo st; calls := calls st; sleeps := sleeps st;
      clockReads := S (clockReads st) |}).

(** [getMemo(key)]; [None] is [null]. *)
Definition getMemo (key : jsstring) (st : State) : option jsstring * State :=
  match memo st !! key with
  | None => (None, st)
  | Some hit =>
      let '(now, st1) := readClock st in
      if (now - at_ hit >? MEMO_TTL_MS)%Z then
        (None,
         {| memo := delete key (memo st1); calls := calls st1; sleeps := sleeps st1;
            clockReads := clockReads st1 |})
      else (Some (text_ hit), st1)
  end.

Definition setMemo (key text : jsstring) (st : State) : State :=
  let '(now, st1) := readClock st in
  {| memo := <[key := {| at_ := now; text_ := text |}]> (memo st1);
     calls := calls st1; sleeps := sleeps st1; clockReads := clockReads st1 |}.

Definition isTimeout (err : Thrown) : bool :=
  bool_decide (name err = str "AbortError")
  || includes (str "abort") (map toLowerAscii (message err))
  || includes (str "timeout") (map toLowerAscii (message err)).

Definition codeOf (err : Thrown) : jsstring := toUpperCase (status err).

Definition isTransient (err : Thrown) : bool :=
  isTimeout err
  || existsb (fun c => includes c (codeOf err))
       [str "429"; str "500"; str "502"; str "503"; str "504"].

Definition label (err : Thrown) : jsstring :=
  if isTimeout err then str "LLM_TIMEOUT"
  else if isTransient err then
    str "LLM_TRANSIENT_" ++
    match codeOf err with [] => str "UNKNOWN" | _ :: _ => codeOf err end
  else str "LLM_ERROR".

(** The [while (true)] loop; [attempt] and [delay] are the variables of the
    source on entry to an iteration.  [None]: the budget of iterations is
    used up. *)
Fixpoint retryLoop (fuel : nat) (key prompt modelName : jsstring)
  (attempt delay : Z) (st : State) : option (Res jsstring * State) :=
  match fuel with
  | O => None
  | S fuel' =>
      let attempt := (attempt + 1)%Z in
      let st1 :=
        {| memo := memo st; calls := calls st ++ [(modelName, prompt)];
           sleeps := sleeps st; clockReads := clockReads st |} in
      match generateContent env (length (calls st)) modelName prompt with
      | Response text => Some (Ok text, setMemo key text st1)
      | Failure err =>
          if (attempt >? 1 + MAX_RETRIES)%Z || negb (isTransient err) then
            Some (Throw (LLMFailure (label err ++ str ": " ++ message err)), st1)
          else
            let st2 :=
              {| memo := memo st1; calls := calls st1;
                 sleeps := sleeps st1 ++ [delay]; clockReads := clockReads st1 |} in
            retryLoop fuel' key prompt modelName attempt (Z.min (delay * 2) 4000) st2
      end
  end.

(** [executeLLM(prompt, modelName)] *)
Definition executeLLM (fuel : nat) (prompt modelName : jsstring) (st : State)
  : option (Res jsstring * State) :=
  let key := promptKey modelName prompt in
  match getMemo key st with
  | (Some ((_ :: _) as cached), st1) => Some (Ok cached, st1) (* idempotent within TTL *)
  | (_, st1) => retryLoop fuel key prompt modelName 0 BACKOFF_MS st1
  end.

End Wrapper.

Definition defaultModel : jsstring := str "gemini-2.5-flash-lite".

End GeminiLLM.

(** ** Notions used by the statements *)

#[local] Open Scope Z_scope.

(** The sign and the class of a rounded non-zero value. *)
Definition nonzero_of_sign (s : bool) (x : number) : Prop :=
  match x with
  | S754_finite s' _ _ | S754_infinity s' => s' = s
  | _ => False
  end.


(** A value of the JavaScript number type: a binary64 in canonical form. *)
Definition is_double (x : number) : Prop := valid_binary prec emax x = true.


(** A key that orders the numbers other than NaN as [<] does,
    lexicographically. *)
Definition num_key (x : number) : Z * Z * Z :=
  match x with
  | S754_infinity true => (-2, 0, 0)
  | S754_finite true m e => (-1, - e, - Zpos m)
  | S754_zero _ | S754_nan => (0, 0, 0)
  | S754_finite false m e => (1, e, Zpos m)
  | S754_infinity false => (2, 0, 0)
  end.

Definition key_lt (a b : Z * Z * Z) : Prop :=
  let '(a1, a2, a3) := a in
  let '(b1, b2, b3) := b in
  a1 < b1 \/ (a1 = b1 /\ (a2 < b2 \/ (a2 = b2 /\ a3 < b3))).

#[local] Close Scope Z_scope.

(** Every number inside [v] satisfies [P]. *)
Fixpoint all_numbers (P : number -> Prop) (v : jsvalue) : Prop :=
  match v with
  | JNum n => P n
  | JArr l =>
      (fix go (l : list jsvalue) : Prop :=
         match l with [] => True | x :: r => all_numbers P x /\ go r end) l
  | JObj fs =>
      (fix go (fs : list (jsstring * jsvalue)) : Prop :=
         match fs with [] => True | kv :: r => all_numbers P (snd kv) /\ go r end) fs
  | _ => True
  end.

(** In the words of the specification: a stable sort by score, descending.
    [x] moves behind the elements whose score is greater. *)
Fixpoint insert_desc {A : Type} (score : A -> number) (x : A) (l : list A) : list A :=
  match l with
  | [] => [x]
  | y :: l' =>
      if num_lt (score x) (score y) then y :: insert_desc score x l' else x :: l
  end.

Definition sort_desc {A : Type} (score : A -> number) (l : list A) : list A :=
  foldr (insert_desc score) [] l.

(** [b] does not come before [a] by score. *)
Definition desc {A : Type} (score : A -> number) (a b : A) : Prop :=
  num_le (score b) (score a) = true.

(** [r] has the score [v], as [<] sees it. *)
Definition same_score {A : Type} (score : A -> number) (v : number) (r : A) : Prop :=
  num_lt v (score r) = false /\ num_lt (score r) v = false.

#[global] Instance same_score_dec {A : Type} (score : A -> number) v r :
  Decision (same_score score v r).
Proof. unfold same_score. apply _. Defined.

Definition not_NaN {A : Type} (score : A -> number) (r : A) : Prop :=
  Number.isNaN (score r) = false.

(** What [llmRecommend] computes from the state on entry. *)
Definition tasteSignalsOf (w : World) (user : User) : list TasteSignalRow.t :=
  default [] (TasteSignals (store w) !! user).

Definition recommendationsOf (w : World) (user : User) : list RecommendationRow.t :=
  default [] (Recommendations (store w) !! user).

Definition ratedOf (w : World) (user : User) : gset (list N) :=
  list_to_set (map TasteSignalRow.museum (tasteSignalsOf w user)).

Definition unseenOf (w : World) (user : User) (candidates : list Museum) : list Museum :=
  filter (fun m => m ∉ ratedOf w user) candidates.

Definition promptOf (w : World) (params : Params.t) : jsstring :=
  buildPromptFromTasteSignals
    (map (fun t => (TasteSignalRow.museum t, TasteSignalRow.taste t))
       (tasteSignalsOf w (Params.user params)))
    (unseenOf w (Params.user params) (Params.candidates params))
    (Params.k params).

(** The world after the prompt was sent, and after the rows were stored. *)
Definition afterCall (prompt : jsstring) (w : World) : World :=
  {| store := store w; llmCalls := llmCalls w ++ [prompt] |}.

Definition afterCommit (user : User) (rows : list RecommendationRow.t) (w : World)
  : World :=
  {| store := {| TasteSignals := TasteSignals (store w);
                 Recommendations := <[user := rows]> (Recommendations (store w)) |};
     llmCalls := llmCalls w |}.

(** The rows that [llmRecommend] builds from [top]. *)
Definition rowsOf (now : jsstring) (params : Params.t) (prompt : jsstring)
  (top : list Ranked.t) : list RecommendationRow.t :=
  map (fun t =>
         RecommendationRow.mk (Params.user params) (Ranked.museum t) (Ranked.score t)
           (Ranked.rationale t) now
           (default (str "gemini-2.5-flash-lite") (Params.modelVersion params))
           (Some (simpleHash prompt)))
      top.

(** The call reaches the LLM: the user has taste signals and some candidate
    is unseen. *)
Definition reachesLLM (w : World) (params : Params.t) : Prop :=
  tasteSignalsOf w (Params.user params) <> [] /\
  unseenOf w (Params.user params) (Params.candidates params) <> [].

(** ** Sequences of public operations *)

Inductive Op :=
| OpRecordMuseumTaste (now : jsstring) (user : User) (museum : Museum) (taste : Taste)
| OpClearMuseumTaste (user : User) (museum : Museum)
| OpLlmRecommend (llm : jsstring -> Res jsstring) (now : jsstring) (params : Params.t)
| OpGetRecommendations (user : User) (k : Z).

(** The world after an operation, whether it returned or threw. *)
Definition run_op (op : Op) (w : World) : World :=
  match op with
  | OpRecordMuseumTaste now user museum taste =>
      snd (recordMuseumTaste now user museum taste w)
  | OpClearMuseumTaste user museum => snd (clearMuseumTaste user museum w)
  | OpLlmRecommend llm now params => snd (llmRecommend llm now params w)
  | OpGetRecommendations user k => snd (getRecommendations user k w)
  end.

Definition initialWorld : World := {| store := emptyStore; llmCalls := [] |}.

(** The worlds reached from the empty store by operations that [allowed]
    admits in the world they are applied to. *)
Inductive reachable_by (allowed : World -> Op -> Prop) : World -> Prop :=
| reachable_initial : reachable_by allowed initialWorld
| reachable_step (w : World) (op : Op) :
    reachable_by allowed w -> allowed w op -> reachable_by allowed (run_op op w).

Definition reachable : World -> Prop := reachable_by (fun _ _ => True).

(** No stored recommendation of a user is for a museum that the user has
    rated. *)
Definition NoRatedRecommended (st : SpotlightAIStore) : Prop :=
  forall (u : User) (row : RecommendationRow.t) (ts : TasteSignalRow.t),
    row ∈ default [] (Recommendations st !! u) ->
    ts ∈ default [] (TasteSignals st !! u) ->
    RecommendationRow.museum row <> TasteSignalRow.museum ts.

(** [recordMuseumTaste] is applied only to a museum that is not among the
    stored recommendations of the user. *)
Definition ratesOnlyUnrecommended (w : World) (op : Op) : Prop :=
  match op with
  | OpRecordMuseumTaste _ user museum _ =>
      museum ∉ map RecommendationRow.museum (recommendationsOf w user)
  | _ => True
  end.

(** The stored scores are doubles other than NaN. *)
Definition StoredScoresOk (st : SpotlightAIStore) : Prop :=
  forall (u : User) (row : RecommendationRow.t),
    row ∈ default [] (Recommendations st !! u) ->
    is_double (RecommendationRow.score row) /\
    Number.isNaN (RecommendationRow.score row) = false.

(** ** The rationale contract, in words *)

(** [w] occurs in [s] as a token of its own: no word character on either
    side. *)
Definition standalone_token (w s : jsstring) : Prop :=
  exists pre post : jsstring,
    s = pre ++ w ++ post /\
    (forall c, last pre = Some c -> isWordChar c = false) /\
    (forall c, head post = Some c -> isWordChar c = false).

(** [s] begins with the percentage marker of value [nn]: an opening
    parenthesis, one to three digits, a percent sign, optional white space,
    the word "match" in any letter case, a closing parenthesis and at least
    one white space character. *)
Definition PercentPrefix (s : jsstring) (nn : Z) : Prop :=
  exists ds ws1 mt ws2 rest : jsstring,
    s = [40%N] ++ ds ++ [37%N] ++ ws1 ++ mt ++ [41%N] ++ ws2 ++ rest /\
    (1 <= length ds <= 3)%nat /\
    Forall (fun c => isDigit c = true) ds /\
    Forall (fun c => isWhiteSpace c = true) ws1 /\
    map toLowerAscii mt = str "match" /\
    ws2 <> [] /\
    Forall (fun c => isWhiteSpace c = true) ws2 /\
    parseInt ds = nn.

(** The percentage marker as the prompt words it: ["(NN% match) "]. *)
Definition LiteralPercentPrefix (s : jsstring) (nn : Z) : Prop :=
  exists ds rest : jsstring,
    s = str "(" ++ ds ++ str "% match) " ++ rest /\
    Forall (fun c => isDigit c = true) ds /\
    parseInt ds = nn.

(** [|nn - round(score * 100)| <= 10], as the validator computes it. *)
Definition percent_delta (nn : Z) (score : number) : number :=
  Math.abs (num_sub (number_of_Z nn) (Math.round (num_mul score num_100))).

Definition PercentAgrees (nn : Z) (score : number) : Prop :=
  num_le (percent_delta nn score) num_10 = true.

Definition InUnitInterval (score : number) : Prop :=
  num_le num_0 score = true /\ num_le score num_1 = true.

(** ** Sample data for the examples *)

Definition alice : User := str "u:alice".

Definition sample_candidates : list Museum := [str "met"; str "whitney"; str "moma"].

Definition sample_params (k : Z) : Params.t := Params.mk alice k sample_candidates None.

(** A model answer that passes every validator; the rationale uses the
    word "love" in lower case. *)
Definition raw_whitney : jsstring :=
  qq "{`recommendations`:[{`museumId`:`whitney`,`score`:0.9,`rationale`:`(90% match) You will love its postwar sculpture focus.`}]}".

(** The same answer with the marker written in capitals and without the
    inner space. *)
Definition raw_whitney_capitals : jsstring :=
  qq "{`recommendations`:[{`museumId`:`whitney`,`score`:0.9,`rationale`:`(90%MATCH) You adored its postwar sculpture focus.`}]}".

Definition llm_whitney : jsstring -> Res jsstring := fun _ => Ok raw_whitney.

Definition llm_outage : jsstring -> Res jsstring :=
  fun _ => Throw (LLMFailure (str "Simulated LLM service outage")).

(** Alice has rated the Met. *)
Definition world_rated : World :=
  run_op (OpRecordMuseumTaste (str "t0") alice (str "met") LOVE) initialWorld.

(** Then she was recommended the Whitney. *)
Definition world_recommended : World :=
  run_op (OpLlmRecommend llm_whitney (str "t1") (sample_params 3)) world_rated.

(** Then she rated the Whitney. *)
Definition world_rated_recommended : World :=
  run_op (OpRecordMuseumTaste (str "t2") alice (str "whitney") LIKE) world_recommended.

(** An environment in which every external call is rejected with the HTTP
    status 503, and one in which every call succeeds with an empty text.
    The clock advances by one second at each read. *)
Definition env_always_503 : GeminiLLM.Env :=
  {| GeminiLLM.generateContent := fun _ _ _ =>
       GeminiLLM.Failure
         {| GeminiLLM.name := str "Error";
            GeminiLLM.message := str "Service Unavailable";
            GeminiLLM.status := str "503" |};
     GeminiLLM.dateNow := fun n => (1000 * Z.of_nat n)%Z |}.

Definition env_empty_text : GeminiLLM.Env :=
  {| GeminiLLM.generateContent := fun _ _ _ => GeminiLLM.Response [];
     GeminiLLM.dateNow := fun n => (1000 * Z.of_nat n)%Z |}.

(** A stand-in for the digest in the examples. *)
Definition sample_digest : jsstring -> jsstring := fun s => s.

(** The delays slept before [n] retries, from the delay [delay]. *)
Fixpoint backoff (n : nat) (delay : Z) : list Z :=
  match n with
  | O => []
  | S n' => delay :: backoff n' (Z.min (delay * 2) 4000)
  end.

(** ** The parser, in words *)

(** [block] is the part of [raw] from its first opening brace to its last
    closing brace. *)
Definition BraceBlock (raw block : jsstring) : Prop :=
  exists pre post : jsstring,
    raw = pre ++ block ++ post /\
    (123%N ∉ pre) /\ (125%N ∉ post) /\
    head block = Some 123%N /\ last block = Some 125%N.

(** An object with a [recommendations] array can be recovered from [raw]:
    by parsing [raw] itself, or else by parsing its brace block. *)
Definition Recoverable (raw : jsstring) (obj : jsvalue) : Prop :=
  (JSON.parse raw = Some obj /\ has_recommendations obj = true) \/
  ((forall o, JSON.parse raw = Some o -> has_recommendations o = false) /\
   exists block : jsstring,
     BraceBlock raw block /\ JSON.parse block = Some obj /\
     has_recommendations obj = true).

(** The specification's second route: the first balanced brace-delimited
    substring.  [balanced_rest depth acc s] reads [s] inside [depth] open
    braces, [acc] being the block read so far, reversed. *)
Fixpoint balanced_rest (depth : nat) (acc s : jsstring) : option jsstring :=
  match s with
  | [] => None
  | c :: r =>
      if N.eqb c 123 then balanced_rest (S depth) (c :: acc) r
      else if N.eqb c 125 then
        match depth with
        | O => Some (rev (c :: acc))
        | S d => balanced_rest d (c :: acc) r
        end
      else balanced_rest depth (c :: acc) r
  end.

Definition first_balanced_block (raw : jsstring) : option jsstring :=
  match from_first 123 raw with
  | Some (c :: t) => balanced_rest 0 [c] t
  | _ => None
  end.

(** [parseLLMJson] as the specification words it. *)
Definition parseLLMJson_spec (raw : jsstring) : Res jsvalue :=
  match parse_direct raw with
  | Some obj => Ok obj
  | None =>
      match first_balanced_block raw with
      | None => Throw FailedToParseLLMOutput
      | Some block =>
          match JSON.parse block with
          | None => Throw JsonSyntaxError
          | Some obj =>
              if has_recommendations obj then Ok obj
              else Throw MalformedRecommendationsBlock
          end
      end
  end.

(** A model answer with prose around the object; the prose after it has
    braces of its own. *)
Definition raw_with_braces_in_prose : jsstring :=
  qq "Here you go: {`recommendations`:[]} Each entry has the form {museumId, score, rationale}.".

Definition raw_in_prose : jsstring :=
  qq "Here you go: {`recommendations`:[]} Enjoy your visit!".

(** ** What the validators establish *)

(** The entry [r] has the identifier [m], the score [s] and the rationale
    [t], and has passed every test of [validateLLMRecommendations]. *)
Record ValidEntry (unseen : list Museum) (r : jsvalue) (m : Museum) (s : number)
  (t : jsstring) : Prop := {
  ve_museumId : prop r (str "museumId") = Some (JStr m);
  ve_score : prop r (str "score") = Some (JNum s);
  ve_rationale : prop r (str "rationale") = Some (JStr t);
  ve_truthy : truthy r = true;
  ve_unseen : m ∈ unseen;
  ve_finite : Number.isFinite s = true;
  ve_not_below_0 : num_lt s num_0 = false;
  ve_not_above_1 : num_gt s num_1 = false;
  ve_percent : exists ds rest : jsstring,
      match_percent_prefix t = Some (ds, rest) /\
      num_lt (number_of_Z (parseInt ds)) num_0 = false /\
      num_gt (number_of_Z (parseInt ds)) num_100 = false /\
      num_gt (percent_delta (parseInt ds) s) num_10 = false;
  ve_not_empty : strip_percent_prefix t <> [];
  ve_no_banned_word : has_banned_word (strip_percent_prefix t) = false;
  ve_sentences : (count_sentences (strip_percent_prefix t) <= 3)%nat
}.

(** The entry of [top] made from a valid entry. *)
Definition ranked_of (m : Museum) (s : number) (t : jsstring) : Ranked.t :=
  Ranked.mk m (trim t) (clamp01 s).

(** [e] is the entry of [top] made from the validated entry [r]. *)
Definition RankedFrom (unseen : list Museum) (r : jsvalue) (e : Ranked.t) : Prop :=
  exists (m : Museum) (s : number) (t : jsstring),
    ValidEntry unseen r m s t /\ e = ranked_of m s t.

(** Among the first [n] naturals, [number_of_Z] keeps the order with 100. *)
Definition small_percent_check (n : nat) : bool :=
  forallb (fun i => (Z.of_nat i <=? 100)%Z || num_gt (number_of_Z (Z.of_nat i)) num_100)
    (seq 0 n).

(** A stored row keeps the contract of the validators: a score in the unit
    interval and a rationale that begins with a percentage marker which
    agrees with the score. *)
Definition RowConsistent (row : RecommendationRow.t) : Prop :=
  InUnitInterval (RecommendationRow.score row) /\
  exists nn : Z,
    PercentPrefix (RecommendationRow.rationale row) nn /\
    (0 <= nn <= 100)%Z /\
    PercentAgrees nn (RecommendationRow.score row).

(** The same with the marker as the claim words it. *)
Definition RowConsistentLiteral (row : RecommendationRow.t) : Prop :=
  InUnitInterval (RecommendationRow.score row) /\
  exists nn : Z,
    LiteralPercentPrefix (RecommendationRow.rationale row) nn /\
    (0 <= nn <= 100)%Z /\
    PercentAgrees nn (RecommendationRow.score row).

(** A tier word in any letter case. *)
Definition tier_word_any_case (w : jsstring) : Prop := map toUpperAscii w ∈ banned_words.

Definition world_recommended_capitals : World :=
  run_op (OpLlmRecommend (fun _ => Ok raw_whitney_capitals) (str "t1") (sample_params 3))
    world_rated.

(** A model answer whose rationale names a tier in capitals. *)
Definition raw_whitney_LOVE : jsstring :=
  qq "{`recommendations`:[{`museumId`:`whitney`,`score`:0.9,`rationale`:`(90% match) You LOVE postwar sculpture.`}]}".
(** ** Shape of the store *)

(** The rows kept under a user carry that user, and no two of them are for
    the same museum. *)
Definition TasteSignalsKeyed (st : SpotlightAIStore) : Prop :=
  forall u : User,
    NoDup (map TasteSignalRow.museum (default [] (TasteSignals st !! u))) /\
    Forall (fun ts => TasteSignalRow.user ts = u) (default [] (TasteSignals st !! u)).

Definition RecommendationsKeyed (st : SpotlightAIStore) : Prop :=
  forall u : User,
    NoDup (map RecommendationRow.museum (default [] (Recommendations st !! u))) /\
    Forall (fun row => RecommendationRow.user row = u)
      (default [] (Recommendations st !! u)).

(** The rows of a list that are not for [museum], in their order. *)
Definition otherMuseums (museum : Museum) (l : list TasteSignalRow.t)
  : list TasteSignalRow.t :=
  filter (fun ts => TasteSignalRow.museum ts <> museum) l.

(** The [museumId] of an entry of the answer, when it is a string. *)
Definition museumIdOf (r : jsvalue) : option Museum :=
  match prop r (str "museumId") with
  | Some (JStr m) => Some m
  | _ => None
  end.

(** An answer that the validators accept, in words: the array is not empty,
    every entry is valid and names a museum by a non-blank id, and no id
    occurs twice. *)
Definition AcceptedAnswer (unseen : list Museum) (recs : list jsvalue) : Prop :=
  recs <> [] /\
  Forall (fun r => exists m s t, ValidEntry unseen r m s t /\ trim m <> []) recs /\
  NoDup (omap museumIdOf recs).

(** A model answer for the Museum of Modern Art, and one with an empty
    array. *)
Definition raw_moma : jsstring :=
  qq "{`recommendations`:[{`museumId`:`moma`,`score`:0.8,`rationale`:`(80% match) Strong on modern painting.`}]}".

Definition llm_moma : jsstring -> Res jsstring := fun _ => Ok raw_moma.

Definition raw_empty_array : jsstring := qq "{`recommendations`:[]}".

(** An answer whose second entry is for the Met, which Alice has rated. *)
Definition raw_whitney_and_met : jsstring :=
  qq "{`recommendations`:[{`museumId`:`whitney`,`score`:0.9,`rationale`:`(90% match) Postwar sculpture.`},{`museumId`:`met`,`score`:0.7,`rationale`:`(70% match) Encyclopedic.`}]}".

(** Environments for the examples of the wrapper: every call is rejected
    with the status 400; the first two calls are rejected with the status
    503 and the later ones answer; every call answers, with a clock that
    advances by one second, or by twenty seconds, at each read. *)
Definition env_always_400 : GeminiLLM.Env :=
  {| GeminiLLM.generateContent := fun _ _ _ =>
       GeminiLLM.Failure
         {| GeminiLLM.name := str "Error";
            GeminiLLM.message := str "Bad Request";
            GeminiLLM.status := str "400" |};
     GeminiLLM.dateNow := fun n => (1000 * Z.of_nat n)%Z |}.

Definition env_flaky : GeminiLLM.Env :=
  {| GeminiLLM.generateContent := fun i _ _ =>
       if (i <? 2)%nat then
         GeminiLLM.Failure
           {| GeminiLLM.name := str "Error";
              GeminiLLM.message := str "Service Unavailable";
              GeminiLLM.status := str "503" |}
       else GeminiLLM.Response (str "ok");
     GeminiLLM.dateNow := fun n => (1000 * Z.of_nat n)%Z |}.

Definition env_answers : GeminiLLM.Env :=
  {| GeminiLLM.generateContent := fun _ _ _ => GeminiLLM.Response (str "ok");
     GeminiLLM.dateNow := fun n => (1000 * Z.of_nat n)%Z |}.

Definition env_slow_clock : GeminiLLM.Env :=
  {| GeminiLLM.generateContent := fun _ _ _ => GeminiLLM.Response (str "new");
     GeminiLLM.dateNow := fun n => (20000 * Z.of_nat (S n))%Z |}.

(** A memo that holds the text [old], stored at time 0, under [key]. *)
Definition state_with_entry (key : jsstring) : GeminiLLM.State :=
  {| GeminiLLM.memo := {[ key := {| GeminiLLM.at_ := 0; GeminiLLM.text_ := str "old" |} ]};
     GeminiLLM.calls := []; GeminiLLM.sleeps := []; GeminiLLM.clockReads := 0 |}.

(** A string of UTF-16 code units. *)
Definition codeUnits (s : jsstring) : Prop := Forall (fun c => (c < 65536)%N) s.

(** The polynomial that the loop of [simpleHash] evaluates, without the
    wrap-around to 32 bits. *)
Definition polyHash (s : jsstring) : Z :=
  fold_left (fun h c => (h * 31 + Z.of_N c)%Z) s 0%Z.

(** ** A store filled from outside *)

(** The scores of the rows are numbers other than NaN. *)
Definition RowScoresOk (rows : list RecommendationRow.t) : Prop :=
  Forall (fun r => is_double (RecommendationRow.score r) /\
                   Number.isNaN (RecommendationRow.score r) = false) rows.

Definition seeded_row (museum : Museum) (score : number) : RecommendationRow.t :=
  RecommendationRow.mk alice museum score (str "(NN% match) seeded") (str "t0")
    (str "seed") None.

(** Four rows for Alice, not in the order of their scores, two of them with
    the same score: 0.5, 0.9, 0.7, 0.9. *)
Definition seeded_rows : list RecommendationRow.t :=
  [seeded_row (str "frick") (number_of_decimal false 5 (-1));
   seeded_row (str "whitney") (number_of_decimal false 9 (-1));
   seeded_row (str "moma") (number_of_decimal false 7 (-1));
   seeded_row (str "guggenheim") (number_of_decimal false 9 (-1))].

Definition world_seeded : World :=
  {| store := {| TasteSignals := ∅; Recommendations := {[ alice := seeded_rows ]} |};
     llmCalls := [] |}.

(** ** llmRecommend for a [k] that is any number *)

(** The parameter [k] is a number of the language: it may be NaN, an
    infinity or a fraction.  This is [llmRecommend] with [k] at that type;
    on the integers from 1 below 2^53 it is the function above. *)
Module AnyNumber.

(** [ToIntegerOrInfinity(x)] for a finite [x]: its integer part, toward
    zero. *)
Definition truncate (x : number) : Z :=
  match x with
  | S754_finite s m e =>
      let v := if (0 <=? e)%Z then (Z.pos m * 2 ^ e)%Z else (Z.pos m / 2 ^ (- e))%Z in
      if s then (- v)%Z else v
  | _ => 0%Z
  end.

(** [l.slice(0, k)]: NaN counts as 0, and a negative end is counted from
    the end of the list. *)
Definition slice0 {A : Type} (k : number) (l : list A) : list A :=
  match k with
  | S754_nan | S754_zero _ | S754_infinity true => []
  | S754_infinity false => l
  | S754_finite _ _ _ =>
      let z := truncate k in
      if (z <? 0)%Z then take (length l - Z.to_nat (- z)) l else take (Z.to_nat z) l
  end.

Module Params.
Record t := mk {
  user : User;
  k : number;
  candidates : list Museum;
  modelVersion : option jsstring
}.
End Params.

Section Printing.

(** [`${k}`]: the decimal form that the language gives a number. *)
Variable Number_toString : number -> jsstring.

Definition buildPromptFromTasteSignals
  (tastes : list (jsstring * Taste)) (candidates : list jsstring) (k : number) : jsstring :=
  let tastePayload := map (fun t => stringifyTaste (fst t) (snd t)) tastes in
  trim ([10%N] ++
        join [10%N]
          (prompt_lines (Number_toString k)
             (stringifyArray tastePayload)
             (stringifyArray (map quoteJSONString candidates))) ++
        [10%N]).

Definition rank (recs : list jsvalue) (unseen : list Museum) (k : number)
  : list Ranked.t :=
  slice0 k
    (Array_sort (byScoreDesc Ranked.score)
       (filter (fun r => Ranked.museum r ∈ unseen) (omap ranked_entry recs))).

Definition llmRecommend (llm : jsstring -> Res jsstring) (now : jsstring)
  (params : Params.t) : Action (list (Museum * jsstring)) :=
  let user := Params.user params in
  let k := Params.k params in
  let candidates := Params.candidates params in
  if num_lt k num_1 then throw KMustBeAtLeastOne
  else
    tasteSignals ← getTasteSignals user;
    match tasteSignals with
    | [] => setRecommendations user [] ;; mret []
    | _ :: _ =>
        let rated : gset (list N) := list_to_set (map TasteSignalRow.museum tasteSignals) in
        let unseen := filter (fun m => m ∉ rated) candidates in
        match unseen with
        | [] => setRecommendations user [] ;; mret []
        | _ :: _ =>
            let prompt :=
              buildPromptFromTasteSignals
                (map (fun t => (TasteSignalRow.museum t, TasteSignalRow.taste t)) tasteSignals)
                unseen k in
            raw ← callLLM llm prompt;
            parsed ← lift (parseLLMJson raw);
            (* Validate the model output BEFORE mapping to internal rows *)
            lift (validateLLMRecommendations parsed unseen) ;;
            let modelVersion :=
              default (str "gemini-2.5-flash-lite") (Params.modelVersion params) in
            let promptHash := simpleHash prompt in
            let top := rank (default [] (recommendations_of parsed)) unseen k in
            let rows :=
              map (fun t =>
                     RecommendationRow.mk user (Ranked.museum t) (Ranked.score t)
                       (Ranked.rationale t) now modelVersion (Some promptHash))
                  top in
            setRecommendations user rows ;;
            mret (result_of Ranked.museum Ranked.rationale top)
        end
    end.

(** The prompt of a call, from the state on entry. *)
Definition promptOf (w : World) (params : Params.t) : jsstring :=
  buildPromptFromTasteSignals
    (map (fun t => (TasteSignalRow.museum t, TasteSignalRow.taste t))
       (tasteSignalsOf w (Params.user params)))
    (unseenOf w (Params.user params) (Params.candidates params))
    (Params.k params).

(** The call reaches the LLM: [k < 1] is false, the user has taste signals
    and some candidate is unseen. *)
Definition reachesLLM (w : World) (params : Params.t) : Prop :=
  num_lt (Params.k params) num_1 = false /\
  tasteSignalsOf w (Params.user params) <> [] /\
  unseenOf w (Params.user params) (Params.candidates params) <> [].

End Printing.

End AnyNumber.

(** 2.5 *)
Definition num_2_5 : number := Eval vm_compute in number_of_decimal false 25 (-1).

(** A printing for the examples: as the language prints NaN, the
    infinities, 2.5 and the integers of magnitude below 10^21. *)
Definition sample_toString (x : number) : jsstring :=
  match x with
  | S754_nan => str "NaN"
  | S754_infinity false => str "Infinity"
  | S754_infinity true => str "-Infinity"
  | S754_finite false 5629499534213120 (-51) => str "2.5"
  | _ => Z_toString (AnyNumber.truncate x)
  end.

(** An answer with three entries. *)
Definition raw_three : jsstring :=
  qq "{`recommendations`:[{`museumId`:`whitney`,`score`:0.9,`rationale`:`(90% match) Postwar sculpture.`},{`museumId`:`moma`,`score`:0.8,`rationale`:`(80% match) Modern painting.`},{`museumId`:`frick`,`score`:0.6,`rationale`:`(60% match) Old masters.`}]}".

Definition four_candidates : list Museum :=
  [str "met"; str "whitney"; str "moma"; str "frick"].

(** * Facts about binary64 numbers *)

Section NumberFacts.

#[local] Open Scope Z_scope.

Lemma digits2_pos_bounds (m : positive) :
  2 ^ (Zpos (digits2_pos m) - 1) <= Zpos m < 2 ^ Zpos (digits2_pos m).
Proof.
  induction m as [m IH | m IH |]; simpl digits2_pos.
  - rewrite Pos2Z.inj_succ.
    replace (Z.succ (Zpos (digits2_pos m)) - 1) with (Z.succ (Zpos (digits2_pos m) - 1)) by lia.
    rewrite !Z.pow_succ_r by lia. lia.
  - rewrite Pos2Z.inj_succ.
    replace (Z.succ (Zpos (digits2_pos m)) - 1) with (Z.succ (Zpos (digits2_pos m) - 1)) by lia.
    rewrite !Z.pow_succ_r by lia. lia.
  - simpl. lia.
Qed.

Lemma shr_1_m (r : shr_record) :
  0 <= shr_m r -> shr_m (shr_1 r) = shr_m r / 2.
Proof.
  destruct r as [m b s]. simpl. intros Hm.
  destruct m as [| p | p]; [reflexivity | | lia].
  destruct p as [p | p |]; simpl.
  - rewrite Pos2Z.inj_xI. apply Z.div_unique with 1; lia.
  - rewrite Pos2Z.inj_xO. apply Z.div_unique with 0; lia.
  - reflexivity.
Qed.

Lemma iter_pos_shr_1_m (p : positive) :
  forall r, 0 <= shr_m r ->
    shr_m (SpecFloat.iter_pos shr_1 p r) = shr_m r / 2 ^ Zpos p.
Proof.
  induction p as [p IH | p IH |]; intros r Hr; simpl SpecFloat.iter_pos.
  - assert (H1 : 0 <= shr_m (shr_1 r)) by (rewrite shr_1_m by lia; apply Z.div_pos; lia).
    assert (H2 : 0 <= shr_m (SpecFloat.iter_pos shr_1 p (shr_1 r)))
      by (rewrite IH by lia; apply Z.div_pos; lia).
    rewrite IH, IH, shr_1_m by lia.
    rewrite !Z.div_div by lia.
    f_equal. rewrite Pos2Z.inj_xI, Z.pow_add_r, Z.pow_mul_r by lia.
    change (2 ^ 2) with 4. change (2 ^ 1) with 2.
    rewrite <- Z.pow_add_r by lia. replace (Zpos p + Zpos p) with (2 * Zpos p) by lia.
    rewrite Z.pow_mul_r by lia. change (2 ^ 2) with 4. lia.
  - assert (H2 : 0 <= shr_m (SpecFloat.iter_pos shr_1 p r))
      by (rewrite IH by lia; apply Z.div_pos; lia).
    rewrite IH, IH by lia.
    rewrite !Z.div_div by lia.
    f_equal. rewrite Pos2Z.inj_xO. rewrite <- Z.pow_add_r by lia. f_equal. lia.
  - rewrite shr_1_m by lia. reflexivity.
Qed.


Lemma shr_record_of_loc_m (m : Z) (l : location) : shr_m (shr_record_of_loc m l) = m.
Proof. destruct l as [| []]; reflexivity. Qed.

Lemma fexp_emin (z : Z) : emin prec emax <= fexp prec emax z.
Proof. unfold fexp. lia. Qed.

(** Rounding to the format keeps a positive mantissa positive when the
    exponent is in range: nothing underflows to zero. *)
Lemma shr_fexp_pos (m e : Z) (l : location) :
  0 < m -> emin prec emax <= e ->
  0 < shr_m (fst (shr_fexp prec emax m e l)) /\
  emin prec emax <= snd (shr_fexp prec emax m e l).
Proof.
  intros Hm He. unfold shr_fexp, shr.
  destruct m as [| p | p]; try lia. simpl Zdigits2.
  pose proof (digits2_pos_bounds p) as [Hlo _].
  set (d := Zpos (digits2_pos p)) in *.
  destruct (fexp prec emax (d + e) - e) as [| n | n] eqn:Hn; simpl;
    rewrite ?shr_record_of_loc_m; try lia.
  rewrite iter_pos_shr_1_m by (rewrite shr_record_of_loc_m; lia).
  rewrite shr_record_of_loc_m.
  assert (Hd : Zpos n <= d - 1).
  { unfold fexp, emin, prec, emax in *. lia. }
  split; [| lia].
  assert (2 ^ Zpos n <= 2 ^ (d - 1)) by (apply Z.pow_le_mono_r; lia).
  assert (0 < 2 ^ Zpos n) by (apply Z.pow_pos_nonneg; lia).
  apply Z.div_str_pos. lia.
Qed.

Lemma round_nearest_even_ge (m : Z) (l : location) : m <= round_nearest_even m l.
Proof. destruct l as [| []]; simpl; try lia. destruct (Z.even m); lia. Qed.


Lemma binary_round_aux_nonzero (s : bool) (m e : Z) (l : location) :
  0 < m -> emin prec emax <= e ->
  nonzero_of_sign s (binary_round_aux prec emax s m e l).
Proof.
  intros Hm He. unfold binary_round_aux.
  pose proof (shr_fexp_pos m e l Hm He) as [H1 H2].
  destruct (shr_fexp prec emax m e l) as [mrs' e'] eqn:E1. simpl in H1, H2.
  pose proof (round_nearest_even_ge (shr_m mrs') (loc_of_shr_record mrs')) as Hr.
  pose proof (shr_fexp_pos (round_nearest_even (shr_m mrs') (loc_of_shr_record mrs')) e'
                loc_Exact ltac:(lia) H2) as [H3 H4].
  destruct (shr_fexp prec emax (round_nearest_even (shr_m mrs') (loc_of_shr_record mrs')) e'
              loc_Exact) as [mrs'' e''] eqn:E2.
  simpl in H3, H4.
  destruct (shr_m mrs'') as [| q | q]; try lia.
  destruct (e'' <=? emax - prec); simpl; reflexivity.
Qed.

Lemma binary_round_nonzero (s : bool) (m : positive) (e : Z) :
  emin prec emax <= e -> nonzero_of_sign s (binary_round prec emax s m e).
Proof.
  intros He. unfold binary_round.
  destruct (shl_align m e (fexp prec emax (Zpos (digits2_pos m) + e))) as [mz ez] eqn:E.
  apply binary_round_aux_nonzero; [lia |].
  unfold shl_align in E.
  pose proof (fexp_emin (Zpos (digits2_pos m) + e)).
  destruct (fexp prec emax (Zpos (digits2_pos m) + e) - e); inversion E; subst; lia.
Qed.

Lemma num_gt_0_nonzero (s : bool) (x : number) :
  nonzero_of_sign s x -> num_gt x num_0 = negb s.
Proof. destruct x as [| s' | | s' m e]; simpl; try tauto; intros ->; destruct s; reflexivity. Qed.

(** [z] as a double is positive exactly when [z] is. *)
Lemma binary_normalize_gt_0 (z e : Z) :
  emin prec emax <= e ->
  num_gt (binary_normalize prec emax z e false) num_0 = (0 <? z).
Proof.
  intros He. destruct z as [| p | p]; simpl binary_normalize.
  - reflexivity.
  - rewrite (num_gt_0_nonzero false) by (apply binary_round_nonzero; exact He). reflexivity.
  - rewrite (num_gt_0_nonzero true) by (apply binary_round_nonzero; exact He). reflexivity.
Qed.



Lemma is_double_finite (s : bool) (m : positive) (e : Z) :
  is_double (S754_finite s m e) ->
  emin prec emax <= e /\ Zpos m < 2 ^ 53 /\ (emin prec emax < e -> 2 ^ 52 <= Zpos m).
Proof.
  unfold is_double, valid_binary, bounded, canonical_mantissa.
  rewrite andb_true_iff, Z.eqb_eq, Z.leb_le. intros [Hc _].
  pose proof (digits2_pos_bounds m) as [Hlo Hhi].
  set (d := Zpos (digits2_pos m)) in *.
  unfold fexp, emin, prec, emax in *.
  assert (Hd : d <= 53) by lia.
  split; [lia |]. split.
  - assert (2 ^ d <= 2 ^ 53) by (apply Z.pow_le_mono_r; lia). lia.
  - intros He. assert (d = 53) as Hd53 by lia. rewrite Hd53 in Hlo. exact Hlo.
Qed.

Lemma Pos_iter_xO (d m : positive) : Zpos (Pos.iter xO m d) = Zpos m * 2 ^ Zpos d.
Proof.
  induction d as [| d IH] using Pos.peano_ind.
  - simpl. lia.
  - rewrite Pos.iter_succ, Pos2Z.inj_xO, IH, Pos2Z.inj_succ, Z.pow_succ_r by lia. lia.
Qed.

Lemma shl_align_fst (mx : positive) (ex ez : Z) :
  ez <= ex -> Zpos (fst (shl_align mx ex ez)) = Zpos mx * 2 ^ (ex - ez).
Proof.
  intros H. unfold shl_align.
  destruct (ez - ex) as [| d | d] eqn:E; simpl; try lia.
  - replace (ex - ez) with 0 by lia. lia.
  - rewrite Pos_iter_xO. f_equal. f_equal. lia.
Qed.

(** The sign of a difference of doubles is the order of the operands:
    [x - y > 0] exactly when [x > y]. *)
Lemma num_sub_gt_0 (x y : number) :
  is_double x -> is_double y ->
  num_gt (num_sub x y) num_0 = num_gt x y.
Proof.
  intros Hx Hy.
  destruct x as [sx | sx | | sx mx ex], y as [sy | sy | | sy my ey];
    try reflexivity;
    try (destruct sx; reflexivity);
    try (destruct sy; reflexivity);
    try (destruct sx, sy; reflexivity).
  apply is_double_finite in Hx as (Hex & Hmx & Hnx).
  apply is_double_finite in Hy as (Hey & Hmy & Hny).
  unfold num_sub, SFsub.
  rewrite binary_normalize_gt_0 by lia.
  rewrite !shl_align_fst by lia.
  unfold num_gt, SFltb, SFcompare.
  change (Pos.compare_cont Eq my mx) with (Pos.compare my mx).
  assert (Hpow : forall a b : Z, a < b -> 2 <= 2 ^ (b - a)).
  { intros a b Hab. change 2 with (2 ^ 1) at 1. apply Z.pow_le_mono_r; lia. }
  unfold emin, prec, emax in *.
  destruct (Z.compare_spec ey ex) as [He | He | He].
  - subst ey. rewrite Z.min_id, Z.sub_diag. change (2 ^ 0) with 1.
    destruct (Pos.compare_spec my mx) as [Hm | Hm | Hm];
      destruct sx, sy; simpl; lia.
  - rewrite Z.min_r by lia. rewrite Z.sub_diag. change (2 ^ 0) with 1.
    specialize (Hpow ey ex He). specialize (Hnx ltac:(lia)).
    assert (2 * Zpos mx <= Zpos mx * 2 ^ (ex - ey)) by nia.
    destruct sx, sy; simpl; lia.
  - rewrite Z.min_l by lia. rewrite Z.sub_diag. change (2 ^ 0) with 1.
    specialize (Hpow ex ey He). specialize (Hny ltac:(lia)).
    assert (2 * Zpos my <= Zpos my * 2 ^ (ey - ex)) by nia.
    destruct sx, sy; simpl; lia.
Qed.


(** *** The order of numbers *)


Lemma num_lt_key (a b : number) :
  Number.isNaN a = false -> Number.isNaN b = false ->
  num_lt a b = true <-> key_lt (num_key a) (num_key b).
Proof.
  intros Ha Hb. unfold num_lt, SFltb, SFcompare.
  destruct a as [sa | sa | | sa ma ea], b as [sb | sb | | sb mb eb];
    try discriminate; simpl;
    try (destruct sa; simpl; split; (lia || discriminate));
    try (destruct sb; simpl; split; (lia || discriminate));
    try (destruct sa, sb; simpl; split; (lia || discriminate)).
  change (Pos.compare_cont Eq ma mb) with (Pos.compare ma mb).
  destruct sa, sb; simpl; try (split; (lia || discriminate));
    destruct (Z.compare_spec ea eb); destruct (Pos.compare_spec ma mb);
    simpl; split; (lia || discriminate || (intros; exfalso; lia)).
Qed.

Lemma num_lt_irrefl (a : number) : num_lt a a = false.
Proof.
  destruct (Number.isNaN a) eqn:Ha.
  - destruct a; try discriminate. reflexivity.
  - destruct (num_lt a a) eqn:E; [| reflexivity].
    apply num_lt_key in E; auto. unfold key_lt in E.
    destruct (num_key a) as [[? ?] ?]. lia.
Qed.

Lemma num_lt_asym (a b : number) : num_lt a b = true -> num_lt b a = false.
Proof.
  intros H.
  assert (Ha : Number.isNaN a = false) by (destruct a, b; try discriminate; reflexivity).
  assert (Hb : Number.isNaN b = false)
    by (destruct a as [| | |], b as [| | |]; try discriminate; reflexivity).
  destruct (num_lt b a) eqn:E; [| reflexivity].
  apply num_lt_key in H; auto. apply num_lt_key in E; auto.
  unfold key_lt in *. destruct (num_key a) as [[? ?] ?], (num_key b) as [[? ?] ?]. lia.
Qed.

Lemma num_le_not_lt (a b : number) :
  Number.isNaN a = false -> Number.isNaN b = false ->
  num_le a b = negb (num_lt b a).
Proof.
  intros Ha Hb.
  destruct (num_lt b a) eqn:E.
  - pose proof (num_lt_asym _ _ E) as E'. unfold num_le, num_lt, SFleb, SFltb in *.
    destruct (SFcompare a b) as [[]|] eqn:C; try discriminate; try reflexivity.
    + exfalso. revert E C. unfold SFcompare.
      destruct a as [sa | sa | | sa ma ea], b as [sb | sb | | sb mb eb];
        try discriminate; try (destruct sa; discriminate); try (destruct sb; discriminate);
        try (destruct sa, sb; discriminate).
      change (Pos.compare_cont Eq ma mb) with (Pos.compare ma mb).
      change (Pos.compare_cont Eq mb ma) with (Pos.compare mb ma).
      rewrite (Z.compare_antisym ea eb), (Pos.compare_antisym ma mb).
      destruct sa, sb; try discriminate;
        destruct (ea ?= eb); simpl; try discriminate;
        destruct (ma ?= mb)%positive; simpl; discriminate.
  - unfold num_le, num_lt, SFleb, SFltb in *. simpl.
    revert E. unfold SFcompare.
    destruct a as [sa | sa | | sa ma ea], b as [sb | sb | | sb mb eb];
      try discriminate; try reflexivity;
      try (destruct sa; (discriminate || reflexivity));
      try (destruct sb; (discriminate || reflexivity));
      try (destruct sa, sb; (discriminate || reflexivity)).
    change (Pos.compare_cont Eq ma mb) with (Pos.compare ma mb).
    change (Pos.compare_cont Eq mb ma) with (Pos.compare mb ma).
    rewrite (Z.compare_antisym ea eb), (Pos.compare_antisym ma mb).
    destruct sa, sb; try (discriminate || reflexivity);
      destruct (ea ?= eb); simpl; try (discriminate || reflexivity);
      destruct (ma ?= mb)%positive; simpl; (discriminate || reflexivity).
Qed.

Lemma num_le_trans (a b c : number) :
  Number.isNaN a = false -> Number.isNaN b = false -> Number.isNaN c = false ->
  num_le a b = true -> num_le b c = true -> num_le a c = true.
Proof.
  intros Ha Hb Hc. rewrite !num_le_not_lt, !negb_true_iff by assumption.
  intros H1 H2. destruct (num_lt c a) eqn:E; [| reflexivity]. exfalso.
  apply num_lt_key in E; auto.
  assert (N1 : ~ key_lt (num_key b) (num_key a))
    by (intros K; apply num_lt_key in K; auto; congruence).
  assert (N2 : ~ key_lt (num_key c) (num_key b))
    by (intros K; apply num_lt_key in K; auto; congruence).
  unfold key_lt in *.
  destruct (num_key a) as [[? ?] ?], (num_key b) as [[? ?] ?], (num_key c) as [[? ?] ?]. lia.
Qed.

(** [a < b], then [b] equal to [c]: [a < c]. *)
Lemma num_lt_not_lt_trans (a b c : number) :
  Number.isNaN c = false ->
  num_lt a b = true -> num_lt c b = false -> num_lt a c = true.
Proof.
  intros Hc H1 H2.
  assert (Ha : Number.isNaN a = false) by (destruct a, b; try discriminate; reflexivity).
  assert (Hb : Number.isNaN b = false)
    by (destruct a as [| | |], b as [| | |]; try discriminate; reflexivity).
  apply num_lt_key; auto. apply num_lt_key in H1; auto.
  assert (N2 : ~ key_lt (num_key c) (num_key b))
    by (intros K; apply num_lt_key in K; auto; congruence).
  unfold key_lt in *.
  destruct (num_key a) as [[? ?] ?], (num_key b) as [[? ?] ?], (num_key c) as [[? ?] ?]. lia.
Qed.

End NumberFacts.

(** * Sorting by score *)

Section Sorting.

Context {A : Type} (score : A -> number).

#[local] Abbreviation insert_desc := (insert_desc score).
#[local] Abbreviation sort_desc := (sort_desc score).
#[local] Abbreviation desc := (desc score).
#[local] Abbreviation same_score := (same_score score).
#[local] Abbreviation not_NaN := (not_NaN score).

Lemma insert_sorted_desc (x : A) (l : list A) :
  is_double (score x) -> Forall (fun r => is_double (score r)) l ->
  insert_sorted (byScoreDesc score) x l = insert_desc x l.
Proof.
  intros Hx Hl. induction Hl as [| y l Hy Hl IH]; [reflexivity |].
  simpl. unfold byScoreDesc at 1. rewrite num_sub_gt_0 by assumption.
  unfold num_gt. rewrite IH. reflexivity.
Qed.

Lemma insert_desc_perm (x : A) (l : list A) : insert_desc x l ≡ₚ x :: l.
Proof.
  induction l as [| y l IH]; [reflexivity |]. simpl.
  destruct (num_lt (score x) (score y)); [| reflexivity].
  rewrite IH. apply Permutation_swap.
Qed.

Lemma sort_desc_perm (l : list A) : sort_desc l ≡ₚ l.
Proof.
  induction l as [| x l IH]; [reflexivity |]. simpl.
  rewrite insert_desc_perm, IH. reflexivity.
Qed.

Lemma Array_sort_desc (l : list A) :
  Forall (fun r => is_double (score r)) l ->
  Array_sort (byScoreDesc score) l = sort_desc l.
Proof.
  intros Hl. induction Hl as [| x l Hx Hl IH]; [reflexivity |].
  unfold Array_sort in *. simpl. rewrite IH.
  apply insert_sorted_desc; [assumption |].
  rewrite sort_desc_perm. assumption.
Qed.

Lemma insert_desc_sorted (x : A) (l : list A) :
  not_NaN x -> Forall not_NaN l ->
  StronglySorted desc l -> StronglySorted desc (insert_desc x l).
Proof.
  intros Hx Hn Hs. induction Hs as [| y l Hs IH Hy]; simpl.
  - repeat constructor.
  - apply Forall_cons in Hn as [Hny Hn].
    destruct (num_lt (score x) (score y)) eqn:E.
    + constructor; [apply IH; assumption |].
      rewrite insert_desc_perm. constructor; [| assumption].
      unfold desc. rewrite num_le_not_lt by assumption.
      rewrite (num_lt_asym _ _ E). reflexivity.
    + assert (Hxy : desc x y).
      { unfold desc. rewrite num_le_not_lt by assumption. rewrite E. reflexivity. }
      constructor; [constructor; assumption |].
      constructor; [assumption |].
      rewrite Forall_forall in Hy, Hn |- *. intros z Hz.
      unfold desc in *. eapply num_le_trans; [apply Hn, Hz | apply Hny | apply Hx | |].
      * apply Hy, Hz.
      * exact Hxy.
Qed.

Lemma sort_desc_not_NaN (l : list A) : Forall not_NaN l -> Forall not_NaN (sort_desc l).
Proof. intros H. rewrite sort_desc_perm. exact H. Qed.

Lemma sort_desc_sorted (l : list A) :
  Forall not_NaN l -> StronglySorted desc (sort_desc l).
Proof.
  intros Hl. induction Hl as [| x l Hx Hl IH]; simpl; [constructor |].
  apply insert_desc_sorted; auto using sort_desc_not_NaN.
Qed.

Lemma filter_insert_desc (P : A -> Prop) `{!forall r, Decision (P r)} (x : A) (l : list A) :
  (forall y, P x -> num_lt (score x) (score y) = true -> ~ P y) ->
  filter P (insert_desc x l) = filter P (x :: l).
Proof.
  intros HP. induction l as [| y l IH]; [reflexivity |]. simpl.
  destruct (num_lt (score x) (score y)) eqn:E; [| reflexivity].
  rewrite filter_cons, IH, !filter_cons.
  destruct (decide (P x)) as [Px | Px].
  - destruct (decide (P y)) as [Py | Py]; [| reflexivity].
    exfalso. exact (HP y Px E Py).
  - reflexivity.
Qed.

(** Stability: the elements of one score keep their order. *)
Lemma sort_desc_stable (v : number) (l : list A) :
  Number.isNaN v = false ->
  filter (same_score v) (sort_desc l) = filter (same_score v) l.
Proof.
  intros Hv. induction l as [| x l IH]; [reflexivity |]. simpl.
  rewrite filter_insert_desc.
  - rewrite !filter_cons, IH. reflexivity.
  - intros y [_ Hx] Hxy [Hy _].
    pose proof (num_lt_not_lt_trans _ _ _ Hv Hxy Hy). congruence.
Qed.

End Sorting.

(** * The numbers of [JSON.parse] are doubles *)

Section Validity.

#[local] Open Scope Z_scope.

Lemma Zdigits2_unique (m d : Z) :
  0 < m -> 2 ^ (d - 1) <= m < 2 ^ d -> Zdigits2 m = d.
Proof.
  intros Hm [Hlo Hhi]. destruct m as [| p | p]; try lia. simpl.
  pose proof (digits2_pos_bounds p) as [Hlo' Hhi'].
  set (d0 := Zpos (digits2_pos p)) in *.
  assert (Hd0 : 0 < d0) by (unfold d0; lia).
  destruct (Z.lt_trichotomy d d0) as [H | [H | H]]; [| lia |].
  - destruct (Z.le_gt_cases 0 d) as [Hd | Hd].
    + assert (2 ^ d <= 2 ^ (d0 - 1)) by (apply Z.pow_le_mono_r; lia). lia.
    + rewrite (Z.pow_neg_r 2 d) in Hhi by lia. lia.
  - assert (2 ^ d0 <= 2 ^ (d - 1)) by (apply Z.pow_le_mono_r; lia). lia.
Qed.

Lemma Zdigits2_nonneg (m : Z) : 0 <= Zdigits2 m.
Proof. destruct m; simpl; lia. Qed.

Lemma Zdigits2_bounds (m : Z) :
  0 < m -> 2 ^ (Zdigits2 m - 1) <= m < 2 ^ Zdigits2 m.
Proof. destruct m as [| p | p]; try lia. intros _. apply digits2_pos_bounds. Qed.

Lemma Zdigits2_mono (a b : Z) : 0 <= a <= b -> Zdigits2 a <= Zdigits2 b.
Proof.
  intros [Ha Hab]. destruct (Z.eq_dec a 0) as [-> | Hne].
  - apply Zdigits2_nonneg.
  - pose proof (Zdigits2_bounds a ltac:(lia)) as [Hlo _].
    pose proof (Zdigits2_bounds b ltac:(lia)) as [_ Hhi].
    destruct (Z.le_gt_cases (Zdigits2 a) (Zdigits2 b)) as [H | H]; [assumption |].
    pose proof (Zdigits2_nonneg b).
    assert (2 ^ Zdigits2 b <= 2 ^ (Zdigits2 a - 1)) by (apply Z.pow_le_mono_r; lia). lia.
Qed.

Lemma fexp_mono (a b : Z) : a <= b -> fexp prec emax a <= fexp prec emax b.
Proof. unfold fexp. lia. Qed.

(** The mantissa and exponent that [shr_fexp] returns are in canonical form
    when its argument is at least as fine as the format. *)
Lemma shr_fexp_canonical (m e : Z) (l : location) :
  0 <= m -> e <= fexp prec emax (Zdigits2 m + e) ->
  let m' := shr_m (fst (shr_fexp prec emax m e l)) in
  let e' := snd (shr_fexp prec emax m e l) in
  0 <= m' /\ m' <= m /\
  (m' = 0 -> e' = emin prec emax) /\
  (0 < m' -> fexp prec emax (Zdigits2 m' + e') = e').
Proof.
  intros Hm He. unfold shr_fexp, shr.
  pose proof (Zdigits2_nonneg m) as Hd.
  set (d := Zdigits2 m) in *.
  destruct (fexp prec emax (d + e) - e) as [| n | n] eqn:Hn; simpl;
    rewrite ?shr_record_of_loc_m; try lia.
  - assert (Hfe : fexp prec emax (d + e) = e) by lia.
    repeat split; try lia.
    + intros ->. unfold d in Hfe. simpl in Hfe. unfold fexp, emin, prec, emax in *. lia.
    + intros _. fold d. exact Hfe.
  - rewrite iter_pos_shr_1_m by (rewrite shr_record_of_loc_m; lia).
    rewrite shr_record_of_loc_m.
    assert (Hp : 0 < 2 ^ Zpos n) by (apply Z.pow_pos_nonneg; lia).
    assert (H0 : 0 <= m / 2 ^ Zpos n) by (apply Z.div_pos; lia).
    assert (Hle : m / 2 ^ Zpos n <= m).
    { apply Z.div_le_upper_bound; [lia |]. nia. }
    repeat split; try assumption.
    + intros Hz. apply Z.div_small_iff in Hz; [| lia].
      destruct Hz as [Hz | Hz]; [| lia].
      destruct (Z.eq_dec m 0) as [-> | Hm0].
      * unfold d in Hn. simpl in Hn. unfold fexp, emin, prec, emax in *. lia.
      * pose proof (Zdigits2_bounds m ltac:(lia)) as [Hlo _]. fold d in Hlo.
        assert (d - 1 < Zpos n).
        { destruct (Z.lt_ge_cases (d - 1) (Zpos n)) as [H | H]; [assumption |].
          assert (2 ^ Zpos n <= 2 ^ (d - 1)) by (apply Z.pow_le_mono_r; lia). lia. }
        unfold fexp, emin, prec, emax in *. lia.
    + intros Hpos.
      assert (Hm0 : 0 < m).
      { destruct (Z.eq_dec m 0) as [-> | ?]; [| lia]. rewrite Z.div_0_l in Hpos; lia. }
      pose proof (Zdigits2_bounds m Hm0) as [Hlo Hhi]. fold d in Hlo, Hhi.
      assert (Hnd : Zpos n < d).
      { destruct (Z.lt_ge_cases (Zpos n) d) as [H | H]; [assumption |].
        assert (2 ^ d <= 2 ^ Zpos n) by (apply Z.pow_le_mono_r; lia).
        rewrite Z.div_small in Hpos; lia. }
      rewrite (Zdigits2_unique (m / 2 ^ Zpos n) (d - Zpos n)); try assumption.
      * replace (d - Zpos n + (e + Zpos n)) with (d + e) by lia. lia.
      * split.
        -- apply Z.div_le_lower_bound; [lia |].
           rewrite <- Z.pow_add_r by lia.
           replace (Zpos n + (d - Zpos n - 1)) with (d - 1) by lia. exact Hlo.
        -- apply Z.div_lt_upper_bound; [lia |].
           rewrite <- Z.pow_add_r by lia.
           replace (Zpos n + (d - Zpos n)) with d by lia. exact Hhi.
Qed.

Lemma round_nearest_even_le (m : Z) (l : location) : round_nearest_even m l <= m + 1.
Proof. destruct l as [| []]; simpl; try lia. destruct (Z.even m); lia. Qed.

Lemma binary_round_aux_double (s : bool) (m e : Z) (l : location) :
  0 <= m -> e <= fexp prec emax (Zdigits2 m + e) ->
  is_double (binary_round_aux prec emax s m e l).
Proof.
  intros Hm He. unfold binary_round_aux.
  pose proof (shr_fexp_canonical m e l Hm He) as (H0 & _ & Hz & Hc).
  destruct (shr_fexp prec emax m e l) as [mrs' e'] eqn:E1. simpl in H0, Hz, Hc.
  set (m1 := round_nearest_even (shr_m mrs') (loc_of_shr_record mrs')).
  pose proof (round_nearest_even_ge (shr_m mrs') (loc_of_shr_record mrs')) as Hge.
  pose proof (round_nearest_even_le (shr_m mrs') (loc_of_shr_record mrs')) as Hle.
  fold m1 in Hge, Hle.
  assert (He' : e' <= fexp prec emax (Zdigits2 m1 + e')).
  { destruct (Z.eq_dec (shr_m mrs') 0) as [Hm0 | Hm0].
    - rewrite (Hz Hm0). apply fexp_emin.
    - rewrite <- (Hc ltac:(lia)) at 1. apply fexp_mono.
      pose proof (Zdigits2_mono (shr_m mrs') m1 ltac:(lia)). lia. }
  pose proof (shr_fexp_canonical m1 e' loc_Exact ltac:(lia) He') as (H0' & _ & _ & Hc').
  destruct (shr_fexp prec emax m1 e' loc_Exact) as [mrs'' e''] eqn:E2.
  simpl in H0', Hc'.
  destruct (shr_m mrs'') as [| q | q] eqn:Eq; try lia; try reflexivity.
  destruct (e'' <=? emax - prec) eqn:Ee; [| reflexivity].
  unfold is_double, valid_binary, bounded, canonical_mantissa.
  rewrite Ee, andb_true_r. apply Z.eqb_eq. apply Hc'. lia.
Qed.

Lemma binary_round_double (s : bool) (m : positive) (e : Z) :
  is_double (binary_round prec emax s m e).
Proof.
  unfold binary_round.
  destruct (shl_align m e (fexp prec emax (Zpos (digits2_pos m) + e))) as [mz ez] eqn:E.
  apply binary_round_aux_double; [lia |].
  unfold shl_align in E.
  pose proof (digits2_pos_bounds m) as [Hlo Hhi].
  set (d := Zpos (digits2_pos m)) in *.
  destruct (fexp prec emax (d + e) - e) as [| k | k] eqn:Hk; inversion E; subst; clear E.
  - simpl. fold d. lia.
  - simpl. fold d. lia.
  - rewrite (Zdigits2_unique _ (d + Zpos k)).
    + replace (d + Zpos k + fexp prec emax (d + e)) with (d + e) by lia. lia.
    + lia.
    + rewrite Pos_iter_xO.
      assert (0 < 2 ^ Zpos k) by (apply Z.pow_pos_nonneg; lia).
      replace (d + Zpos k - 1) with ((d - 1) + Zpos k) by lia.
      rewrite !Z.pow_add_r by (unfold d; lia). nia.
Qed.

Lemma number_of_Z_double (z : Z) : is_double (number_of_Z z).
Proof.
  unfold number_of_Z, binary_normalize.
  destruct z; [reflexivity | apply binary_round_double ..].
Qed.


Lemma Zdigits2_pow2 (k : Z) : 0 <= k -> Zdigits2 (2 ^ k) = k + 1.
Proof.
  intros Hk. apply Zdigits2_unique.
  - apply Z.pow_pos_nonneg; lia.
  - replace (k + 1 - 1) with k by lia. split; [lia |].
    apply Z.pow_lt_mono_r; lia.
Qed.

Lemma SFdiv_core_binary_fine (m1 m2 : positive) (e1 e2 : Z) :
  let '(q, e', _) := SFdiv_core_binary prec emax (Zpos m1) e1 (Zpos m2) e2 in
  0 <= q /\ e' <= fexp prec emax (Zdigits2 q + e').
Proof.
  unfold SFdiv_core_binary.
  pose proof (Zdigits2_bounds (Zpos m1) ltac:(lia)) as [Hlo1 _].
  pose proof (Zdigits2_bounds (Zpos m2) ltac:(lia)) as [_ Hhi2].
  pose proof (Zdigits2_nonneg (Zpos m1)) as Hd1.
  pose proof (Zdigits2_nonneg (Zpos m2)) as Hd2.
  set (d1 := Zdigits2 (Zpos m1)) in *. set (d2 := Zdigits2 (Zpos m2)) in *.
  assert (Hd1' : 1 <= d1) by (unfold d1; simpl; lia).
  set (D := d1 + e1 - (d2 + e2)).
  set (e' := Z.min (fexp prec emax D) (e1 - e2)).
  set (s := e1 - e2 - e').
  assert (Hs : 0 <= s) by (unfold s, e'; lia).
  set (m' := match s with Zpos _ => Z.shiftl (Zpos m1) s | 0 => Zpos m1 | Zneg _ => 0 end).
  assert (Hm' : m' = Zpos m1 * 2 ^ s).
  { unfold m'. destruct s eqn:Es; try lia.
    rewrite Z.shiftl_mul_pow2 by lia. reflexivity. }
  pose proof (Z_div_mod m' (Zpos m2) ltac:(lia)) as Hdm.
  destruct (Z.div_eucl m' (Zpos m2)) as [q r] eqn:Eqr.
  destruct Hdm as [Hq Hr].
  assert (H2s : 0 < 2 ^ s) by (apply Z.pow_pos_nonneg; lia).
  assert (Hq0 : 0 <= q) by nia.
  split; [assumption |].
  destruct (Z.le_gt_cases D e') as [HD | HD].
  - assert (e' <= emin prec emax).
    { unfold e', fexp, emin, prec, emax in *. lia. }
    pose proof (fexp_emin (Zdigits2 q + e')). lia.
  - set (k := D - e' - 1).
    assert (Hk : 0 <= k) by (unfold k; lia).
    assert (Hks : k + d2 = d1 - 1 + s) by (unfold k, D, s; lia).
    assert (Hpow : 2 ^ k * 2 ^ d2 <= Zpos m1 * 2 ^ s).
    { rewrite <- Z.pow_add_r, Hks, Z.pow_add_r by lia. nia. }
    assert (Hqk : 2 ^ k <= q).
    { assert (0 < 2 ^ k) by (apply Z.pow_pos_nonneg; lia).
      destruct (Z.le_gt_cases (2 ^ k) q) as [? | Hlt]; [assumption |]. exfalso.
      assert (q + 1 <= 2 ^ k) by lia.
      assert (Zpos m2 * (q + 1) <= Zpos m2 * 2 ^ k) by nia.
      nia. }
    pose proof (Zdigits2_mono (2 ^ k) q ltac:(split; [apply Z.pow_nonneg; lia | assumption])) as Hmono.
    rewrite Zdigits2_pow2 in Hmono by assumption.
    pose proof (fexp_mono D (Zdigits2 q + e') ltac:(unfold k in *; lia)).
    unfold e' at 1. lia.
Qed.

Lemma SFdiv_finite_double (sx sy : bool) (mx my : positive) (ex ey : Z) :
  is_double (SFdiv prec emax (S754_finite sx mx ex) (S754_finite sy my ey)).
Proof.
  unfold SFdiv.
  pose proof (SFdiv_core_binary_fine mx my ex ey) as H.
  destruct (SFdiv_core_binary prec emax (Zpos mx) ex (Zpos my) ey) as [[mz ez] lz].
  destruct H as [H0 He]. apply binary_round_aux_double; assumption.
Qed.

Lemma number_of_decimal_double (neg : bool) (D E : Z) :
  is_double (number_of_decimal neg D E).
Proof.
  unfold number_of_decimal.
  destruct D; try reflexivity.
  destruct E; [apply binary_round_double .. | apply SFdiv_finite_double].
Qed.

End Validity.


Section ParsedNumbers.

Variable P : number -> Prop.

Lemma all_numbers_arr (l : list jsvalue) :
  all_numbers P (JArr l) <-> Forall (all_numbers P) l.
Proof.
  simpl. induction l as [| x l IH]; [split; constructor |].
  rewrite Forall_cons, IH. reflexivity.
Qed.

Lemma all_numbers_obj (fs : list (jsstring * jsvalue)) :
  all_numbers P (JObj fs) <-> Forall (fun kv => all_numbers P (snd kv)) fs.
Proof.
  simpl. induction fs as [| x l IH]; [split; constructor |].
  rewrite Forall_cons, IH. reflexivity.
Qed.

Lemma obj_set_numbers (k : jsstring) (v : jsvalue) (fs : list (jsstring * jsvalue)) :
  all_numbers P v -> Forall (fun kv => all_numbers P (snd kv)) fs ->
  Forall (fun kv => all_numbers P (snd kv)) (obj_set k v fs).
Proof.
  intros Hv Hfs. induction Hfs as [| [k' v'] fs Hkv Hfs IH]; simpl.
  - repeat constructor. exact Hv.
  - destruct (decide (k = k')); constructor; auto.
Qed.

Lemma obj_get_numbers (k : jsstring) (fs : list (jsstring * jsvalue)) (v : jsvalue) :
  Forall (fun kv => all_numbers P (snd kv)) fs -> obj_get k fs = Some v -> all_numbers P v.
Proof.
  intros Hfs. induction Hfs as [| [k' v'] fs Hkv Hfs IH]; simpl; [discriminate |].
  destruct (decide (k = k')); [intros [= <-]; exact Hkv | exact IH].
Qed.

Lemma prop_numbers (r : jsvalue) (k : jsstring) (v : jsvalue) :
  all_numbers P r -> prop r k = Some v -> all_numbers P v.
Proof.
  destruct r; simpl; try discriminate.
  intros H. apply obj_get_numbers. apply all_numbers_obj. exact H.
Qed.

Hypothesis P_decimal : forall neg D E, P (number_of_decimal neg D E).

Lemma number_literal_P (s : jsstring) (n : number) (r : jsstring) :
  JSON.number_literal s = Some (n, r) -> P n.
Proof.
  unfold JSON.number_literal. intros H.
  repeat case_match; simplify_eq; apply P_decimal.
Qed.

#[local] Opaque JSON.number_literal JSON.string_body JSON.skip_ws startsWith.

Lemma value_numbers (fuel : nat) :
  (forall s v r, JSON.value fuel s = Some (v, r) -> all_numbers P v) /\
  (forall acc s v r, Forall (all_numbers P) acc ->
     JSON.elements fuel acc s = Some (v, r) -> all_numbers P v) /\
  (forall acc s v r, Forall (fun kv => all_numbers P (snd kv)) acc ->
     JSON.members fuel acc s = Some (v, r) -> all_numbers P v).
Proof.
  induction fuel as [| f (IHv & IHe & IHm)]; [repeat split; intros; discriminate |].
  repeat split.
  - intros s v r H. simpl in H.
    repeat case_match; simplify_eq; try exact I.
    + eapply IHm; [constructor | eassumption].
    + eapply IHe; [constructor | eassumption].
    + simpl. eapply number_literal_P. eassumption.
  - intros acc s v r Hacc H. simpl in H.
    repeat case_match; simplify_eq.
    + eapply IHe; [| eassumption]. constructor; [eapply IHv; eassumption | assumption].
    + apply all_numbers_arr. apply Forall_app. split.
      * apply Forall_rev. assumption.
      * repeat constructor. eapply IHv. eassumption.
  - intros acc s v r Hacc H. simpl in H.
    repeat case_match; simplify_eq.
    + eapply IHm; [| eassumption]. apply obj_set_numbers; [eapply IHv; eassumption | assumption].
    + apply all_numbers_obj. apply obj_set_numbers; [eapply IHv; eassumption | assumption].
Qed.

#[local] Transparent JSON.number_literal JSON.string_body JSON.skip_ws startsWith.

Lemma JSON_parse_numbers (text : jsstring) (v : jsvalue) :
  JSON.parse text = Some v -> all_numbers P v.
Proof.
  unfold JSON.parse. intros H. repeat case_match; simplify_eq.
  eapply (proj1 (value_numbers _)). eassumption.
Qed.

Lemma parseLLMJson_numbers (raw : jsstring) (parsed : jsvalue) :
  parseLLMJson raw = Ok parsed -> all_numbers P parsed.
Proof.
  unfold parseLLMJson, parse_direct. intros H.
  repeat case_match; simplify_eq; eapply JSON_parse_numbers; eassumption.
Qed.

End ParsedNumbers.

(** * The control flow of [llmRecommend] *)

Section LlmRecommend.

Variable llm : jsstring -> Res jsstring.
Variable now : jsstring.
Variable params : Params.t.
Variable w : World.

#[local] Abbreviation user := (Params.user params).
#[local] Abbreviation unseen := (unseenOf w user (Params.candidates params)).
#[local] Abbreviation prompt := (promptOf w params).

Lemma llmRecommend_invalid_k :
  (Params.k params < 1)%Z ->
  llmRecommend llm now params w = (Throw KMustBeAtLeastOne, w).
Proof.
  intros Hk. unfold llmRecommend.
  apply Z.ltb_lt in Hk. rewrite Hk. reflexivity.
Qed.

Lemma llmRecommend_short_circuit :
  (1 <= Params.k params)%Z ->
  tasteSignalsOf w user = [] \/ unseen = [] ->
  llmRecommend llm now params w = (Ok [], afterCommit user [] w).
Proof.
  intros Hk Hempty. unfold llmRecommend.
  apply Z.ltb_ge in Hk. rewrite Hk.
  unfold mbind, Action_bind, getTasteSignals.
  fold (tasteSignalsOf w user).
  destruct (tasteSignalsOf w user) as [| t ts] eqn:Ets; [reflexivity |].
  destruct Hempty as [? | Hu]; [discriminate |].
  unfold unseenOf, ratedOf in Hu. rewrite Ets in Hu. rewrite Hu. reflexivity.
Qed.

Lemma llmRecommend_reaches :
  (1 <= Params.k params)%Z ->
  reachesLLM w params ->
  llmRecommend llm now params w =
    match llm prompt with
    | Throw e => (Throw e, afterCall prompt w)
    | Ok raw =>
        match parseLLMJson raw with
        | Throw e => (Throw e, afterCall prompt w)
        | Ok parsed =>
            match validateLLMRecommendations parsed unseen with
            | Throw e => (Throw e, afterCall prompt w)
            | Ok _ =>
                let top := rank (default [] (recommendations_of parsed)) unseen
                             (Params.k params) in
                (Ok (result_of Ranked.museum Ranked.rationale top),
                 afterCommit user (rowsOf now params prompt top) (afterCall prompt w))
            end
        end
    end.
Proof.
  intros Hk [Hts Hu]. unfold llmRecommend.
  apply Z.ltb_ge in Hk. rewrite Hk.
  unfold mbind, Action_bind, getTasteSignals.
  unfold promptOf, unseenOf, ratedOf in *.
  fold (tasteSignalsOf w user).
  destruct (tasteSignalsOf w user) as [| t ts] eqn:Ets; [congruence |].
  destruct (filter _ (Params.candidates params)) as [| m ms] eqn:Eu; [congruence |].
  unfold callLLM, lift.
  destruct (llm _) as [raw | e]; [| reflexivity].
  destruct (parseLLMJson raw) as [parsed | e]; [| reflexivity].
  destruct (validateLLMRecommendations parsed (m :: ms)) as [[] | e]; reflexivity.
Qed.

End LlmRecommend.

(** * Failure atomicity and the cold start *)

Lemma store_afterCall (prompt : jsstring) (w : World) : store (afterCall prompt w) = store w.
Proof. reflexivity. Qed.

(** C3. Whenever [llmRecommend] ends with an error (invalid [k], a failure
    of the LLM, a parse failure or a validation failure), the store is the
    one before the call: the Recommendations map is unchanged for every
    user (and so is the TasteSignals map). *)
Theorem llmRecommend_failure_keeps_store
  (llm : jsstring -> Res jsstring) (now : jsstring) (params : Params.t)
  (w w' : World) (e : Error) :
  llmRecommend llm now params w = (Throw e, w') ->
  store w' = store w /\
  forall u, Recommendations (store w') !! u = Recommendations (store w) !! u.
Proof.
  intros H.
  assert (Hs : store w' = store w); [| split; [exact Hs | intros u; rewrite Hs; reflexivity]].
  destruct (Z.lt_ge_cases (Params.k params) 1) as [Hk | Hk].
  - rewrite llmRecommend_invalid_k in H by assumption. congruence.
  - destruct (decide (tasteSignalsOf w (Params.user params) = [])) as [Hts | Hts].
    { rewrite llmRecommend_short_circuit in H by auto. discriminate. }
    destruct (decide (unseenOf w (Params.user params) (Params.candidates params) = []))
      as [Hu | Hu].
    { rewrite llmRecommend_short_circuit in H by auto. discriminate. }
    rewrite llmRecommend_reaches in H by (try split; assumption).
    repeat case_match; simplify_eq; reflexivity.
Qed.

Lemma llmRecommend_failure_keeps_store_witness :
  llmRecommend llm_outage (str "t2") (sample_params 3) world_recommended
  = (Throw (LLMFailure (str "Simulated LLM service outage")),
     afterCall (promptOf world_recommended (sample_params 3)) world_recommended)
  /\ recommendationsOf world_recommended alice <> []
  /\ store (afterCall (promptOf world_recommended (sample_params 3)) world_recommended)
     = store world_recommended.
Proof.
  assert (H : llmRecommend llm_outage (str "t2") (sample_params 3) world_recommended
              = (Throw (LLMFailure (str "Simulated LLM service outage")),
                 afterCall (promptOf world_recommended (sample_params 3)) world_recommended))
    by (vm_compute; reflexivity).
  split; [exact H |]. split; [vm_compute; discriminate |].
  exact (proj1 (llmRecommend_failure_keeps_store _ _ _ _ _ _ H)).
Defined.

(** C5. Cold start: for a user with no TasteSignals, every [k >= 1] and
    every candidate list, [llmRecommend] returns the empty sequence, sends
    nothing to the LLM and stores the empty recommendation set for the user;
    it is a success.  The same holds when no candidate is left after the
    rated museums are removed. *)
Theorem llmRecommend_cold_start
  (llm : jsstring -> Res jsstring) (now : jsstring) (params : Params.t) (w : World) :
  (1 <= Params.k params)%Z ->
  tasteSignalsOf w (Params.user params) = [] \/
  unseenOf w (Params.user params) (Params.candidates params) = [] ->
  exists w' : World,
    llmRecommend llm now params w = (Ok [], w') /\
    llmCalls w' = llmCalls w /\
    Recommendations (store w') !! Params.user params = Some [] /\
    (forall u, u <> Params.user params ->
       Recommendations (store w') !! u = Recommendations (store w) !! u) /\
    TasteSignals (store w') = TasteSignals (store w).
Proof.
  intros Hk Hempty. exists (afterCommit (Params.user params) [] w).
  split; [apply llmRecommend_short_circuit; assumption |].
  split; [reflexivity |]. simpl.
  split; [apply lookup_insert_eq |].
  split; [| reflexivity].
  intros u Hu. apply lookup_insert_ne. congruence.
Qed.

Lemma llmRecommend_cold_start_witness :
  (1 <= Params.k (sample_params 3))%Z /\
  tasteSignalsOf initialWorld alice = [] /\
  exists w' : World,
    llmRecommend llm_whitney (str "t0") (sample_params 3) initialWorld = (Ok [], w') /\
    llmCalls w' = llmCalls initialWorld /\
    Recommendations (store w') !! alice = Some [].
Proof.
  assert (Hk : (1 <= Params.k (sample_params 3))%Z) by (simpl; lia).
  assert (Hts : tasteSignalsOf initialWorld alice = []) by reflexivity.
  split; [exact Hk |]. split; [exact Hts |].
  destruct (llmRecommend_cold_start llm_whitney (str "t0") (sample_params 3) initialWorld
              Hk (or_introl Hts)) as (w' & H1 & H2 & H3 & _).
  exists w'. auto.
Defined.

(** * What the operations store *)

Lemma insert_sorted_perm {A : Type} (cmp : A -> A -> number) (x : A) (l : list A) :
  insert_sorted cmp x l ≡ₚ x :: l.
Proof.
  induction l as [| y l IH]; [reflexivity |]. simpl.
  destruct (num_gt (cmp x y) num_0); [| reflexivity].
  rewrite IH. apply Permutation_swap.
Qed.

Lemma Array_sort_perm {A : Type} (cmp : A -> A -> number) (l : list A) :
  Array_sort cmp l ≡ₚ l.
Proof.
  unfold Array_sort. induction l as [| x l IH]; [reflexivity |]. simpl.
  rewrite insert_sorted_perm, IH. reflexivity.
Qed.

Lemma clamp01_cases (n : number) :
  clamp01 n = num_half \/ clamp01 n = num_0 \/ clamp01 n = num_1 \/
  (clamp01 n = n /\ Number.isNaN n = false).
Proof.
  unfold clamp01. destruct (Number.isNaN n) eqn:En; [auto |].
  unfold Math.min. simpl Number.isNaN. rewrite En. simpl orb.
  assert (Hmin : (if num_lt n num_1 then n else num_1) = n \/
                 (if num_lt n num_1 then n else num_1) = num_1)
    by (destruct (num_lt n num_1); auto).
  change (match num_1 with
          | S754_zero false => match n with S754_zero true => n | _ => if num_lt n num_1 then n else num_1 end
          | _ => if num_lt n num_1 then n else num_1
          end) with (if num_lt n num_1 then n else num_1).
  set (m := if num_lt n num_1 then n else num_1) in *.
  assert (Em : Number.isNaN m = false) by (destruct Hmin as [-> | ->]; [assumption | reflexivity]).
  unfold Math.max. simpl Number.isNaN. rewrite Em. simpl orb.
  change (match num_0 with
          | S754_zero true => match m with S754_zero false => m | _ => if num_gt m num_0 then m else num_0 end
          | _ => if num_gt m num_0 then m else num_0
          end) with (if num_gt m num_0 then m else num_0).
  destruct (num_gt m num_0); [| auto].
  destruct Hmin as [-> | ->]; auto.
Qed.

Lemma clamp01_ok (n : number) :
  is_double n -> is_double (clamp01 n) /\ Number.isNaN (clamp01 n) = false.
Proof.
  intros Hn.
  destruct (clamp01_cases n) as [E | [E | [E | [E Hnan]]]]; rewrite E;
    split; try reflexivity; assumption.
Qed.

Lemma score_or_default_double (r : jsvalue) :
  all_numbers is_double r -> is_double (score_or_default r).
Proof.
  intros Hr. unfold score_or_default.
  destruct (prop r (str "score")) as [v |] eqn:E; [| reflexivity].
  pose proof (prop_numbers is_double _ _ _ Hr E) as Hv.
  destruct v as [| [] | n | | |]; try reflexivity. exact Hv.
Qed.

Lemma ranked_entry_score_ok (r : jsvalue) (t : Ranked.t) :
  all_numbers is_double r -> ranked_entry r = Some t ->
  is_double (Ranked.score t) /\ Number.isNaN (Ranked.score t) = false.
Proof.
  intros Hr. unfold ranked_entry. intros H.
  repeat case_match; simplify_eq. simpl.
  apply clamp01_ok, score_or_default_double, Hr.
Qed.

Lemma recommendations_of_numbers (parsed : jsvalue) (recs : list jsvalue) :
  all_numbers is_double parsed -> recommendations_of parsed = Some recs ->
  Forall (all_numbers is_double) recs.
Proof.
  unfold recommendations_of. intros Hp H.
  destruct (prop parsed (str "recommendations")) as [v |] eqn:E; [| discriminate].
  destruct v; try discriminate. injection H as <-.
  apply all_numbers_arr. eapply prop_numbers; eassumption.
Qed.

(** The entries of [top] come from entries of the model output and are
    for unseen museums. *)
Lemma elem_of_rank (recs : list jsvalue) (unseen : list Museum) (k : Z) (t : Ranked.t) :
  t ∈ rank recs unseen k ->
  Ranked.museum t ∈ unseen /\ exists r, r ∈ recs /\ ranked_entry r = Some t.
Proof.
  unfold rank, slice0. intros H.
  apply elem_of_take in H as (i & H & _). apply list_elem_of_lookup_2 in H.
  rewrite Array_sort_perm in H.
  apply list_elem_of_filter in H as [Hu H].
  apply list_elem_of_omap in H. auto.
Qed.

Lemma length_rank (recs : list jsvalue) (unseen : list Museum) (k : Z) :
  (Z.of_nat (length (rank recs unseen k)) <= Z.max 0 k)%Z.
Proof. unfold rank, slice0. rewrite length_take. lia. Qed.

(** The store after [llmRecommend]: untouched, or with the rows of the user
    replaced by rows for unseen museums with sound scores. *)
Lemma llmRecommend_store
  (llm : jsstring -> Res jsstring) (now : jsstring) (params : Params.t) (w : World) :
  let w' := snd (llmRecommend llm now params w) in
  store w' = store w \/
  exists rows : list RecommendationRow.t,
    store w' = store (afterCommit (Params.user params) rows w) /\
    Forall (fun row =>
              RecommendationRow.museum row
                ∈ unseenOf w (Params.user params) (Params.candidates params) /\
              is_double (RecommendationRow.score row) /\
              Number.isNaN (RecommendationRow.score row) = false) rows.
Proof.
  simpl.
  destruct (Z.lt_ge_cases (Params.k params) 1) as [Hk | Hk].
  { rewrite llmRecommend_invalid_k by assumption. auto. }
  destruct (decide (tasteSignalsOf w (Params.user params) = [])) as [Hts | Hts].
  { rewrite llmRecommend_short_circuit by auto. right. exists []. split; [reflexivity | constructor]. }
  destruct (decide (unseenOf w (Params.user params) (Params.candidates params) = []))
    as [Hu | Hu].
  { rewrite llmRecommend_short_circuit by auto. right. exists []. split; [reflexivity | constructor]. }
  rewrite llmRecommend_reaches by (try split; assumption).
  destruct (llm _) as [raw | e]; [| auto].
  destruct (parseLLMJson raw) as [parsed | e] eqn:Ep; [| auto].
  destruct (validateLLMRecommendations parsed _) as [[] | e] eqn:Ev; [| auto].
  right. eexists. split; [reflexivity |].
  unfold rowsOf. rewrite Forall_forall. intros row Hrow.
  apply list_elem_of_fmap in Hrow as (t & -> & Ht). simpl.
  apply elem_of_rank in Ht as (Hu' & r & Hr & Hrt).
  split; [exact Hu' |].
  eapply ranked_entry_score_ok; [| exact Hrt].
  pose proof (parseLLMJson_numbers is_double number_of_decimal_double _ _ Ep) as Hp.
  destruct (recommendations_of parsed) as [recs |] eqn:Er; [| simpl in Hr; inversion Hr].
  simpl in Hr. pose proof (recommendations_of_numbers _ _ Hp Er) as Hall.
  rewrite Forall_forall in Hall. auto.
Qed.

Lemma run_op_record_store (now : jsstring) (user : User) (museum : Museum) (taste : Taste)
  (w : World) :
  Recommendations (store (run_op (OpRecordMuseumTaste now user museum taste) w))
  = Recommendations (store w) /\
  forall u ts,
    ts ∈ default [] (TasteSignals (store (run_op (OpRecordMuseumTaste now user museum taste) w)) !! u) ->
    ts ∈ default [] (TasteSignals (store w) !! u) \/
    (u = user /\ TasteSignalRow.museum ts = museum).
Proof.
  split; [reflexivity |].
  intros u ts. simpl. unfold recordMuseumTaste, mbind, Action_bind, getTasteSignals,
    setTasteSignals. simpl.
  destruct (decide (u = user)) as [-> | Hne].
  - rewrite lookup_insert_eq. simpl.
    destruct (list_find _ _) as [[i x] |] eqn:Ef.
    + intros H. apply list_elem_of_lookup in H as (j & Hj).
      destruct (decide (i = j)) as [-> | Hij].
      * apply list_find_Some in Ef as (Hi & _).
        rewrite list_lookup_insert_eq in Hj by (eapply lookup_lt_Some; eassumption).
        injection Hj as <-. right. auto.
      * rewrite list_lookup_insert_ne in Hj by assumption.
        left. eapply list_elem_of_lookup_2. eassumption.
    + intros H. apply elem_of_app in H as [H | H]; [auto |].
      apply list_elem_of_singleton in H as ->. right. auto.
  - rewrite lookup_insert_ne by congruence. auto.
Qed.

Lemma run_op_clear_store (user : User) (museum : Museum) (w : World) :
  Recommendations (store (run_op (OpClearMuseumTaste user museum) w))
  = Recommendations (store w) /\
  forall u ts,
    ts ∈ default [] (TasteSignals (store (run_op (OpClearMuseumTaste user museum) w)) !! u) ->
    ts ∈ default [] (TasteSignals (store w) !! u).
Proof.
  split; [reflexivity |].
  intros u ts. simpl. unfold clearMuseumTaste, mbind, Action_bind, getTasteSignals,
    setTasteSignals. simpl.
  destruct (decide (u = user)) as [-> | Hne].
  - rewrite lookup_insert_eq. simpl. intros H. apply list_elem_of_filter in H. tauto.
  - rewrite lookup_insert_ne by congruence. auto.
Qed.

Lemma run_op_get (user : User) (k : Z) (w : World) :
  run_op (OpGetRecommendations user k) w = w.
Proof. destruct w. reflexivity. Qed.

(** * Invariants of the reachable states *)

Section Invariants.

Variable allowed : World -> Op -> Prop.

Lemma reachable_by_scores_ok (w : World) :
  reachable_by allowed w -> StoredScoresOk (store w).
Proof.
  induction 1 as [| w op Hw IH Hop].
  - intros u row H. simpl in H. rewrite lookup_empty in H. inversion H.
  - destruct op as [now user museum taste | user museum | llm now params | user k].
    + intros u row. rewrite (proj1 (run_op_record_store _ _ _ _ _)). apply IH.
    + intros u row. rewrite (proj1 (run_op_clear_store _ _ _)). apply IH.
    + unfold run_op.
      destruct (llmRecommend_store llm now params w) as [Hs | (rows & Hs & Hrows)];
        simpl in Hs; rewrite Hs; [exact IH |].
      intros u row. simpl.
      destruct (decide (u = Params.user params)) as [-> | Hne].
      * rewrite lookup_insert_eq. simpl. intros Hrow.
        rewrite Forall_forall in Hrows. apply Hrows in Hrow. tauto.
      * rewrite lookup_insert_ne by congruence. apply IH.
    + rewrite run_op_get. exact IH.
Qed.

End Invariants.

Lemma elem_of_unseenOf (w : World) (user : User) (candidates : list Museum) (m : Museum) :
  m ∈ unseenOf w user candidates ->
  forall ts, ts ∈ tasteSignalsOf w user -> TasteSignalRow.museum ts <> m.
Proof.
  unfold unseenOf, ratedOf. intros H ts Hts E.
  apply list_elem_of_filter in H as [Hn _]. apply Hn.
  apply elem_of_list_to_set. subst m.
  apply (list_elem_of_fmap_2 TasteSignalRow.museum). exact Hts.
Qed.

(** The invariant survives every operation but the rating of a museum that
    is currently recommended to the user. *)
Lemma run_op_keeps_invariant (w : World) (op : Op) :
  ratesOnlyUnrecommended w op ->
  NoRatedRecommended (store w) -> NoRatedRecommended (store (run_op op w)).
Proof.
  intros Hop Hinv.
  destruct op as [now user museum taste | user museum | llm now params | user k].
  - intros u row ts. rewrite (proj1 (run_op_record_store _ _ _ _ _)).
    intros Hrow Hts.
    apply (proj2 (run_op_record_store _ _ _ _ _)) in Hts as [Hts | [-> Hm]].
    + apply Hinv with u; assumption.
    + simpl in Hop. rewrite Hm. intros E. apply Hop.
      unfold recommendationsOf. rewrite <- E.
      apply (list_elem_of_fmap_2 RecommendationRow.museum). exact Hrow.
  - intros u row ts. rewrite (proj1 (run_op_clear_store _ _ _)).
    intros Hrow Hts. apply (proj2 (run_op_clear_store _ _ _)) in Hts.
    apply Hinv with u; assumption.
  - unfold run_op.
    destruct (llmRecommend_store llm now params w) as [Hs | (rows & Hs & Hrows)];
      simpl in Hs; rewrite Hs; [exact Hinv |].
    intros u row ts. simpl.
    destruct (decide (u = Params.user params)) as [-> | Hne].
    + rewrite lookup_insert_eq. simpl. intros Hrow Hts.
      rewrite Forall_forall in Hrows. apply Hrows in Hrow as [Hu _].
      intros E. eapply elem_of_unseenOf; [exact Hu | exact Hts | auto].
    + rewrite lookup_insert_ne by congruence. apply Hinv.
  - rewrite run_op_get. exact Hinv.
Qed.

(** C1, as the code has it.  In every state reached by sequences of
    [clearMuseumTaste], [llmRecommend], [getRecommendations] and those
    [recordMuseumTaste] calls that rate a museum which is not among the
    stored recommendations of the user, no stored RecommendationRow of a
    user has a museum that is among the TasteSignal museums of that user. *)
Theorem no_rated_museum_recommended (w : World) :
  reachable_by ratesOnlyUnrecommended w -> NoRatedRecommended (store w).
Proof.
  induction 1 as [| w op Hw IH Hop].
  - intros u row ts H. simpl in H. rewrite lookup_empty in H. inversion H.
  - apply run_op_keeps_invariant; assumption.
Qed.

Lemma world_recommended_reachable : reachable_by ratesOnlyUnrecommended world_recommended.
Proof.
  unfold world_recommended, world_rated.
  apply reachable_step; [apply reachable_step; [apply reachable_initial |] |].
  - simpl. unfold recommendationsOf. simpl. rewrite lookup_empty. simpl. apply not_elem_of_nil.
  - exact I.
Qed.

Lemma no_rated_museum_recommended_witness :
  reachable_by ratesOnlyUnrecommended world_recommended /\
  recommendationsOf world_recommended alice <> [] /\
  NoRatedRecommended (store world_recommended).
Proof.
  split; [exact world_recommended_reachable |].
  split; [vm_compute; discriminate |].
  exact (no_rated_museum_recommended _ world_recommended_reachable).
Defined.

(** C1 as stated fails: rating a museum that is currently recommended
    leaves the recommendation in the store. *)
Lemma rated_museum_stays_recommended :
  reachable world_rated_recommended /\
  ~ NoRatedRecommended (store world_rated_recommended).
Proof.
  split.
  - unfold world_rated_recommended, world_recommended, world_rated.
    repeat (apply reachable_step; [| exact I]). apply reachable_initial.
  - intros Hinv.
    assert (Hrow : exists row, recommendationsOf world_rated_recommended alice = [row] /\
                               RecommendationRow.museum row = str "whitney")
      by (eexists; split; vm_compute; reflexivity).
    assert (Hts : exists t0 ts, tasteSignalsOf world_rated_recommended alice = [t0; ts] /\
                              TasteSignalRow.museum ts = str "whitney")
      by (do 2 eexists; split; vm_compute; reflexivity).
    destruct Hrow as (row & Hrow & Hm), Hts as (t0 & ts & Hts & Hm').
    apply (Hinv alice row ts).
    + fold (recommendationsOf world_rated_recommended alice). rewrite Hrow. apply list_elem_of_here.
    + fold (tasteSignalsOf world_rated_recommended alice). rewrite Hts.
      apply list_elem_of_further, list_elem_of_here.
    + congruence.
Qed.

(** * Reading the cached recommendations *)

Lemma StronglySorted_head_max {A : Type} (R : A -> A -> Prop) (x : A) (l : list A) :
  StronglySorted R (x :: l) -> forall y, y ∈ l -> R x y.
Proof.
  intros H y Hy. apply StronglySorted_inv in H as [_ H].
  rewrite Forall_forall in H. auto.
Qed.

(** C10. For every user and every integer [k], when the scores of the
    stored rows are numbers other than NaN, [getRecommendations] returns
    the first [max(1, k)] rows of the stored rows sorted by score,
    descending and stably (all of them if fewer are stored), in whatever
    order they are stored; for [k <= 0] and a non-empty stored set it
    returns exactly one row, a highest-scoring one; it sends nothing to the
    LLM and leaves the state as it is. *)
Theorem getRecommendations_top (w : World) (user : User) (k : Z) :
  RowScoresOk (recommendationsOf w user) ->
  let rows := recommendationsOf w user in
  exists sorted : list RecommendationRow.t,
    sorted ≡ₚ rows /\
    StronglySorted (desc RecommendationRow.score) sorted /\
    (forall v, Number.isNaN v = false ->
       filter (same_score RecommendationRow.score v) sorted
       = filter (same_score RecommendationRow.score v) rows) /\
    getRecommendations user k w
    = (Ok (result_of RecommendationRow.museum RecommendationRow.rationale
             (take (Z.to_nat (Z.max 1 k)) sorted)), w) /\
    length (take (Z.to_nat (Z.max 1 k)) sorted)
    = Nat.min (Z.to_nat (Z.max 1 k)) (length rows) /\
    ((k <= 0)%Z -> rows <> [] ->
     exists best : RecommendationRow.t,
       take (Z.to_nat (Z.max 1 k)) sorted = [best] /\
       best ∈ rows /\
       forall r, r ∈ rows ->
         num_le (RecommendationRow.score r) (RecommendationRow.score best) = true).
Proof.
  intros Hok rows. fold rows in Hok.
  assert (Hdbl : Forall (fun r => is_double (RecommendationRow.score r)) rows)
    by (eapply Forall_impl; [exact Hok | intros r Hr; apply Hr]).
  assert (Hnan : Forall (not_NaN RecommendationRow.score) rows)
    by (eapply Forall_impl; [exact Hok | intros r Hr; apply Hr]).
  exists (sort_desc RecommendationRow.score rows).
  split; [apply sort_desc_perm |].
  split; [apply sort_desc_sorted; exact Hnan |].
  split; [intros v Hv; apply sort_desc_stable; exact Hv |].
  split.
  { unfold getRecommendations, mbind, Action_bind, getRecommendationRows, mret, Action_ret,
      slice0.
    fold (recommendationsOf w user). fold rows.
    rewrite Array_sort_desc by exact Hdbl. reflexivity. }
  split.
  { rewrite length_take. f_equal. apply Permutation_length, sort_desc_perm. }
  intros Hk Hrows.
  replace (Z.to_nat (Z.max 1 k)) with 1%nat by lia.
  pose proof (sort_desc_perm RecommendationRow.score rows) as Hperm.
  pose proof (sort_desc_sorted RecommendationRow.score rows Hnan) as Hsorted.
  destruct (sort_desc RecommendationRow.score rows) as [| best rest] eqn:Es.
  { apply Permutation_nil_l in Hperm. congruence. }
  exists best. split; [reflexivity |].
  assert (Hbest : best ∈ rows) by (rewrite <- Hperm; apply list_elem_of_here).
  split; [exact Hbest |].
  intros r Hr. rewrite <- Hperm in Hr.
  apply elem_of_cons in Hr as [-> | Hr].
  - eapply Forall_forall in Hok; [| exact Hbest].
    rewrite num_le_not_lt, num_lt_irrefl; [reflexivity | |]; apply Hok.
  - apply (StronglySorted_head_max _ _ _ Hsorted r Hr).
Qed.

(** A store seeded with the scores 0.5, 0.9, 0.7, 0.9 in this order: the
    three best rows come out by score, the two rows of score 0.9 in the
    order in which they are stored; for [k = 0] the first of them alone. *)
Lemma getRecommendations_top_witness :
  RowScoresOk (recommendationsOf world_seeded alice) /\
  map RecommendationRow.museum (recommendationsOf world_seeded alice)
  = [str "frick"; str "whitney"; str "moma"; str "guggenheim"] /\
  exists sorted : list RecommendationRow.t,
    sorted ≡ₚ recommendationsOf world_seeded alice /\
    StronglySorted (desc RecommendationRow.score) sorted /\
    getRecommendations alice 3 world_seeded
    = (Ok (result_of RecommendationRow.museum RecommendationRow.rationale (take 3 sorted)),
       world_seeded) /\
    map fst (result_of RecommendationRow.museum RecommendationRow.rationale (take 3 sorted))
    = [str "whitney"; str "guggenheim"; str "moma"] /\
    map fst (result_of RecommendationRow.museum RecommendationRow.rationale (take 1 sorted))
    = [str "whitney"].
Proof.
  assert (Hok : RowScoresOk (recommendationsOf world_seeded alice)).
  { repeat constructor; vm_compute; reflexivity. }
  split; [exact Hok |]. split; [vm_compute; reflexivity |].
  destruct (getRecommendations_top world_seeded alice 3 Hok)
    as (sorted & Hperm & Hsorted & _ & Hget & _).
  exists sorted. split; [exact Hperm |]. split; [exact Hsorted |].
  split; [exact Hget |].
  assert (Hrun : getRecommendations alice 3 world_seeded
                 = (Ok [(str "whitney", str "(NN% match) seeded");
                        (str "guggenheim", str "(NN% match) seeded");
                        (str "moma", str "(NN% match) seeded")], world_seeded))
    by (vm_compute; reflexivity).
  rewrite Hrun in Hget. injection Hget as Hres.
  change (Z.to_nat (Z.max 1 3)) with 3%nat in Hres.
  split; [rewrite <- Hres; reflexivity |].
  assert (H1 : result_of RecommendationRow.museum RecommendationRow.rationale (take 1 sorted)
               = take 1 (result_of RecommendationRow.museum RecommendationRow.rationale
                           (take 3 sorted))).
  { change (take 1 sorted) with (take (Nat.min 1 3) sorted). rewrite <- take_take.
    exact (fmap_take _ 1 (take 3 sorted)). }
  rewrite H1, <- Hres. reflexivity.
Defined.

(** * The LLM wrapper *)

Module GeminiLLMFacts.

Import GeminiLLM.

Section Wrapper.

Variable digest : jsstring -> jsstring.
Variable env : Env.

(** The loop returns: the attempt counter bounds the iterations that are
    left, whatever the environment does. *)
Lemma retryLoop_terminates (fuel : nat) :
  forall (key prompt modelName : jsstring) (attempt delay : Z) (st : State),
    (1 <= fuel)%nat -> (2 + MAX_RETRIES <= attempt + Z.of_nat fuel)%Z ->
    retryLoop env fuel key prompt modelName attempt delay st <> None.
Proof.
  induction fuel as [| fuel IH]; intros key prompt modelName attempt delay st H1 Hf; [lia |].
  simpl. destruct (generateContent env _ modelName prompt) as [text | err]; [discriminate |].
  destruct ((attempt + 1 >? 1 + MAX_RETRIES)%Z || negb (isTransient err)) eqn:E;
    [discriminate |].
  apply orb_false_iff in E as [E _]. unfold MAX_RETRIES in *.
  apply IH; lia.
Qed.

(** [executeLLM] returns or throws within [2 + MAX_RETRIES] iterations. *)
Lemma executeLLM_terminates (fuel : nat) (prompt modelName : jsstring) (st : State) :
  (Z.to_nat (2 + MAX_RETRIES) <= fuel)%nat ->
  executeLLM digest env fuel prompt modelName st <> None.
Proof.
  intros Hf. unfold executeLLM.
  destruct (getMemo env _ st) as [[[| c cached] |] st1]; try discriminate;
    apply retryLoop_terminates; unfold MAX_RETRIES in *; lia.
Qed.

(** A run of transient failures: from [attempt], the loop calls the model
    until the counter passes [1 + MAX_RETRIES], sleeping in between. *)
Lemma retryLoop_always_transient (n : nat) :
  forall (fuel : nat) (key prompt modelName : jsstring) (attempt delay : Z) (st : State),
    (forall i, exists err,
        generateContent env i modelName prompt = Failure err /\ isTransient err = true) ->
    (attempt + Z.of_nat n = 1 + MAX_RETRIES)%Z ->
    (n < fuel)%nat ->
    exists (err : Thrown) (st' : State),
      retryLoop env fuel key prompt modelName attempt delay st
      = Some (Throw (LLMFailure (label err ++ str ": " ++ message err)), st') /\
      isTransient err = true /\
      calls st' = calls st ++ replicate (S n) (modelName, prompt) /\
      sleeps st' = sleeps st ++ backoff n delay /\
      memo st' = memo st.
Proof.
  induction n as [| n IH]; intros fuel key prompt modelName attempt delay st Hall Ha Hf;
    (destruct fuel as [| fuel]; [lia |]); simpl retryLoop;
    destruct (Hall (length (calls st))) as (err & -> & Ht); rewrite Ht; simpl negb;
    rewrite orb_false_r.
  - assert (E : (attempt + 1 >? 1 + MAX_RETRIES)%Z = true)
      by (rewrite Z.gtb_ltb; apply Z.ltb_lt; lia).
    rewrite E.
    exists err. eexists. split; [reflexivity |]. simpl.
    rewrite app_nil_r. auto.
  - assert (E : (attempt + 1 >? 1 + MAX_RETRIES)%Z = false)
      by (rewrite Z.gtb_ltb; apply Z.ltb_ge; lia).
    rewrite E.
    edestruct (IH fuel key prompt modelName (attempt + 1)%Z (Z.min (delay * 2) 4000))
      as (err' & st' & Hrun & Ht' & Hc & Hs & Hm); [exact Hall | lia | lia |].
    exists err', st'. split; [exact Hrun |]. split; [exact Ht' |].
    simpl in Hc, Hs, Hm. rewrite Hc, Hs, Hm.
    rewrite <- !app_assoc. auto.
Qed.


(** C6 on the code.  When every external call fails with a transient
    classification and the memo has no entry for the request, [executeLLM]
    returns after [2 + MAX_RETRIES = 4] attempts, having slept 500, 1000 and
    2000 ms between them, and throws an error labelled with the transient
    class.  It does not loop for ever; but it makes one attempt more than
    [1 + MAX_RETRIES]. *)
Theorem executeLLM_always_transient
  (fuel : nat) (prompt modelName : jsstring) (st : State) :
  (forall i, exists err,
      generateContent env i modelName prompt = Failure err /\ isTransient err = true) ->
  memo st !! promptKey digest modelName prompt = None ->
  (Z.to_nat (2 + MAX_RETRIES) <= fuel)%nat ->
  exists (err : Thrown) (st' : State),
    executeLLM digest env fuel prompt modelName st
    = Some (Throw (LLMFailure (label err ++ str ": " ++ message err)), st') /\
    label err =
      (if isTimeout err then str "LLM_TIMEOUT"
       else str "LLM_TRANSIENT_" ++
            match codeOf err with [] => str "UNKNOWN" | _ :: _ => codeOf err end) /\
    calls st' = calls st ++ replicate 4 (modelName, prompt) /\
    sleeps st' = sleeps st ++ [500; 1000; 2000]%Z.
Proof.
  intros Hall Hmiss Hf. unfold executeLLM, getMemo. rewrite Hmiss.
  destruct (retryLoop_always_transient 3 fuel (promptKey digest modelName prompt)
              prompt modelName 0 BACKOFF_MS st Hall)
    as (err & st' & Hrun & Ht & Hc & Hs & _);
    [reflexivity | unfold MAX_RETRIES in Hf; lia |].
  exists err, st'. split; [exact Hrun |].
  split; [unfold label; rewrite Ht; reflexivity |].
  split; [exact Hc | exact Hs].
Qed.

(** A request found in the memo within its time to live, with a text that
    is not empty, is answered from the memo: no external call is made. *)
Lemma executeLLM_memo_hit
  (fuel : nat) (prompt modelName : jsstring) (st : State) (hit : MemoEntry) :
  memo st !! promptKey digest modelName prompt = Some hit ->
  (dateNow env (clockReads st) - at_ hit <= MEMO_TTL_MS)%Z ->
  text_ hit <> [] ->
  exists st' : State,
    executeLLM digest env fuel prompt modelName st = Some (Ok (text_ hit), st') /\
    calls st' = calls st /\ sleeps st' = sleeps st /\ memo st' = memo st.
Proof.
  intros Hhit Httl Htext. unfold executeLLM, getMemo. rewrite Hhit. simpl.
  assert (E : (dateNow env (clockReads st) - at_ hit >? MEMO_TTL_MS)%Z = false)
    by (rewrite Z.gtb_ltb; apply Z.ltb_ge; lia).
  rewrite E. destruct (text_ hit) as [| c t] eqn:Et; [congruence |].
  eexists. split; [reflexivity |]. auto.
Qed.

(** A successful external call stores its text in the memo. *)
Lemma executeLLM_memoizes
  (fuel : nat) (prompt modelName text : jsstring) (st : State) :
  memo st !! promptKey digest modelName prompt = None ->
  generateContent env (length (calls st)) modelName prompt = Response text ->
  (1 <= fuel)%nat ->
  exists st' : State,
    executeLLM digest env fuel prompt modelName st = Some (Ok text, st') /\
    calls st' = calls st ++ [(modelName, prompt)] /\
    memo st' !! promptKey digest modelName prompt
    = Some {| at_ := dateNow env (clockReads st); text_ := text |} /\
    clockReads st' = S (clockReads st).
Proof.
  intros Hmiss Hresp Hf. unfold executeLLM, getMemo. rewrite Hmiss.
  destruct fuel as [| fuel]; [lia |]. simpl. rewrite Hresp.
  eexists. split; [reflexivity |]. simpl.
  split; [reflexivity |]. split; [apply lookup_insert_eq | reflexivity].
Qed.

End Wrapper.

Lemma executeLLM_always_transient_witness :
  (forall i, exists err,
      generateContent env_always_503 i defaultModel (str "prompt") = Failure err /\
      isTransient err = true) /\
  exists st' : State,
    executeLLM sample_digest env_always_503 4 (str "prompt") defaultModel initialState
    = Some (Throw (LLMFailure (str "LLM_TRANSIENT_503: Service Unavailable")), st') /\
    length (calls st') = 4%nat /\
    sleeps st' = [500; 1000; 2000]%Z.
Proof.
  assert (Hall : forall i : nat, exists err,
             generateContent env_always_503 i defaultModel (str "prompt") = Failure err /\
             isTransient err = true)
    by (intros i; eexists; split; reflexivity).
  split; [exact Hall |].
  destruct (executeLLM_always_transient sample_digest env_always_503 4 (str "prompt")
              defaultModel initialState Hall (lookup_empty _) (Nat.le_refl _))
    as (err & st' & Hrun & _ & Hc & Hs).
  exists st'.
  assert (Hrun' : executeLLM sample_digest env_always_503 4 (str "prompt") defaultModel
                    initialState
                  = Some (Throw (LLMFailure (str "LLM_TRANSIENT_503: Service Unavailable")),
                          st')).
  { rewrite Hrun. revert Hrun. vm_compute. intros [= <- <-]. reflexivity. }
  split; [exact Hrun' |]. rewrite Hc, Hs. split; reflexivity.
Defined.

(** C7 on the code, at an empty answer.  The first call stores the empty
    text in the memo; the second call, for the same model and prompt and
    within the time to live, finds the entry but takes the empty text for a
    miss and calls the model again. *)
Theorem executeLLM_empty_text_not_reused
  (digest : jsstring -> jsstring) (prompt modelName : jsstring) :
  exists (st1 st2 : State) (hit : MemoEntry),
    executeLLM digest env_empty_text 4 prompt modelName initialState = Some (Ok [], st1) /\
    calls st1 = [(modelName, prompt)] /\
    memo st1 !! promptKey digest modelName prompt = Some hit /\
    text_ hit = [] /\
    (dateNow env_empty_text (clockReads st1) - at_ hit <= MEMO_TTL_MS)%Z /\
    executeLLM digest env_empty_text 4 prompt modelName st1 = Some (Ok [], st2) /\
    calls st2 = [(modelName, prompt); (modelName, prompt)].
Proof.
  destruct (executeLLM_memoizes digest env_empty_text 4 prompt modelName [] initialState)
    as (st1 & Hrun1 & Hc1 & Hm1 & Hr1); [apply lookup_empty | reflexivity | lia |].
  exists st1. eexists. eexists.
  split; [exact Hrun1 |]. split; [exact Hc1 |]. split; [exact Hm1 |].
  split; [reflexivity |]. rewrite Hr1.
  split; [simpl; unfold MEMO_TTL_MS; lia |].
  unfold executeLLM, getMemo. rewrite Hm1. simpl. rewrite Hr1. simpl.
  rewrite Hc1. simpl. split; reflexivity.
Qed.

End GeminiLLMFacts.

(** * The tolerant parser *)

Lemma from_first_spec (c : N) (s t : jsstring) :
  from_first c s = Some t <-> exists pre, s = pre ++ t /\ (c ∉ pre) /\ head t = Some c.
Proof.
  split.
  - revert t. induction s as [| d s IH]; intros t H; simpl in H; [discriminate |].
    destruct (N.eqb_spec d c) as [-> | Hne].
    + injection H as <-. exists []. split; [reflexivity |].
      split; [apply not_elem_of_nil | reflexivity].
    + destruct (IH t H) as (pre & -> & Hpre & Ht).
      exists (d :: pre). split; [reflexivity |].
      split; [| exact Ht]. rewrite not_elem_of_cons. split; [congruence | exact Hpre].
  - intros (pre & -> & Hpre & Ht).
    induction pre as [| d pre IH]; simpl.
    + destruct t as [| d t]; [discriminate |]. injection Ht as ->.
      simpl. rewrite N.eqb_refl. reflexivity.
    + apply not_elem_of_cons in Hpre as [Hd Hpre].
      destruct (N.eqb_spec d c); [congruence |]. apply IH. exact Hpre.
Qed.

Lemma head_rev {A : Type} (l : list A) : head (rev l) = last l.
Proof.
  induction l as [| x l IH] using rev_ind; [reflexivity |].
  rewrite rev_app_distr, last_snoc. reflexivity.
Qed.

Lemma last_rev {A : Type} (l : list A) : last (rev l) = head l.
Proof. rewrite <- head_rev, rev_involutive. reflexivity. Qed.

Lemma head_app_nonempty {A : Type} (l l' : list A) : l <> [] -> head (l ++ l') = head l.
Proof. destruct l; [congruence | reflexivity]. Qed.

Lemma not_elem_of_rev {A : Type} (x : A) (l : list A) : x ∉ l -> x ∉ rev l.
Proof. intros H Hin. apply H. apply list_elem_of_In, in_rev, list_elem_of_In. exact Hin. Qed.

(** The regular expression [/{[\s\S]*}/] matches the brace block. *)
Lemma match_brace_block_spec (raw block : jsstring) :
  match_brace_block raw = Some block <-> BraceBlock raw block.
Proof.
  unfold match_brace_block, BraceBlock. split.
  - destruct (from_first 123 raw) as [t |] eqn:Et; [| discriminate].
    destruct (from_first 125 (rev t)) as [u |] eqn:Eu; [| discriminate].
    intros [= <-].
    apply from_first_spec in Et as (pre & -> & Hpre & Ht).
    apply from_first_spec in Eu as (pre' & Hrev & Hpre' & Hu).
    assert (Et : t = rev u ++ rev pre').
    { rewrite <- (rev_involutive t), Hrev, rev_app_distr. reflexivity. }
    assert (Hne : rev u <> []).
    { destruct u; [discriminate |]. simpl. intros E. apply app_eq_nil in E as [_ E]. discriminate. }
    exists pre, (rev pre'). split; [rewrite Et; reflexivity |].
    split; [exact Hpre |]. split; [apply not_elem_of_rev; exact Hpre' |].
    split; [| rewrite last_rev; exact Hu].
    rewrite <- (head_app_nonempty _ (rev pre') Hne), <- Et. exact Ht.
  - intros (pre & post & -> & Hpre & Hpost & Hh & Hl).
    assert (Hne : block <> []) by (destruct block; [discriminate | congruence]).
    assert (E1 : from_first 123 (pre ++ block ++ post) = Some (block ++ post)).
    { apply from_first_spec. exists pre. split; [reflexivity |].
      split; [exact Hpre |]. rewrite head_app_nonempty by exact Hne. exact Hh. }
    rewrite E1.
    assert (E2 : from_first 125 (rev (block ++ post)) = Some (rev block)).
    { apply from_first_spec. exists (rev post). split; [apply rev_app_distr |].
      split; [apply not_elem_of_rev; exact Hpost |]. rewrite head_rev. exact Hl. }
    rewrite E2, rev_involutive. reflexivity.
Qed.

Lemma parse_direct_spec (raw : jsstring) :
  (parse_direct raw = None <->
   forall o, JSON.parse raw = Some o -> has_recommendations o = false) /\
  (forall obj, parse_direct raw = Some obj <->
     JSON.parse raw = Some obj /\ has_recommendations obj = true).
Proof.
  unfold parse_direct. destruct (JSON.parse raw) as [o |].
  - destruct (has_recommendations o) eqn:E; split.
    + split; [discriminate |]. intros H. rewrite (H o eq_refl) in E. discriminate.
    + intros obj. split; [intros [= <-]; auto | intros [[= <-] _]; reflexivity].
    + split; [intros _ o' [= <-]; exact E | reflexivity].
    + intros obj. split; [discriminate | intros [[= <-] H]; congruence].
  - split.
    + split; [intros _ o; discriminate | reflexivity].
    + intros obj. split; [discriminate | intros [? _]; discriminate].
Qed.

(** C8, as the code has it.  [parseLLMJson] first parses the text directly;
    if that gives no object with a [recommendations] array it parses the
    part of the text from the first opening brace to the last closing brace.
    It returns the object recovered by the first route that succeeds, and
    throws exactly when neither route recovers an object with a
    [recommendations] array. *)
Theorem parseLLMJson_recovers (raw : jsstring) :
  (forall obj, parseLLMJson raw = Ok obj <-> Recoverable raw obj) /\
  ((exists e, parseLLMJson raw = Throw e) <-> ~ exists obj, Recoverable raw obj).
Proof.
  assert (H1 : forall obj, parseLLMJson raw = Ok obj <-> Recoverable raw obj).
  { intros obj. unfold parseLLMJson, Recoverable.
    destruct (parse_direct raw) as [o |] eqn:Ed.
    - pose proof (proj1 (proj2 (parse_direct_spec raw) o) Ed) as [Hp Hr]. split.
      + intros [= <-]. left. auto.
      + intros [[Hp' _] | [Hno _]].
        * congruence.
        * rewrite (Hno o Hp) in Hr. discriminate.
    - pose proof (proj1 (proj1 (parse_direct_spec raw)) Ed) as Hno. split.
      + intros H. right. split; [exact Hno |].
        destruct (match_brace_block raw) as [block |] eqn:Eb; [| discriminate].
        destruct (JSON.parse block) as [o |] eqn:Ep; [| discriminate].
        destruct (has_recommendations o) eqn:Er; [| discriminate].
        injection H as <-. exists block.
        split; [apply match_brace_block_spec; exact Eb | auto].
      + intros [[Hp Hr] | [_ (block & Hb & Hp & Hr)]].
        * rewrite (Hno obj Hp) in Hr. discriminate.
        * apply match_brace_block_spec in Hb. rewrite Hb, Hp, Hr. reflexivity. }
  split; [exact H1 |]. split.
  - intros [e He] [obj Hobj]. apply H1 in Hobj. congruence.
  - intros Hno. destruct (parseLLMJson raw) as [obj | e] eqn:E; [| eauto].
    exfalso. apply Hno. exists obj. apply H1. reflexivity.
Qed.

(** An object in prose that has no opening brace before it and no closing
    brace after it is recovered. *)
Lemma parseLLMJson_in_prose (pre block post : jsstring) (obj : jsvalue) :
  (123%N ∉ pre) -> (125%N ∉ post) ->
  head block = Some 123%N -> last block = Some 125%N ->
  JSON.parse block = Some obj -> has_recommendations obj = true ->
  exists obj', parseLLMJson (pre ++ block ++ post) = Ok obj' /\
               (parse_direct (pre ++ block ++ post) = None -> obj' = obj).
Proof.
  intros Hpre Hpost Hh Hl Hp Hr.
  assert (Hb : match_brace_block (pre ++ block ++ post) = Some block).
  { apply match_brace_block_spec. exists pre, post. auto. }
  unfold parseLLMJson.
  destruct (parse_direct (pre ++ block ++ post)) as [o |]; [exists o; split; [reflexivity | discriminate] |].
  rewrite Hb, Hp, Hr. exists obj. auto.
Qed.

Example parseLLMJson_raw_in_prose :
  parseLLMJson raw_in_prose = Ok (JObj [(str "recommendations", JArr [])]).
Proof. vm_compute. reflexivity. Qed.

(** C8 as stated fails: the second route is not the first balanced
    substring.  Braces in the prose after the object make the code throw
    where the first balanced substring is the object. *)
Lemma parseLLMJson_not_first_balanced :
  parseLLMJson raw_with_braces_in_prose = Throw JsonSyntaxError /\
  first_balanced_block raw_with_braces_in_prose = Some (qq "{`recommendations`:[]}") /\
  parseLLMJson_spec raw_with_braces_in_prose = Ok (JObj [(str "recommendations", JArr [])]).
Proof. repeat split; vm_compute; reflexivity. Qed.

(** * What a successful validation establishes *)

Lemma for_of_Ok {A : Type} (body : A -> Res unit) (l : list A) :
  for_of body l = Ok tt <-> Forall (fun r => body r = Ok tt) l.
Proof.
  induction l as [| r l IH]; simpl.
  - split; [constructor | reflexivity].
  - unfold mbind, Res_bind. rewrite Forall_cons.
    destruct (body r) as [[] | e].
    + rewrite IH. tauto.
    + split; [discriminate | intros [? _]; discriminate].
Qed.

Lemma no_duplicates_loop_unseen (unseenSet seen : gset (list N)) (recs : list jsvalue) :
  no_duplicates_loop unseenSet seen recs = Ok tt ->
  Forall (fun r => exists m, prop r (str "museumId") = Some (JStr m) /\ m ∈ unseenSet) recs.
Proof.
  revert seen. induction recs as [| r recs IH]; intros seen H; [constructor |].
  simpl in H. unfold mbind, Res_bind, read in H.
  destruct r; try discriminate;
    (destruct (prop _ (str "museumId")) as [[| | | m | |] |] eqn:Em; try discriminate;
     destruct (bool_decide (m ∈ unseenSet)) eqn:Eu; try discriminate;
     destruct (bool_decide (m ∈ seen)); try discriminate;
     apply bool_decide_eq_true in Eu;
     constructor; [exists m; split; [exact Em | exact Eu] | eapply IH; exact H]).
Qed.

Lemma check_shape_Ok (r : jsvalue) :
  check_shape r = Ok tt ->
  r <> JNull /\
  exists m s t,
    prop r (str "museumId") = Some (JStr m) /\
    prop r (str "score") = Some (JNum s) /\
    prop r (str "rationale") = Some (JStr t).
Proof.
  unfold check_shape, mbind, Res_bind, read. intros H.
  split; [intros ->; discriminate |].
  destruct r; simpl in H; try discriminate.
  simpl. repeat case_match; simplify_eq.
  do 3 eexists. repeat split; eassumption.
Qed.

Lemma check_score_and_percent_Ok (r : jsvalue) (s : number) (t : jsstring) :
  prop r (str "score") = Some (JNum s) ->
  prop r (str "rationale") = Some (JStr t) ->
  check_score_and_percent r = Ok tt ->
  Number.isFinite s = true /\ num_lt s num_0 = false /\ num_gt s num_1 = false /\
  exists ds rest : jsstring,
    match_percent_prefix t = Some (ds, rest) /\
    num_lt (number_of_Z (parseInt ds)) num_0 = false /\
    num_gt (number_of_Z (parseInt ds)) num_100 = false /\
    num_gt (percent_delta (parseInt ds) s) num_10 = false.
Proof.
  intros Es Et. unfold check_score_and_percent, mbind, Res_bind, read.
  destruct r; try discriminate; rewrite Es, Et;
    (destruct (negb (Number.isFinite s) || num_lt s num_0 || num_gt s num_1) eqn:E1;
     [discriminate |];
     apply orb_false_iff in E1 as [E1 E13]; apply orb_false_iff in E1 as [E11 E12];
     apply negb_false_iff in E11;
     destruct (match_percent_prefix t) as [[ds rest] |]; [| discriminate];
     destruct (num_lt (number_of_Z (parseInt ds)) num_0
               || num_gt (number_of_Z (parseInt ds)) num_100) eqn:E2; [discriminate |];
     apply orb_false_iff in E2 as [E21 E22];
     fold (percent_delta (parseInt ds) s);
     destruct (num_gt (percent_delta (parseInt ds) s) num_10) eqn:E3; [discriminate |];
     intros _; repeat split; try assumption; exists ds, rest; auto).
Qed.

Lemma check_rationale_rules_Ok (r : jsvalue) (t : jsstring) :
  prop r (str "rationale") = Some (JStr t) ->
  check_rationale_rules r = Ok tt ->
  strip_percent_prefix t <> [] /\
  has_banned_word (strip_percent_prefix t) = false /\
  (count_sentences (strip_percent_prefix t) <= 3)%nat.
Proof.
  intros Et. unfold check_rationale_rules, mbind, Res_bind, read.
  destruct r; try discriminate; rewrite Et;
    (destruct (strip_percent_prefix t) as [| c u] eqn:Es; [discriminate |];
     destruct (has_banned_word (c :: u)) eqn:Eb; [discriminate |];
     destruct (3 <? count_sentences (c :: u))%nat eqn:Ec; [discriminate |];
     intros _; split; [discriminate |]; split; [reflexivity |];
     apply Nat.ltb_ge in Ec; exact Ec).
Qed.

Lemma truthy_of_prop (r : jsvalue) (k : jsstring) (v : jsvalue) :
  prop r k = Some v -> truthy r = true.
Proof. destruct r; simpl; try discriminate. reflexivity. Qed.

(** A validated answer: the array is not empty and each of its entries is
    valid. *)
Lemma validateLLMRecommendations_Ok (parsed : jsvalue) (unseen : list Museum) :
  validateLLMRecommendations parsed unseen = Ok tt ->
  exists recs : list jsvalue,
    recommendations_of parsed = Some recs /\ recs <> [] /\
    Forall (fun r => exists m s t, ValidEntry unseen r m s t) recs.
Proof.
  unfold validateLLMRecommendations. intros H.
  destruct (negb (truthy parsed)); [discriminate |].
  destruct (recommendations_of parsed) as [recs |]; [| discriminate].
  destruct recs as [| r0 recs0] eqn:Erecs; [discriminate |]. rewrite <- Erecs in *.
  exists recs. split; [reflexivity |]. split; [congruence |].
  unfold mbind, Res_bind in H.
  destruct (for_of check_shape recs) as [[] |] eqn:H1; [| discriminate].
  destruct (validateNoDuplicatesAndOnlyUnseen recs unseen) as [[] |] eqn:H2; [| discriminate].
  destruct (validateScoreAndPercentAgreement recs) as [[] |] eqn:H3; [| discriminate].
  apply for_of_Ok in H1, H3, H. apply no_duplicates_loop_unseen in H2.
  rewrite Forall_forall in H1, H2, H3, H |- *. intros r Hr.
  destruct (check_shape_Ok r (H1 r Hr)) as (_ & m & s & t & Em & Es & Et).
  destruct (H2 r Hr) as (m' & Em' & Hu). rewrite Em in Em'. injection Em' as <-.
  apply elem_of_list_to_set in Hu.
  destruct (check_score_and_percent_Ok r s t Es Et (H3 r Hr)) as (F1 & F2 & F3 & F4).
  destruct (check_rationale_rules_Ok r t Et (H r Hr)) as (G1 & G2 & G3).
  exists m, s, t. constructor; try assumption.
  eapply truthy_of_prop; exact Em.
Qed.

Lemma ranked_entry_valid (unseen : list Museum) (r : jsvalue) (m : Museum) (s : number)
  (t : jsstring) :
  ValidEntry unseen r m s t -> ranked_entry r = Some (ranked_of m s t).
Proof.
  intros [Em Es Et Htr _ _ _ _ _ _ _ _].
  unfold ranked_entry, isValidRec, ranked_of, rationale_or_empty, score_or_default.
  rewrite Htr, Em, Et, Es. reflexivity.
Qed.

Lemma omap_ranked_entry_valid (unseen : list Museum) (recs : list jsvalue) :
  Forall (fun r => exists m s t, ValidEntry unseen r m s t) recs ->
  Forall2 (RankedFrom unseen) recs (omap ranked_entry recs).
Proof.
  induction 1 as [| r recs (m & s & t & Hv) Hrecs IH]; [constructor |].
  cbn [omap list_omap]. rewrite (ranked_entry_valid _ _ _ _ _ Hv).
  constructor; [exists m, s, t; auto | exact IH].
Qed.

(** * Strings: tokens, prefixes and trimming *)

Lemma startsWith_spec (p s : jsstring) :
  startsWith p s = true <-> exists post, s = p ++ post.
Proof.
  revert s. induction p as [| a p IH]; intros s; simpl.
  - split; [exists s; reflexivity | reflexivity].
  - destruct s as [| b s].
    + split; [discriminate | intros [post H]; discriminate].
    + rewrite andb_true_iff, N.eqb_eq, IH. split.
      * intros [-> [post ->]]. exists post. reflexivity.
      * intros [post [= -> ->]]. split; [reflexivity | exists post; reflexivity].
Qed.

Lemma banned_word_here_spec (s : jsstring) :
  banned_word_here s = true <->
  exists w post, w ∈ banned_words /\ s = w ++ post /\
                 (forall c, head post = Some c -> isWordChar c = false).
Proof.
  unfold banned_word_here. rewrite existsb_exists. split.
  - intros (w & Hw & H). apply andb_true_iff in H as [H1 H2].
    apply startsWith_spec in H1 as [post ->]. rewrite drop_app_length in H2.
    exists w, post. split; [apply list_elem_of_In; exact Hw |]. split; [reflexivity |].
    intros c Hc. destruct post as [| d post]; [discriminate |]. injection Hc as ->.
    apply negb_true_iff. exact H2.
  - intros (w & post & Hw & -> & Hpost). exists w.
    split; [apply list_elem_of_In; exact Hw |].
    apply andb_true_iff. split; [apply startsWith_spec; eauto |].
    rewrite drop_app_length. destruct post as [| d post]; [reflexivity |].
    apply negb_true_iff. apply Hpost. reflexivity.
Qed.

Lemma banned_words_nonempty (w : jsstring) : w ∈ banned_words -> w <> [].
Proof.
  unfold banned_words. rewrite !elem_of_cons, elem_of_nil.
  intros [-> | [-> | [-> | []]]]; discriminate.
Qed.

Lemma banned_word_from_spec (s : jsstring) :
  forall after_word : bool,
    banned_word_from after_word s = true <->
    exists w pre post,
      w ∈ banned_words /\ s = pre ++ w ++ post /\
      (pre = [] -> after_word = false) /\
      (forall c, last pre = Some c -> isWordChar c = false) /\
      (forall c, head post = Some c -> isWordChar c = false).
Proof.
  induction s as [| c r IH]; intros b; simpl.
  - split; [discriminate |].
    intros (w & pre & post & Hw & H & _). apply banned_words_nonempty in Hw.
    destruct pre; [destruct w; [congruence | discriminate] | discriminate].
  - rewrite orb_true_iff, andb_true_iff, negb_true_iff, banned_word_here_spec, IH. split.
    + intros [[Hb (w & post & Hw & -> & Hpost)] | (w & pre & post & Hw & -> & H1 & H2 & H3)].
      * exists w, [], post. repeat split; auto. discriminate.
      * exists w, (c :: pre), post. repeat split; auto; [discriminate |].
        intros d Hd. destruct pre as [| e pre]; [injection Hd as <-; auto |].
        apply H2. exact Hd.
    + intros (w & pre & post & Hw & H & H1 & H2 & H3).
      destruct pre as [| d pre].
      * left. split; [auto |]. exists w, post. auto.
      * right. injection H as -> ->. exists w, pre, post. repeat split; auto.
        -- intros ->. apply H2. reflexivity.
        -- intros e He. apply H2. destruct pre; [discriminate | exact He].
Qed.

(** The regular expression [/\b(LOVE|LIKE|MEH)\b/] finds exactly the
    standalone tokens. *)
Lemma has_banned_word_spec (s : jsstring) :
  has_banned_word s = true <-> exists w, w ∈ banned_words /\ standalone_token w s.
Proof.
  unfold has_banned_word, standalone_token. rewrite banned_word_from_spec. split.
  - intros (w & pre & post & Hw & H & _ & H2 & H3). exists w. split; [exact Hw |].
    exists pre, post. auto.
  - intros (w & Hw & pre & post & H & H2 & H3). exists w, pre, post. auto.
Qed.

Lemma trimStart_spec (s : jsstring) :
  exists ws, s = ws ++ trimStart s /\
             Forall (fun c => isWhiteSpace c = true) ws /\
             (forall c, head (trimStart s) = Some c -> isWhiteSpace c = false).
Proof.
  induction s as [| c s (ws & IH1 & IH2 & IH3)]; simpl.
  - exists []. repeat split; [constructor | discriminate].
  - destruct (isWhiteSpace c) eqn:E.
    + exists (c :: ws). split; [simpl; congruence |]. split; [constructor; assumption | exact IH3].
    + exists []. repeat split; [constructor |]. intros d [= <-]. exact E.
Qed.

Lemma trimStart_id (s : jsstring) :
  (forall c, head s = Some c -> isWhiteSpace c = false) -> trimStart s = s.
Proof. destruct s as [| c s]; [reflexivity |]. simpl. intros H. rewrite (H c eq_refl). reflexivity. Qed.

Lemma trimStart_app (a b : jsstring) :
  trimStart a <> [] -> trimStart (a ++ b) = trimStart a ++ b.
Proof.
  induction a as [| c a IH]; simpl; [congruence |].
  destruct (isWhiteSpace c); [exact IH | reflexivity].
Qed.

Lemma trimEnd_app (a b : jsstring) :
  trimEnd b <> [] -> trimEnd (a ++ b) = a ++ trimEnd b.
Proof.
  unfold trimEnd. intros H. rewrite rev_app_distr, trimStart_app.
  - rewrite rev_app_distr, rev_involutive. reflexivity.
  - intros E. rewrite E in H. apply H. reflexivity.
Qed.

Lemma trim_nonempty_trimEnd (s : jsstring) : trim s <> [] -> trimEnd s <> [].
Proof.
  unfold trim. intros H.
  destruct (trimStart_spec s) as (ws & Hs & _).
  rewrite Hs at 1. rewrite trimEnd_app by exact H.
  intros E. apply app_eq_nil in E as [_ E]. contradiction.
Qed.

Lemma leading_digits_spec (n : nat) (s ds r : jsstring) :
  leading_digits n s = (ds, r) ->
  s = ds ++ r /\ Forall (fun c => isDigit c = true) ds /\ (length ds <= n)%nat.
Proof.
  revert s ds r. induction n as [| n IH]; intros s ds r H; simpl in H.
  - injection H as <- <-. repeat split; [constructor | simpl; lia].
  - destruct s as [| c s]; [injection H as <- <-; repeat split; [constructor | simpl; lia] |].
    destruct (isDigit c) eqn:E.
    + destruct (leading_digits n s) as [ds' r'] eqn:El. injection H as <- <-.
      destruct (IH s ds' r' El) as (-> & Hd & Hl).
      repeat split; [constructor; assumption | simpl; lia].
    + injection H as <- <-. repeat split; [constructor | simpl; lia].
Qed.

(** What the regular expression [/^\((\d{1,3})%\s*match\)\s+/i] matches
    is the percentage marker; what follows the match does not begin with
    white space. *)
Lemma match_percent_prefix_spec (s ds rest : jsstring) :
  match_percent_prefix s = Some (ds, rest) ->
  exists ws1 mt ws2 : jsstring,
    s = [40%N] ++ ds ++ [37%N] ++ ws1 ++ mt ++ [41%N] ++ ws2 ++ rest /\
    (1 <= length ds <= 3)%nat /\
    Forall (fun c => isDigit c = true) ds /\
    Forall (fun c => isWhiteSpace c = true) ws1 /\
    map toLowerAscii mt = str "match" /\
    ws2 <> [] /\
    Forall (fun c => isWhiteSpace c = true) ws2 /\
    (forall c, head rest = Some c -> isWhiteSpace c = false).
Proof.
  unfold match_percent_prefix. intros H.
  destruct s as [| c r]; [discriminate |].
  destruct (N.eqb_spec c 40) as [-> | ?]; [| discriminate].
  destruct (leading_digits 3 r) as [ds' r1] eqn:El.
  apply leading_digits_spec in El as (-> & Hds & Hlen).
  destruct ds' as [| d0 ds']; [discriminate |].
  destruct r1 as [| p r2]; [discriminate |].
  destruct (N.eqb_spec p 37) as [-> | ?]; [| discriminate].
  destruct (trimStart_spec r2) as (ws1 & Hr2 & Hws1 & _).
  set (r3 := trimStart r2) in *.
  destruct (startsWith (str "match") (map toLowerAscii (take 5 r3))) eqn:Em; [| discriminate].
  destruct (drop 5 r3) as [| q [| w r5]] eqn:Ed; try discriminate.
  destruct (N.eqb_spec q 41) as [-> | ?]; [| discriminate].
  destruct (isWhiteSpace w) eqn:Ew; [| discriminate].
  cbn [andb] in H. injection H as <- <-.
  change (if isWhiteSpace w then trimStart r5 else w :: r5) with (trimStart (w :: r5)).
  destruct (trimStart_spec (w :: r5)) as (ws2 & Hr4 & Hws2 & Hrest).
  exists ws1, (take 5 r3), ws2.
  assert (E : r2 = ws1 ++ take 5 r3 ++ 41%N :: ws2 ++ trimStart (w :: r5)).
  { etransitivity; [exact Hr2 |]. f_equal.
    etransitivity; [symmetry; apply (take_drop 5) |]. f_equal.
    rewrite Ed. f_equal. exact Hr4. }
  split; [cbn [app]; rewrite <- E; reflexivity |].
  split; [simpl in *; lia |]. split; [exact Hds |]. split; [exact Hws1 |].
  split.
  { apply startsWith_spec in Em as [post Hpost].
    assert (Hl : (length (map toLowerAscii (take 5 r3)) <= 5)%nat)
      by (rewrite length_map, length_take; lia).
    rewrite Hpost in Hl |- *. rewrite length_app in Hl. simpl in Hl.
    destruct post; [apply app_nil_r | simpl in Hl; lia]. }
  split.
  { intros ->. cbn [app] in Hr4. rewrite <- Hr4 in Hrest.
    specialize (Hrest w eq_refl). congruence. }
  split; [exact Hws2 | exact Hrest].
Qed.

Lemma match_percent_prefix_PercentPrefix (s ds rest : jsstring) :
  match_percent_prefix s = Some (ds, rest) -> PercentPrefix s (parseInt ds).
Proof.
  intros H. apply match_percent_prefix_spec in H
    as (ws1 & mt & ws2 & Hs & Hl & Hd & Hw1 & Hm & Hne & Hw2 & _).
  exists ds, ws1, mt, ws2, rest. auto 10.
Qed.

(** Trimming a validated rationale keeps its marker. *)
Lemma PercentPrefix_trim (t ds rest : jsstring) :
  match_percent_prefix t = Some (ds, rest) ->
  strip_percent_prefix t <> [] ->
  PercentPrefix (trim t) (parseInt ds).
Proof.
  intros Hm Hstrip. unfold strip_percent_prefix in Hstrip. rewrite Hm in Hstrip.
  apply match_percent_prefix_spec in Hm
    as (ws1 & mt & ws2 & Hs & Hl & Hd & Hw1 & Hmt & Hne & Hw2 & _).
  exists ds, ws1, mt, ws2, (trimEnd rest).
  split; [| auto 10].
  pose proof (trim_nonempty_trimEnd rest Hstrip) as Hr.
  set (P := [40%N] ++ ds ++ [37%N] ++ ws1 ++ mt ++ [41%N] ++ ws2).
  assert (Ht : t = P ++ rest).
  { rewrite Hs. unfold P. rewrite <- !app_assoc. reflexivity. }
  assert (Hgoal : [40%N] ++ ds ++ [37%N] ++ ws1 ++ mt ++ [41%N] ++ ws2 ++ trimEnd rest
                  = P ++ trimEnd rest).
  { unfold P. rewrite <- !app_assoc. reflexivity. }
  rewrite Hgoal, Ht. unfold trim.
  rewrite trimStart_id by (intros c [= <-]; reflexivity).
  apply trimEnd_app. exact Hr.
Qed.

(** * Scores and percentages *)

Section ScoreFacts.

#[local] Open Scope Z_scope.

Lemma shr_fexp_nonneg (m e : Z) (l : location) :
  0 <= m -> 0 <= shr_m (fst (shr_fexp prec emax m e l)).
Proof.
  intros Hm. unfold shr_fexp, shr.
  destruct (fexp prec emax (Zdigits2 m + e) - e) as [| n | n]; simpl;
    rewrite ?shr_record_of_loc_m; try lia.
  rewrite iter_pos_shr_1_m by (rewrite shr_record_of_loc_m; lia).
  rewrite shr_record_of_loc_m. apply Z.div_pos; [lia |].
  apply Z.pow_pos_nonneg; lia.
Qed.

Lemma binary_round_aux_not_NaN (s : bool) (m e : Z) (l : location) :
  0 <= m -> Number.isNaN (binary_round_aux prec emax s m e l) = false.
Proof.
  intros Hm. unfold binary_round_aux.
  pose proof (shr_fexp_nonneg m e l Hm) as H1.
  destruct (shr_fexp prec emax m e l) as [mrs' e']. simpl in H1.
  pose proof (round_nearest_even_ge (shr_m mrs') (loc_of_shr_record mrs')) as Hge.
  pose proof (shr_fexp_nonneg (round_nearest_even (shr_m mrs') (loc_of_shr_record mrs')) e'
                loc_Exact ltac:(lia)) as H2.
  destruct (shr_fexp prec emax _ e' loc_Exact) as [mrs'' e'']. simpl in H2.
  destruct (shr_m mrs'') as [| q | q]; try lia; [reflexivity |].
  destruct (e'' <=? emax - prec); reflexivity.
Qed.

Lemma number_of_Z_not_NaN (z : Z) : Number.isNaN (number_of_Z z) = false.
Proof.
  unfold number_of_Z, binary_normalize, binary_round.
  destruct z as [| p | p]; [reflexivity | |];
    destruct (shl_align p 0 _) as [mz ez]; apply binary_round_aux_not_NaN; lia.
Qed.

Lemma num_mul_finite_not_NaN (x y : number) :
  Number.isFinite x = true -> Number.isFinite y = true ->
  Number.isNaN (num_mul x y) = false.
Proof.
  destruct x as [| | | sx mx ex], y as [| | | sy my ey]; try discriminate; intros _ _;
    try reflexivity.
  apply binary_round_aux_not_NaN. lia.
Qed.

Lemma Math_round_not_NaN (x : number) :
  Number.isNaN x = false -> Number.isNaN (Math.round x) = false.
Proof.
  destruct x as [| | | s m e]; try discriminate; try reflexivity. intros _.
  unfold Math.round. destruct (0 <=? e); [reflexivity |].
  destruct (_ =? 0); [reflexivity | apply number_of_Z_not_NaN].
Qed.

Lemma num_sub_finite_not_NaN (x y : number) :
  Number.isFinite x = true -> Number.isNaN y = false ->
  Number.isNaN (num_sub x y) = false.
Proof.
  destruct x as [sx | | | sx mx ex], y as [sy | sy | | sy my ey]; try discriminate;
    intros _ _; try reflexivity; try (destruct sx, sy; reflexivity).
  unfold num_sub, SFsub.
  match goal with |- Number.isNaN (binary_normalize _ _ ?z ?e _) = false =>
    change (Number.isNaN (binary_normalize prec emax z e false) = false);
    generalize z; generalize e end.
  intros e z. unfold binary_normalize, binary_round.
  destruct z as [| p | p]; [reflexivity | |];
    destruct (shl_align p e _) as [mz ez]; apply binary_round_aux_not_NaN; lia.
Qed.

Lemma Math_abs_not_NaN (x : number) :
  Number.isNaN x = false -> Number.isNaN (Math.abs x) = false.
Proof. destruct x; try discriminate; reflexivity. Qed.

Lemma not_lt_finite (x y : number) :
  Number.isNaN x = false -> num_lt x y = false -> num_gt x y = false ->
  Number.isFinite y = true -> Number.isFinite x = true.
Proof.
  destruct x as [| sx | |], y as [| | |]; try discriminate; try reflexivity;
    destruct sx; discriminate.
Qed.

(** The percentage test of the validator, read as an inequality. *)
Lemma percent_delta_le (nn : Z) (s : number) :
  Number.isFinite s = true ->
  num_lt (number_of_Z nn) num_0 = false ->
  num_gt (number_of_Z nn) num_100 = false ->
  num_gt (percent_delta nn s) num_10 = false ->
  PercentAgrees nn s.
Proof.
  intros Hs H0 H100 Hd. unfold PercentAgrees.
  assert (Hnn : Number.isFinite (number_of_Z nn) = true).
  { pose proof (number_of_Z_not_NaN nn) as Hn. revert Hn H0 H100.
    unfold num_gt, num_lt. destruct (number_of_Z nn) as [| [] | |]; try discriminate; reflexivity. }
  assert (Hnan : Number.isNaN (percent_delta nn s) = false).
  { unfold percent_delta. apply Math_abs_not_NaN, num_sub_finite_not_NaN; [exact Hnn |].
    apply Math_round_not_NaN, num_mul_finite_not_NaN; [exact Hs | reflexivity]. }
  rewrite num_le_not_lt by (assumption || reflexivity).
  change (num_lt num_10 (percent_delta nn s)) with (num_gt (percent_delta nn s) num_10).
  rewrite Hd. reflexivity.
Qed.

(** On a validated score, [clamp01] changes at most the sign of a zero. *)
Lemma clamp01_validated (s : number) :
  Number.isFinite s = true -> num_lt s num_0 = false -> num_gt s num_1 = false ->
  clamp01 s = s \/ exists b, s = S754_zero b /\ clamp01 s = num_0.
Proof.
  intros Hf H0 H1. destruct s as [b | | | sg m e]; try discriminate.
  - right. exists b. split; [reflexivity |]. destruct b; reflexivity.
  - left. destruct sg; [discriminate |].
    unfold clamp01. simpl Number.isNaN. cbv iota.
    assert (Hmin : Math.min num_1 (S754_finite false m e) = S754_finite false m e).
    { unfold Math.min. simpl Number.isNaN. simpl orb. cbv iota.
      change (match num_1 with
              | S754_zero false => if num_lt (S754_finite false m e) num_1
                                   then S754_finite false m e else num_1
              | _ => if num_lt (S754_finite false m e) num_1
                     then S754_finite false m e else num_1
              end)
        with (if num_lt (S754_finite false m e) num_1 then S754_finite false m e else num_1).
      destruct (num_lt (S754_finite false m e) num_1) eqn:E; [reflexivity |].
      assert (N1 : ~ key_lt (num_key (S754_finite false m e)) (num_key num_1))
        by (intros K; apply num_lt_key in K; try reflexivity; congruence).
      assert (N2 : ~ key_lt (num_key num_1) (num_key (S754_finite false m e)))
        by (intros K; apply num_lt_key in K; try reflexivity; unfold num_gt, num_lt in *; congruence).
      unfold num_1, num_key, key_lt in N1, N2.
      assert (He : e = (-52)%Z) by lia. assert (Hm : Zpos m = 4503599627370496%Z) by lia.
      injection Hm as ->. subst e. reflexivity. }
    rewrite Hmin. reflexivity.
Qed.

Lemma percent_delta_zero (nn : Z) (b : bool) :
  percent_delta nn (S754_zero b) = percent_delta nn num_0.
Proof.
  unfold percent_delta. simpl num_mul. simpl Math.round.
  destruct (number_of_Z nn) as [[] | | |], b; reflexivity.
Qed.

Lemma PercentAgrees_clamp01 (nn : Z) (s : number) :
  Number.isFinite s = true -> num_lt s num_0 = false -> num_gt s num_1 = false ->
  PercentAgrees nn s -> PercentAgrees nn (clamp01 s).
Proof.
  intros Hf H0 H1 Ha.
  destruct (clamp01_validated s Hf H0 H1) as [-> | (b & -> & ->)]; [exact Ha |].
  unfold PercentAgrees in *. rewrite percent_delta_zero in Ha. exact Ha.
Qed.

(** [clamp01] always returns a number of the unit interval. *)
Lemma clamp01_in_unit_interval (n : number) : InUnitInterval (clamp01 n).
Proof.
  unfold InUnitInterval, clamp01.
  destruct (Number.isNaN n) eqn:En; [split; reflexivity |].
  unfold Math.min. simpl Number.isNaN. rewrite En. simpl orb. cbv iota.
  change (match num_1 with
          | S754_zero false => match n with S754_zero true => n | _ => if num_lt n num_1 then n else num_1 end
          | _ => if num_lt n num_1 then n else num_1
          end) with (if num_lt n num_1 then n else num_1).
  set (m := if num_lt n num_1 then n else num_1).
  assert (Hm : Number.isNaN m = false /\ num_lt num_1 m = false).
  { unfold m. destruct (num_lt n num_1) eqn:E.
    - split; [exact En | apply num_lt_asym; exact E].
    - split; reflexivity. }
  destruct Hm as [Em Hm1].
  unfold Math.max. simpl Number.isNaN. rewrite Em. simpl orb. cbv iota.
  change (match num_0 with
          | S754_zero true => match m with S754_zero false => m | _ => if num_gt m num_0 then m else num_0 end
          | _ => if num_gt m num_0 then m else num_0
          end) with (if num_gt m num_0 then m else num_0).
  destruct (num_gt m num_0) eqn:E0; [| split; reflexivity].
  rewrite !num_le_not_lt by (assumption || reflexivity).
  rewrite Hm1. change (num_gt m num_0) with (num_lt num_0 m) in E0.
  rewrite (num_lt_asym _ _ E0). split; reflexivity.
Qed.

Lemma parseInt_acc (ds : jsstring) (acc : Z) :
  Forall (fun c => isDigit c = true) ds ->
  fold_left (fun a c => a * 10 + Z.of_N (c - 48)) ds acc
  = acc * 10 ^ Z.of_nat (length ds)
    + fold_left (fun a c => a * 10 + Z.of_N (c - 48)) ds 0 /\
  0 <= fold_left (fun a c => a * 10 + Z.of_N (c - 48)) ds 0 < 10 ^ Z.of_nat (length ds).
Proof.
  intros H. revert acc. induction H as [| c ds Hc Hds IH]; intros acc.
  - simpl. lia.
  - cbn [fold_left length]. rewrite Nat2Z.inj_succ, Z.pow_succ_r by lia.
    destruct (IH (acc * 10 + Z.of_N (c - 48))) as [E1 _].
    destruct (IH (0 * 10 + Z.of_N (c - 48))) as [E2 B].
    rewrite E1, E2.
    unfold isDigit in Hc. apply andb_true_iff in Hc as [Hc1 Hc2].
    apply N.leb_le in Hc1, Hc2.
    assert (0 <= Z.of_N (c - 48) <= 9) by lia.
    nia.
Qed.

Lemma parseInt_bounds (ds : jsstring) :
  Forall (fun c => isDigit c = true) ds -> (length ds <= 3)%nat ->
  0 <= parseInt ds < 1000.
Proof.
  intros Hd Hl. destruct (parseInt_acc ds 0 Hd) as [_ [H0 H1]].
  unfold parseInt. split; [exact H0 |].
  assert (10 ^ Z.of_nat (length ds) <= 10 ^ 3) by (apply Z.pow_le_mono_r; lia).
  lia.
Qed.

Lemma small_percent (z : Z) :
  0 <= z < 1000 -> num_gt (number_of_Z z) num_100 = false -> z <= 100.
Proof.
  intros Hz Hgt.
  assert (Hc : small_percent_check 1000 = true) by (vm_compute; reflexivity).
  unfold small_percent_check in Hc. rewrite forallb_forall in Hc.
  specialize (Hc (Z.to_nat z)). rewrite Z2Nat.id in Hc by lia.
  rewrite Hgt, orb_false_r in Hc. apply Z.leb_le. apply Hc.
  apply in_seq. lia.
Qed.

End ScoreFacts.

(** * The successful call *)

Section Success.

Variable llm : jsstring -> Res jsstring.
Variable now : jsstring.
Variable params : Params.t.
Variable w : World.

#[local] Abbreviation user := (Params.user params).
#[local] Abbreviation unseen := (unseenOf w user (Params.candidates params)).
#[local] Abbreviation prompt := (promptOf w params).

(** A call that reaches the LLM and succeeds: the answer was parsed and
    validated, and the ranked entries were stored and returned. *)
Lemma llmRecommend_success (res : list (Museum * jsstring)) (w' : World) :
  llmRecommend llm now params w = (Ok res, w') ->
  reachesLLM w params ->
  exists (raw : jsstring) (parsed : jsvalue) (recs : list jsvalue),
    llm prompt = Ok raw /\
    parseLLMJson raw = Ok parsed /\
    validateLLMRecommendations parsed unseen = Ok tt /\
    recommendations_of parsed = Some recs /\
    Forall (fun r => exists m s t, ValidEntry unseen r m s t) recs /\
    (1 <= Params.k params)%Z /\
    res = result_of Ranked.museum Ranked.rationale (rank recs unseen (Params.k params)) /\
    w' = afterCommit user (rowsOf now params prompt (rank recs unseen (Params.k params)))
           (afterCall prompt w).
Proof.
  intros H Hreach.
  destruct (Z.lt_ge_cases (Params.k params) 1) as [Hk | Hk].
  { rewrite llmRecommend_invalid_k in H by assumption. discriminate. }
  rewrite llmRecommend_reaches in H by assumption.
  destruct (llm prompt) as [raw | e]; [| discriminate].
  destruct (parseLLMJson raw) as [parsed | e] eqn:Ep; [| discriminate].
  destruct (validateLLMRecommendations parsed unseen) as [[] | e] eqn:Ev; [| discriminate].
  destruct (validateLLMRecommendations_Ok _ _ Ev) as (recs & Er & _ & Hrecs).
  rewrite Er in H. simpl in H. injection H as <- <-.
  exists raw, parsed, recs. auto 10.
Qed.

End Success.

Lemma result_of_rowsOf (now : jsstring) (params : Params.t) (prompt : jsstring)
  (top : list Ranked.t) :
  result_of RecommendationRow.museum RecommendationRow.rationale
    (rowsOf now params prompt top)
  = result_of Ranked.museum Ranked.rationale top.
Proof.
  unfold result_of, rowsOf. rewrite map_map. reflexivity.
Qed.

Lemma ValidEntry_consistent (unseen : list Museum) (r : jsvalue) (m : Museum) (s : number)
  (t : jsstring) :
  ValidEntry unseen r m s t ->
  InUnitInterval (clamp01 s) /\
  exists nn : Z,
    PercentPrefix (trim t) nn /\ (0 <= nn <= 100)%Z /\ PercentAgrees nn (clamp01 s).
Proof.
  intros [_ _ _ _ _ Hf H0 H1 (ds & rest & Hm & Hn0 & Hn100 & Hd) Hne _ _].
  split; [apply clamp01_in_unit_interval |].
  exists (parseInt ds).
  pose proof (match_percent_prefix_spec _ _ _ Hm) as (ws1 & mt & ws2 & _ & Hl & Hds & _).
  pose proof (parseInt_bounds ds Hds ltac:(lia)) as Hb.
  split; [apply (PercentPrefix_trim t ds rest); assumption |].
  split; [split; [lia | apply small_percent; assumption] |].
  apply PercentAgrees_clamp01; try assumption.
  apply percent_delta_le; assumption.
Qed.

(** C4, as the code has it.  After a successful [llmRecommend] call that
    reaches the LLM, the returned entries are the museum and rationale of
    the stored rows, and every stored row has a score in [0,1] and a
    rationale that begins with a percentage marker: an opening parenthesis,
    one to three digits NN, a percent sign, optional white space, the word
    "match" in any letter case, a closing parenthesis and white space;
    NN lies in [0,100] and |NN - round(score * 100)| <= 10. *)
Theorem llmRecommend_rows_consistent
  (llm : jsstring -> Res jsstring) (now : jsstring) (params : Params.t)
  (w w' : World) (res : list (Museum * jsstring)) :
  llmRecommend llm now params w = (Ok res, w') ->
  reachesLLM w params ->
  exists rows : list RecommendationRow.t,
    Recommendations (store w') !! Params.user params = Some rows /\
    res = result_of RecommendationRow.museum RecommendationRow.rationale rows /\
    Forall RowConsistent rows.
Proof.
  intros H Hreach.
  destruct (llmRecommend_success _ _ _ _ _ _ H Hreach)
    as (raw & parsed & recs & _ & _ & _ & _ & Hrecs & _ & -> & ->).
  eexists. split; [apply lookup_insert_eq |].
  split; [symmetry; apply result_of_rowsOf |].
  unfold rowsOf. rewrite Forall_forall. intros row Hrow.
  apply list_elem_of_fmap in Hrow as (e & -> & He).
  apply elem_of_rank in He as (_ & r & Hr & Hre).
  rewrite Forall_forall in Hrecs. destruct (Hrecs r Hr) as (m & s & t & Hv).
  rewrite (ranked_entry_valid _ _ _ _ _ Hv) in Hre. injection Hre as <-.
  unfold RowConsistent. simpl. eapply ValidEntry_consistent. exact Hv.
Qed.

Lemma llmRecommend_rows_consistent_witness :
  reachesLLM world_rated (sample_params 3) /\
  exists rows : list RecommendationRow.t,
    recommendationsOf world_recommended alice = rows /\ rows <> [] /\
    Forall RowConsistent rows.
Proof.
  assert (Hreach : reachesLLM world_rated (sample_params 3))
    by (split; vm_compute; discriminate).
  split; [exact Hreach |].
  destruct (llmRecommend_rows_consistent llm_whitney (str "t1") (sample_params 3) world_rated
              world_recommended _ (surjective_pairing _) Hreach) as (rows & Hrows & _ & Hc).
  exists rows. unfold recommendationsOf.
  change (Params.user (sample_params 3)) with alice in Hrows.
  rewrite Hrows. split; [reflexivity |]. split; [| exact Hc].
  intros ->. vm_compute in Hrows. discriminate.
Defined.

Lemma includes_app (p a b : jsstring) : includes p (a ++ p ++ b) = true.
Proof.
  induction a as [| c a IH].
  - simpl app. destruct (p ++ b) eqn:E; simpl; rewrite <- ?E;
      apply orb_true_iff; left; apply startsWith_spec; exists b; reflexivity.
  - simpl. rewrite IH. apply orb_true_r.
Qed.

(** C4 as stated fails: the marker need not be the literal ["(NN% match) "].
    An answer whose rationale begins with ["(90%MATCH) "] is accepted and
    stored as it is. *)
Lemma capital_marker_accepted :
  llmRecommend (fun _ => Ok raw_whitney_capitals) (str "t1") (sample_params 3) world_rated
  = (Ok [(str "whitney", str "(90%MATCH) You adored its postwar sculpture focus.")],
     world_recommended_capitals) /\
  reachesLLM world_rated (sample_params 3) /\
  exists row : RecommendationRow.t,
    recommendationsOf world_recommended_capitals alice = [row] /\
    RecommendationRow.rationale row
    = str "(90%MATCH) You adored its postwar sculpture focus." /\
    ~ RowConsistentLiteral row.
Proof.
  split; [vm_compute; reflexivity |].
  split; [split; vm_compute; discriminate |].
  eexists. split; [vm_compute; reflexivity |].
  split; [reflexivity |].
  intros [_ (nn & (ds & rest & Hs & _) & _)].
  apply (f_equal (includes (str "% match) "))) in Hs.
  rewrite app_assoc, includes_app in Hs.
  vm_compute in Hs. discriminate.
Qed.

(** * Banned words *)

(** The tier words in capitals are rejected.  When some entry of the
    parsed model output has a rationale which, after the percentage prefix
    is stripped, contains LOVE, LIKE or MEH in capitals as a standalone
    token, [validateLLMRecommendations] throws, so that [llmRecommend]
    fails with that error and stores nothing. *)
Theorem llmRecommend_rejects_tier_words
  (llm : jsstring -> Res jsstring) (now : jsstring) (params : Params.t) (w : World)
  (raw : jsstring) (parsed : jsvalue) (recs : list jsvalue) (r : jsvalue)
  (t word : jsstring) :
  (1 <= Params.k params)%Z ->
  reachesLLM w params ->
  llm (promptOf w params) = Ok raw ->
  parseLLMJson raw = Ok parsed ->
  recommendations_of parsed = Some recs ->
  r ∈ recs ->
  prop r (str "rationale") = Some (JStr t) ->
  word ∈ banned_words ->
  standalone_token word (strip_percent_prefix t) ->
  exists e : Error,
    validateLLMRecommendations parsed
      (unseenOf w (Params.user params) (Params.candidates params)) = Throw e /\
    llmRecommend llm now params w = (Throw e, afterCall (promptOf w params) w) /\
    store (afterCall (promptOf w params) w) = store w.
Proof.
  intros Hk Hreach Hllm Hparse Hrecs Hr Ht Hword Htoken.
  rewrite llmRecommend_reaches by assumption. rewrite Hllm, Hparse.
  destruct (validateLLMRecommendations parsed _) as [[] | e] eqn:Ev.
  - exfalso.
    destruct (validateLLMRecommendations_Ok _ _ Ev) as (recs' & Er & _ & Hall).
    rewrite Hrecs in Er. injection Er as <-.
    rewrite Forall_forall in Hall. destruct (Hall r Hr) as (m & s & t' & Hv).
    pose proof (ve_rationale _ _ _ _ _ Hv) as Et. rewrite Ht in Et. injection Et as <-.
    pose proof (ve_no_banned_word _ _ _ _ _ Hv) as Hb.
    assert (has_banned_word (strip_percent_prefix t) = true)
      by (apply has_banned_word_spec; eauto).
    congruence.
  - exists e. auto.
Qed.

Lemma standalone_LOVE :
  standalone_token (str "LOVE")
    (strip_percent_prefix (str "(90% match) You LOVE postwar sculpture.")).
Proof.
  exists (str "You "), (str " postwar sculpture."). split; [vm_compute; reflexivity |].
  split; intros c [= <-]; reflexivity.
Qed.

Lemma llmRecommend_rejects_tier_words_witness :
  exists e : Error,
    llmRecommend (fun _ => Ok raw_whitney_LOVE) (str "t1") (sample_params 3) world_rated
    = (Throw e, afterCall (promptOf world_rated (sample_params 3)) world_rated) /\
    store (afterCall (promptOf world_rated (sample_params 3)) world_rated) = store world_rated.
Proof.
  assert (Hparse : exists parsed r,
             parseLLMJson raw_whitney_LOVE = Ok parsed /\
             recommendations_of parsed = Some [r] /\
             prop r (str "rationale")
             = Some (JStr (str "(90% match) You LOVE postwar sculpture.")))
    by (do 2 eexists; repeat split; vm_compute; reflexivity).
  destruct Hparse as (parsed & r & Hp & Hrecs & Ht).
  destruct (llmRecommend_rejects_tier_words (fun _ => Ok raw_whitney_LOVE) (str "t1")
              (sample_params 3) world_rated raw_whitney_LOVE parsed [r] r
              (str "(90% match) You LOVE postwar sculpture.") (str "LOVE"))
    as (e & _ & Hrun & Hstore).
  - simpl. lia.
  - split; vm_compute; discriminate.
  - reflexivity.
  - exact Hp.
  - exact Hrecs.
  - apply list_elem_of_here.
  - exact Ht.
  - apply list_elem_of_here.
  - exact standalone_LOVE.
  - exists e. split; [exact Hrun | exact Hstore].
Defined.

(** The test looks for capitals only: a text without capital letters is
    never flagged, whatever words it contains. *)
Lemma has_banned_word_no_capitals (s : jsstring) :
  Forall (fun c => isUpper c = false) s -> has_banned_word s = false.
Proof.
  intros Hs. destruct (has_banned_word s) eqn:E; [| reflexivity].
  apply has_banned_word_spec in E as (w & Hw & pre & post & -> & _).
  apply Forall_app in Hs as [_ Hs]. apply Forall_app in Hs as [Hs _].
  unfold banned_words in Hw.
  repeat (apply elem_of_cons in Hw as [-> | Hw]);
    [| | | apply elem_of_nil in Hw; contradiction];
    apply Forall_cons in Hs as [Hc _]; vm_compute in Hc; discriminate.
Qed.

(** C2 on the code.  The test for the tier words is written without the
    flag that makes it ignore the letter case, against the comment above it
    and unlike the two patterns for the percentage marker: the word "love"
    in lower case is a tier word in some letter case and a standalone token
    of the stripped rationale, and the answer is accepted, returned and
    stored. *)
Lemma lowercase_tier_word_accepted :
  exists (parsed r : jsvalue) (t : jsstring),
    parseLLMJson raw_whitney = Ok parsed /\
    recommendations_of parsed = Some [r] /\
    prop r (str "rationale") = Some (JStr t) /\
    tier_word_any_case (str "love") /\
    standalone_token (str "love") (strip_percent_prefix t) /\
    reachesLLM world_rated (sample_params 3) /\
    llmRecommend llm_whitney (str "t1") (sample_params 3) world_rated
    = (Ok [(str "whitney", t)], world_recommended) /\
    map RecommendationRow.rationale (recommendationsOf world_recommended alice) = [t].
Proof.
  do 3 eexists.
  split; [vm_compute; reflexivity |].
  split; [vm_compute; reflexivity |].
  split; [vm_compute; reflexivity |].
  split; [apply list_elem_of_here |].
  split.
  { exists (str "You will "), (str " its postwar sculpture focus.").
    split; [vm_compute; reflexivity |]. split; intros c [= <-]; reflexivity. }
  split; [split; vm_compute; discriminate |].
  split; vm_compute; reflexivity.
Qed.

(** * Ranking *)




(** * The taste signals *)

Section TasteSignalFacts.

Implicit Types (l : list TasteSignalRow.t) (row ts : TasteSignalRow.t).

(** What the upsert of [recordMuseumTaste] does to the list: the first row
    of the museum is overwritten in place, or the row is appended. *)
Lemma upsert_cases row l :
  let m := TasteSignalRow.museum row in
  let l' :=
    match list_find (fun ts => TasteSignalRow.museum ts = m) l with
    | Some (i, _) => <[i := row]> l
    | None => l ++ [row]
    end in
  (exists i old, l !! i = Some old /\ TasteSignalRow.museum old = m /\
     (forall j ts, l !! j = Some ts -> (j < i)%nat -> TasteSignalRow.museum ts <> m) /\
     l' = <[i := row]> l) \/
  ((m ∉ map TasteSignalRow.museum l) /\ l' = l ++ [row]).
Proof.
  intros m l'. subst l'.
  destruct (list_find _ l) as [[i old]|] eqn:E.
  - left. apply list_find_Some in E as (Hi & Hm & Hlt).
    exists i, old. repeat split; assumption.
  - right. split; [| reflexivity].
    apply list_find_None in E. intros Hin.
    apply list_elem_of_fmap in Hin as (ts & Hts & Hin).
    eapply Forall_forall in E; [| exact Hin]. apply E. symmetry. exact Hts.
Qed.

Lemma upsert_museums row l i old :
  l !! i = Some old -> TasteSignalRow.museum old = TasteSignalRow.museum row ->
  map TasteSignalRow.museum (<[i := row]> l) = map TasteSignalRow.museum l.
Proof.
  intros Hi Hm. rewrite list_fmap_insert. apply list_insert_id.
  rewrite list_lookup_fmap, Hi. simpl. f_equal. exact Hm.
Qed.

Lemma otherMuseums_insert row l i old :
  l !! i = Some old -> TasteSignalRow.museum old = TasteSignalRow.museum row ->
  otherMuseums (TasteSignalRow.museum row) (<[i := row]> l) =
  otherMuseums (TasteSignalRow.museum row) l.
Proof.
  unfold otherMuseums. revert i. induction l as [|y l IH]; intros [|i] Hi Hm; simpl in *;
    try discriminate.
  - injection Hi as ->. rewrite !filter_cons.
    destruct (decide _) as [H|H]; [congruence |].
    destruct (decide _) as [H'|H']; [congruence | reflexivity].
  - rewrite !filter_cons. rewrite (IH i Hi Hm). reflexivity.
Qed.

Lemma otherMuseums_snoc row l :
  otherMuseums (TasteSignalRow.museum row) (l ++ [row]) =
  otherMuseums (TasteSignalRow.museum row) l.
Proof.
  unfold otherMuseums. rewrite filter_app, filter_cons.
  destruct (decide _) as [H|H]; [congruence |]. rewrite filter_nil. apply app_nil_r.
Qed.

Lemma tasteSignalsOf_setTasteSignals user l w u :
  tasteSignalsOf (snd (setTasteSignals user l w)) u =
  if decide (u = user) then l else tasteSignalsOf w u.
Proof.
  unfold tasteSignalsOf, setTasteSignals. simpl.
  destruct (decide (u = user)) as [-> | Hne].
  - rewrite lookup_insert_eq. reflexivity.
  - rewrite lookup_insert_ne by congruence. reflexivity.
Qed.

Lemma recordMuseumTaste_run_row now user museum taste w :
  TasteSignalRow.mk user museum taste now
    ∈ tasteSignalsOf (snd (recordMuseumTaste now user museum taste w)) user /\
  Recommendations (store (snd (recordMuseumTaste now user museum taste w)))
    = Recommendations (store w).
Proof.
  split; [| reflexivity].
  unfold recordMuseumTaste, mbind, Action_bind, getTasteSignals.
  fold (tasteSignalsOf w user).
  set (row := TasteSignalRow.mk user museum taste now).
  set (l := tasteSignalsOf w user).
  set (l' := match list_find _ l with Some (i, _) => <[i := row]> l | None => l ++ [row] end).
  rewrite tasteSignalsOf_setTasteSignals. destruct (decide (user = user)); [| contradiction].
  destruct (upsert_cases row l) as [(i & old & Hi & Hm & _ & E) | (Hnot & E)];
    [change (l' = <[i := row]> l) in E | change (l' = l ++ [row]) in E]; rewrite E.
  - apply list_elem_of_lookup. exists i. apply list_lookup_insert_eq.
    eapply lookup_lt_Some; exact Hi.
  - apply elem_of_app. right. apply list_elem_of_singleton. reflexivity.
Qed.

(** X1. recordMuseumTaste always returns; it calls no model and leaves the
    recommendations and the other users alone; afterwards the user holds
    the new row, the rows of the other museums are the same in the same
    order, and the list has grown by one exactly when the museum was not
    rated before. *)
Theorem recordMuseumTaste_upsert now user museum taste w :
  let row := TasteSignalRow.mk user museum taste now in
  exists w',
    recordMuseumTaste now user museum taste w = (Ok tt, w') /\
    llmCalls w' = llmCalls w /\
    Recommendations (store w') = Recommendations (store w) /\
    (forall u, u <> user -> tasteSignalsOf w' u = tasteSignalsOf w u) /\
    row ∈ tasteSignalsOf w' user /\
    otherMuseums museum (tasteSignalsOf w' user) =
      otherMuseums museum (tasteSignalsOf w user) /\
    length (tasteSignalsOf w' user) =
      if decide (museum ∈ map TasteSignalRow.museum (tasteSignalsOf w user))
      then length (tasteSignalsOf w user)
      else S (length (tasteSignalsOf w user)).
Proof.
  intros row.
  unfold recordMuseumTaste, mbind, Action_bind, getTasteSignals.
  fold (tasteSignalsOf w user). fold row.
  set (l := tasteSignalsOf w user).
  set (l' := match list_find _ l with Some (i, _) => <[i := row]> l | None => l ++ [row] end).
  exists (snd (setTasteSignals user l' w)). split; [reflexivity |].
  split; [reflexivity |]. split; [reflexivity |].
  split.
  { intros u Hu. rewrite tasteSignalsOf_setTasteSignals.
    destruct (decide (u = user)); [contradiction | reflexivity]. }
  rewrite tasteSignalsOf_setTasteSignals. destruct (decide (user = user)); [| contradiction].
  destruct (upsert_cases row l) as [(i & old & Hi & Hm & _ & E) | (Hnot & E)];
    [change (l' = <[i := row]> l) in E | change (l' = l ++ [row]) in E];
    rewrite E; change (TasteSignalRow.museum row) with museum in *.
  - split; [| split].
    + apply list_elem_of_lookup. exists i. apply list_lookup_insert_eq.
      eapply lookup_lt_Some; exact Hi.
    + exact (otherMuseums_insert row l i old Hi Hm).
    + rewrite length_insert. destruct (decide _) as [_ | Hn]; [reflexivity |].
      exfalso. apply Hn. apply list_elem_of_fmap. exists old. split; [congruence |].
      eapply list_elem_of_lookup_2; exact Hi.
  - split; [| split].
    + apply elem_of_app. right. apply list_elem_of_singleton. reflexivity.
    + exact (otherMuseums_snoc row l).
    + rewrite length_app. simpl. destruct (decide _) as [Hin | _]; [contradiction | lia].
Qed.

(** X2. Recording a rating twice in a row is recording the second one: the
    first leaves no trace in the world. *)
Theorem recordMuseumTaste_overwrites now1 now2 user museum taste1 taste2 w :
  snd (recordMuseumTaste now2 user museum taste2
         (snd (recordMuseumTaste now1 user museum taste1 w))) =
  snd (recordMuseumTaste now2 user museum taste2 w).
Proof.
  unfold recordMuseumTaste, mbind, Action_bind, getTasteSignals, setTasteSignals. simpl.
  rewrite lookup_insert_eq. simpl. rewrite insert_insert_eq.
  set (l := default [] (TasteSignals (store w) !! user)).
  set (row1 := TasteSignalRow.mk user museum taste1 now1).
  set (row2 := TasteSignalRow.mk user museum taste2 now2).
  do 3 f_equal.
  destruct (upsert_cases row1 l) as [(i & old & Hi & Hm & Hlt & E) | (Hnot & E)];
    change (TasteSignalRow.museum row1) with museum in *.
  - assert (F1 : list_find (fun ts => TasteSignalRow.museum ts = museum) l = Some (i, old)).
    { apply list_find_Some. repeat split; assumption. }
    rewrite F1.
    assert (F2 : list_find (fun ts => TasteSignalRow.museum ts = museum) (<[i := row1]> l)
                 = Some (i, row1)).
    { apply list_find_Some. split; [| split; [reflexivity |]].
      - apply list_lookup_insert_eq. eapply lookup_lt_Some; exact Hi.
      - intros j y Hj Hji. rewrite list_lookup_insert_ne in Hj by lia.
        exact (Hlt j y Hj Hji). }
    rewrite F2. apply list_insert_insert_eq.
  - assert (F1 : list_find (fun ts => TasteSignalRow.museum ts = museum) l = None).
    { apply list_find_None. apply Forall_forall. intros ts Hin Hts. apply Hnot.
      apply list_elem_of_fmap. exists ts. split; [congruence | exact Hin]. }
    rewrite F1.
    assert (F2 : list_find (fun ts => TasteSignalRow.museum ts = museum) (l ++ [row1])
                 = Some (length l, row1)).
    { apply list_find_Some. split; [| split; [reflexivity |]].
      - rewrite lookup_app_r by lia. rewrite Nat.sub_diag. reflexivity.
      - intros j y Hj Hji. rewrite lookup_app_l in Hj by lia.
        intros Hy. apply Hnot. apply list_elem_of_fmap. exists y. split; [congruence |].
        eapply list_elem_of_lookup_2; exact Hj. }
    rewrite F2. rewrite insert_app_r_alt by lia. rewrite Nat.sub_diag. reflexivity.
Qed.

(** X3. clearMuseumTaste always returns; it calls no model and leaves the
    recommendations and the other users alone; afterwards the user has no
    row for the museum, and the rows of the other museums are the same in
    the same order. *)
Theorem clearMuseumTaste_removes user museum w :
  exists w',
    clearMuseumTaste user museum w = (Ok tt, w') /\
    llmCalls w' = llmCalls w /\
    Recommendations (store w') = Recommendations (store w) /\
    (forall u, u <> user -> tasteSignalsOf w' u = tasteSignalsOf w u) /\
    (museum ∉ map TasteSignalRow.museum (tasteSignalsOf w' user)) /\
    otherMuseums museum (tasteSignalsOf w' user) =
      otherMuseums museum (tasteSignalsOf w user) /\
    ((museum ∉ map TasteSignalRow.museum (tasteSignalsOf w user)) ->
     tasteSignalsOf w' user = tasteSignalsOf w user).
Proof.
  unfold clearMuseumTaste, mbind, Action_bind, getTasteSignals.
  fold (tasteSignalsOf w user). set (l := tasteSignalsOf w user).
  exists (snd (setTasteSignals user (filter (fun ts => TasteSignalRow.museum ts <> museum) l) w)).
  split; [reflexivity |].
  split; [reflexivity |]. split; [reflexivity |].
  split.
  { intros u Hu. rewrite tasteSignalsOf_setTasteSignals.
    destruct (decide (u = user)); [contradiction | reflexivity]. }
  rewrite tasteSignalsOf_setTasteSignals. destruct (decide (user = user)); [| contradiction].
  split; [| split].
  - intros Hin. apply list_elem_of_fmap in Hin as (ts & Hm & Hin).
    apply list_elem_of_filter in Hin as [Hne _]. congruence.
  - unfold otherMuseums. induction l as [| y l IH]; [reflexivity |].
    rewrite !filter_cons. destruct (decide _) as [H | H].
    + rewrite filter_cons. destruct (decide _); [| contradiction]. f_equal. exact IH.
    + exact IH.
  - intros Hnot. induction l as [| y l IH]; [reflexivity |].
    rewrite filter_cons. destruct (decide _) as [H | H].
    + f_equal. apply IH. intros Hin. apply Hnot. simpl. apply elem_of_cons. right. exact Hin.
    + exfalso. apply Hnot. simpl. apply elem_of_cons. left.
      destruct (decide (TasteSignalRow.museum y = museum)); [congruence | contradiction].
Qed.

End TasteSignalFacts.
(** * The outcomes of llmRecommend *)

Section Outcomes.

Variable llm : jsstring -> Res jsstring.
Variable now : jsstring.
Variable params : Params.t.
Variable w : World.

Let user := Params.user params.
Let k := Params.k params.
Let unseen := unseenOf w (Params.user params) (Params.candidates params).
Let prompt := promptOf w params.

Lemma reachesLLM_dec : reachesLLM w params \/
  (tasteSignalsOf w user = [] \/ unseen = []).
Proof.
  unfold reachesLLM. subst user unseen.
  destruct (tasteSignalsOf w (Params.user params)); [right; left; reflexivity |].
  destruct (unseenOf w (Params.user params) (Params.candidates params));
    [right; right; reflexivity |].
  left. split; discriminate.
Qed.

(** The four ways in which a call ends. *)
Lemma llmRecommend_outcome :
  ((k < 1)%Z /\ llmRecommend llm now params w = (Throw KMustBeAtLeastOne, w)) \/
  ((1 <= k)%Z /\ (tasteSignalsOf w user = [] \/ unseen = []) /\
   llmRecommend llm now params w = (Ok [], afterCommit user [] w)) \/
  ((1 <= k)%Z /\ reachesLLM w params /\
   exists e, llmRecommend llm now params w = (Throw e, afterCall prompt w) /\
     (llm prompt = Throw e \/
      exists raw, llm prompt = Ok raw /\
        (parseLLMJson raw = Throw e \/
         exists parsed, parseLLMJson raw = Ok parsed /\
           validateLLMRecommendations parsed unseen = Throw e))) \/
  ((1 <= k)%Z /\ reachesLLM w params /\
   exists raw parsed recs,
     llm prompt = Ok raw /\ parseLLMJson raw = Ok parsed /\
     validateLLMRecommendations parsed unseen = Ok tt /\
     recommendations_of parsed = Some recs /\
     llmRecommend llm now params w =
       (Ok (result_of Ranked.museum Ranked.rationale (rank recs unseen k)),
        afterCommit user (rowsOf now params prompt (rank recs unseen k))
          (afterCall prompt w))).
Proof.
  destruct (Z_lt_le_dec k 1) as [Hk | Hk].
  { left. split; [exact Hk |]. apply llmRecommend_invalid_k. exact Hk. }
  right. destruct reachesLLM_dec as [Hr | Hs].
  2:{ left. split; [exact Hk |]. split; [exact Hs |].
      apply llmRecommend_short_circuit; assumption. }
  right. rewrite (llmRecommend_reaches llm now params w Hk Hr).
  fold prompt unseen user k.
  destruct (llm prompt) as [raw | e] eqn:El.
  2:{ left. split; [exact Hk |]. split; [exact Hr |]. exists e. split; [reflexivity |].
      left. reflexivity. }
  destruct (parseLLMJson raw) as [parsed | e] eqn:Ep.
  2:{ left. split; [exact Hk |]. split; [exact Hr |]. exists e. split; [reflexivity |].
      right. exists raw. split; [reflexivity |]. left. exact Ep. }
  destruct (validateLLMRecommendations parsed unseen) as [[] | e] eqn:Ev.
  2:{ left. split; [exact Hk |]. split; [exact Hr |]. exists e. split; [reflexivity |].
      right. exists raw. split; [reflexivity |]. right. exists parsed. split; assumption. }
  right. split; [exact Hk |]. split; [exact Hr |].
  destruct (validateLLMRecommendations_Ok _ _ Ev) as (recs & Erecs & _ & _).
  exists raw, parsed, recs. rewrite Erecs. simpl. repeat split; assumption.
Qed.

End Outcomes.

(** * Ranked entries and stored rows *)

Lemma rowsOf_museums now params prompt top :
  map RecommendationRow.museum (rowsOf now params prompt top) = map Ranked.museum top.
Proof. unfold rowsOf. rewrite map_map. reflexivity. Qed.

Lemma rowsOf_user now params prompt top :
  Forall (fun row => RecommendationRow.user row = Params.user params)
    (rowsOf now params prompt top).
Proof. unfold rowsOf. apply Forall_forall. intros row Hrow.
  apply list_elem_of_fmap in Hrow as (t & -> & _). reflexivity. Qed.

Lemma rank_scores_ok raw parsed recs unseen k :
  parseLLMJson raw = Ok parsed -> recommendations_of parsed = Some recs ->
  Forall (fun e => is_double (Ranked.score e) /\ Number.isNaN (Ranked.score e) = false)
    (rank recs unseen k).
Proof.
  intros Hparse Hrecs.
  pose proof (parseLLMJson_numbers is_double number_of_decimal_double _ _ Hparse) as Hp.
  pose proof (recommendations_of_numbers _ _ Hp Hrecs) as Hall.
  apply Forall_forall. intros e He.
  apply elem_of_rank in He as (_ & r & Hr & Hre).
  eapply ranked_entry_score_ok; [| exact Hre].
  eapply Forall_forall in Hall; [exact Hall | exact Hr].
Qed.

Lemma StronglySorted_take {A : Type} (R : relation A) (n : nat) (l : list A) :
  StronglySorted R l -> StronglySorted R (take n l).
Proof.
  intros H. rewrite <- (take_drop n l) in H. eapply StronglySorted_app_1_l; exact H.
Qed.

Lemma rank_sorted raw parsed recs unseen k :
  parseLLMJson raw = Ok parsed -> recommendations_of parsed = Some recs ->
  StronglySorted (desc Ranked.score) (rank recs unseen k).
Proof.
  intros Hparse Hrecs.
  pose proof (parseLLMJson_numbers is_double number_of_decimal_double _ _ Hparse) as Hp.
  pose proof (recommendations_of_numbers _ _ Hp Hrecs) as Hall.
  set (kept := filter (fun e => Ranked.museum e ∈ unseen) (omap ranked_entry recs)).
  assert (Hkept : Forall (fun e => is_double (Ranked.score e) /\
                                   Number.isNaN (Ranked.score e) = false) kept).
  { apply Forall_forall. intros e He. apply list_elem_of_filter in He as [_ He].
    apply list_elem_of_omap in He as (r & Hr & Hre).
    eapply ranked_entry_score_ok; [| exact Hre].
    eapply Forall_forall in Hall; [exact Hall | exact Hr]. }
  unfold rank, slice0. fold kept.
  rewrite Array_sort_desc by (eapply Forall_impl; [exact Hkept | intros e He; apply He]).
  apply StronglySorted_take. apply sort_desc_sorted.
  eapply Forall_impl; [exact Hkept | intros e He; apply He].
Qed.

(** Sorting a list that is in descending order gives the list. *)
Lemma Array_sort_sorted {A : Type} (score : A -> number) (l : list A) :
  Forall (fun e => is_double (score e) /\ Number.isNaN (score e) = false) l ->
  StronglySorted (desc score) l ->
  Array_sort (byScoreDesc score) l = l.
Proof.
  intros Hok Hs.
  rewrite Array_sort_desc by (eapply Forall_impl; [exact Hok | intros e He; apply He]).
  induction Hs as [| x l Hs IH Hx]; [reflexivity |].
  apply Forall_cons in Hok as [Hokx Hok].
  unfold sort_desc in *. cbn [foldr]. rewrite (IH Hok).
  destruct l as [| y l']; [reflexivity |].
  apply Forall_cons in Hx as [Hxy _]. apply Forall_cons in Hok as [Hoky _].
  unfold desc in Hxy. rewrite num_le_not_lt in Hxy by tauto.
  apply negb_true_iff in Hxy. simpl. rewrite Hxy. reflexivity.
Qed.

Lemma result_of_take {A : Type} (f g : A -> jsstring) (n : nat) (l : list A) :
  result_of f g (take n l) = take n (result_of f g l).
Proof. unfold result_of. apply fmap_take. Qed.

Lemma recommendationsOf_afterCommit user rows w0 :
  recommendationsOf (afterCommit user rows w0) user = rows.
Proof. unfold recommendationsOf, afterCommit. simpl. rewrite lookup_insert_eq. reflexivity. Qed.

Lemma recommendationsOf_afterCommit_ne user rows w0 u :
  u <> user -> recommendationsOf (afterCommit user rows w0) u = recommendationsOf w0 u.
Proof.
  intros Hu. unfold recommendationsOf, afterCommit. simpl.
  rewrite lookup_insert_ne by congruence. reflexivity.
Qed.
(** * The validators, both ways *)

Lemma recommendations_of_truthy (parsed : jsvalue) (recs : list jsvalue) :
  recommendations_of parsed = Some recs -> truthy parsed = true.
Proof.
  unfold recommendations_of. destruct (prop parsed _) eqn:E; [| discriminate].
  intros _. eapply truthy_of_prop; exact E.
Qed.

Lemma validateLLMRecommendations_unfold (parsed : jsvalue) (unseen : list Museum)
  (recs : list jsvalue) :
  recommendations_of parsed = Some recs -> recs <> [] ->
  validateLLMRecommendations parsed unseen =
  (for_of check_shape recs ;;
   validateNoDuplicatesAndOnlyUnseen recs unseen ;;
   validateScoreAndPercentAgreement recs ;;
   validateRationaleRules recs).
Proof.
  intros Hrecs Hne. unfold validateLLMRecommendations.
  rewrite (recommendations_of_truthy _ _ Hrecs), Hrecs. simpl.
  destruct recs; [contradiction | reflexivity].
Qed.

Lemma no_duplicates_loop_NoDup (unseenSet seen : gset (list N)) (recs : list jsvalue) :
  no_duplicates_loop unseenSet seen recs = Ok tt ->
  NoDup (omap museumIdOf recs) /\ Forall (fun m => m ∉ seen) (omap museumIdOf recs).
Proof.
  revert seen. induction recs as [| r recs IH]; intros seen H.
  { split; constructor. }
  simpl in H. unfold mbind, Res_bind, read in H.
  assert (exists m, prop r (str "museumId") = Some (JStr m) /\ m ∈ unseenSet /\ (m ∉ seen) /\
            no_duplicates_loop unseenSet ({[m]} ∪ seen) recs = Ok tt) as (m & Em & _ & Hs & Hl).
  { destruct r; try discriminate;
      (destruct (prop _ (str "museumId")) as [[| | | m | |] |] eqn:Em; try discriminate;
       destruct (bool_decide (m ∈ unseenSet)) eqn:Eu; try discriminate;
       destruct (bool_decide (m ∈ seen)) eqn:Es; try discriminate;
       apply bool_decide_eq_true in Eu; apply bool_decide_eq_false in Es;
       exists m; auto). }
  destruct (IH _ Hl) as [Hnd Hall].
  assert (Eid : museumIdOf r = Some m) by (unfold museumIdOf; rewrite Em; reflexivity).
  cbn [omap list_omap]. rewrite Eid.
  split.
  - constructor; [| exact Hnd]. intros Hin.
    eapply Forall_forall in Hall; [| exact Hin]. apply Hall.
    apply elem_of_union. left. apply elem_of_singleton. reflexivity.
  - constructor; [exact Hs |]. eapply Forall_impl; [exact Hall |]. intros x Hx Hin.
    apply Hx. apply elem_of_union. right. exact Hin.
Qed.

Lemma no_duplicates_loop_complete (unseenSet seen : gset (list N)) (recs : list jsvalue) :
  Forall (fun r => exists m, prop r (str "museumId") = Some (JStr m) /\ m ∈ unseenSet) recs ->
  NoDup (omap museumIdOf recs) ->
  Forall (fun m => m ∉ seen) (omap museumIdOf recs) ->
  no_duplicates_loop unseenSet seen recs = Ok tt.
Proof.
  revert seen. induction recs as [| r recs IH]; intros seen Hall Hnd Hseen; [reflexivity |].
  apply Forall_cons in Hall as [(m & Em & Hu) Hall].
  assert (Eid : museumIdOf r = Some m) by (unfold museumIdOf; rewrite Em; reflexivity).
  cbn [omap list_omap] in Hnd, Hseen. rewrite Eid in Hnd, Hseen.
  apply NoDup_cons in Hnd as [Hm Hnd]. apply Forall_cons in Hseen as [Hs Hseen].
  simpl. unfold mbind, Res_bind, read.
  assert (Hr : r <> JNull) by (intros ->; discriminate).
  destruct r; try contradiction;
    (rewrite Em, (bool_decide_eq_true_2 _ Hu), (bool_decide_eq_false_2 _ Hs);
     apply IH; [exact Hall | exact Hnd |];
     apply Forall_forall; intros x Hx;
     eapply Forall_forall in Hseen; [| exact Hx];
     assert (Hxm : x <> m) by (intros ->; contradiction);
     intros Hin; apply elem_of_union in Hin as [Hin | Hin];
     [apply elem_of_singleton in Hin; contradiction | contradiction]).
Qed.

Lemma valid_entries_museums (unseen : list Museum) (recs : list jsvalue) :
  Forall (fun r => exists m s t, ValidEntry unseen r m s t) recs ->
  map Ranked.museum (omap ranked_entry recs) = omap museumIdOf recs.
Proof.
  induction 1 as [| r recs (m & s & t & Hv) _ IH]; [reflexivity |].
  cbn [omap list_omap]. rewrite (ranked_entry_valid _ _ _ _ _ Hv).
  unfold museumIdOf at 1. rewrite (ve_museumId _ _ _ _ _ Hv). simpl. f_equal. exact IH.
Qed.

(** The museums of a validated answer are pairwise distinct. *)
Lemma validated_NoDup (parsed : jsvalue) (unseen : list Museum) (recs : list jsvalue) :
  validateLLMRecommendations parsed unseen = Ok tt ->
  recommendations_of parsed = Some recs ->
  NoDup (omap museumIdOf recs).
Proof.
  intros Hv Hrecs.
  destruct (validateLLMRecommendations_Ok _ _ Hv) as (recs' & Hrecs' & Hne & _).
  rewrite Hrecs in Hrecs'. injection Hrecs' as <-.
  rewrite (validateLLMRecommendations_unfold _ _ _ Hrecs Hne) in Hv.
  unfold mbind, Res_bind in Hv.
  destruct (for_of check_shape recs) as [[] |]; [| discriminate].
  destruct (validateNoDuplicatesAndOnlyUnseen recs unseen) as [[] |] eqn:H2; [| discriminate].
  apply no_duplicates_loop_NoDup in H2. apply H2.
Qed.

Lemma rank_NoDup (parsed : jsvalue) (unseen : list Museum) (recs : list jsvalue) (k : Z) :
  validateLLMRecommendations parsed unseen = Ok tt ->
  recommendations_of parsed = Some recs ->
  NoDup (map Ranked.museum (rank recs unseen k)).
Proof.
  intros Hv Hrecs.
  pose proof (validated_NoDup _ _ _ Hv Hrecs) as Hnd.
  destruct (validateLLMRecommendations_Ok _ _ Hv) as (recs' & Hrecs' & _ & Hall).
  rewrite Hrecs in Hrecs'. injection Hrecs' as <-.
  rewrite <- (valid_entries_museums _ _ Hall) in Hnd.
  unfold rank, slice0.
  eapply sublist_NoDup; [| apply fmap_sublist, sublist_take].
  rewrite (fmap_Permutation _ _ _ (Array_sort_perm _ _)).
  eapply sublist_NoDup; [exact Hnd |]. apply fmap_sublist, sublist_filter.
Qed.

Lemma trimStart_snoc_nonempty (s : jsstring) (c : N) :
  isWhiteSpace c = false -> trimStart (s ++ [c]) <> [].
Proof.
  intros Hc. induction s as [| x s IH]; simpl.
  - rewrite Hc. discriminate.
  - destruct (isWhiteSpace x); [exact IH | discriminate].
Qed.

Lemma trim_paren_nonempty (s : jsstring) : trim (40%N :: s) <> [].
Proof.
  unfold trim. change (trimStart (40%N :: s)) with (40%N :: s).
  unfold trimEnd. intros H. apply (f_equal (@length N)) in H.
  rewrite length_rev in H.
  change (40%N :: s) with ([40%N] ++ s) in H. rewrite rev_app_distr in H. simpl in H.
  pose proof (trimStart_snoc_nonempty (rev s) 40%N eq_refl) as Hn.
  destruct (trimStart (rev s ++ [40%N])); [contradiction | discriminate].
Qed.

Lemma check_shape_museumId (r : jsvalue) :
  check_shape r = Ok tt ->
  exists m, prop r (str "museumId") = Some (JStr m) /\ trim m <> [].
Proof.
  unfold check_shape, mbind, Res_bind, read. intros H.
  destruct r; simpl in H; try discriminate.
  simpl. repeat case_match; simplify_eq.
  eexists. split; [reflexivity |]. congruence.
Qed.

Lemma check_shape_complete (unseen : list Museum) (r : jsvalue) (m : Museum) (s : number)
  (t : jsstring) :
  ValidEntry unseen r m s t -> trim m <> [] -> check_shape r = Ok tt.
Proof.
  intros [Em Es Et _ _ _ _ _ (ds & rest & Hp & _) _ _ _] Hm.
  assert (Ht : trim t <> []).
  { destruct (match_percent_prefix_spec _ _ _ Hp) as (ws1 & mt & ws2 & -> & _).
    apply trim_paren_nonempty. }
  assert (Hr : r <> JNull) by (intros ->; discriminate).
  unfold check_shape, mbind, Res_bind, read.
  destruct r; try contradiction;
    (rewrite Em, Es, Et; destruct (trim m); [contradiction |];
     destruct (trim t); [contradiction | reflexivity]).
Qed.

Lemma check_score_and_percent_complete (unseen : list Museum) (r : jsvalue) (m : Museum)
  (s : number) (t : jsstring) :
  ValidEntry unseen r m s t -> check_score_and_percent r = Ok tt.
Proof.
  intros [Em Es Et _ _ F1 F2 F3 (ds & rest & Hp & P1 & P2 & P3) _ _ _].
  assert (Hr : r <> JNull) by (intros ->; discriminate).
  unfold check_score_and_percent, mbind, Res_bind, read.
  unfold percent_delta in P3.
  destruct r; try contradiction;
    (rewrite Es, Et, F1, F2, F3, Hp; cbn [negb orb]; rewrite P1, P2; cbn [orb];
     rewrite P3; reflexivity).
Qed.

Lemma check_rationale_rules_complete (unseen : list Museum) (r : jsvalue) (m : Museum)
  (s : number) (t : jsstring) :
  ValidEntry unseen r m s t -> check_rationale_rules r = Ok tt.
Proof.
  intros [Em Es Et _ _ _ _ _ _ G1 G2 G3].
  assert (Hr : r <> JNull) by (intros ->; discriminate).
  unfold check_rationale_rules, mbind, Res_bind, read.
  destruct r; try contradiction;
    (rewrite Et; destruct (strip_percent_prefix t) as [| c u] eqn:E; [contradiction |];
     rewrite G2; apply Nat.ltb_ge in G3; rewrite G3; reflexivity).
Qed.

(** X4. The validators accept an answer exactly when its [recommendations]
    array is not empty, every entry is valid (a string id that is not blank
    and names an unseen candidate, a finite score in [0,1], a rationale that
    opens with a percentage within 10 points of the score and then has a
    non-empty text of at most three sentences without LOVE, LIKE or MEH),
    and no id occurs twice. *)
Theorem validateLLMRecommendations_accepts (parsed : jsvalue) (unseen : list Museum) :
  validateLLMRecommendations parsed unseen = Ok tt <->
  exists recs, recommendations_of parsed = Some recs /\ AcceptedAnswer unseen recs.
Proof.
  split.
  - intros Hv.
    destruct (validateLLMRecommendations_Ok _ _ Hv) as (recs & Hrecs & Hne & Hall).
    exists recs. split; [exact Hrecs |]. split; [exact Hne |].
    split; [| exact (validated_NoDup _ _ _ Hv Hrecs)].
    rewrite (validateLLMRecommendations_unfold _ _ _ Hrecs Hne) in Hv.
    unfold mbind, Res_bind in Hv.
    destruct (for_of check_shape recs) as [[] |] eqn:H1; [| discriminate].
    apply for_of_Ok in H1.
    apply Forall_forall. intros r Hr.
    eapply Forall_forall in Hall; [| exact Hr]. destruct Hall as (m & s & t & Hve).
    eapply Forall_forall in H1; [| exact Hr].
    destruct (check_shape_museumId _ H1) as (m' & Em' & Hm').
    rewrite (ve_museumId _ _ _ _ _ Hve) in Em'. injection Em' as <-.
    exists m, s, t. split; assumption.
  - intros (recs & Hrecs & Hne & Hall & Hnd).
    rewrite (validateLLMRecommendations_unfold _ _ _ Hrecs Hne).
    unfold mbind, Res_bind.
    assert (H1 : for_of check_shape recs = Ok tt).
    { apply for_of_Ok. eapply Forall_impl; [exact Hall |].
      intros r (m & s & t & Hve & Hm). eapply check_shape_complete; eassumption. }
    assert (H2 : validateNoDuplicatesAndOnlyUnseen recs unseen = Ok tt).
    { apply no_duplicates_loop_complete; [| exact Hnd |].
      - eapply Forall_impl; [exact Hall |]. intros r (m & s & t & Hve & _).
        exists m. split; [exact (ve_museumId _ _ _ _ _ Hve) |].
        apply elem_of_list_to_set. exact (ve_unseen _ _ _ _ _ Hve).
      - apply Forall_forall. intros x _. apply not_elem_of_empty. }
    assert (H3 : validateScoreAndPercentAgreement recs = Ok tt).
    { apply for_of_Ok. eapply Forall_impl; [exact Hall |].
      intros r (m & s & t & Hve & _). eapply check_score_and_percent_complete; exact Hve. }
    assert (H4 : validateRationaleRules recs = Ok tt).
    { apply for_of_Ok. eapply Forall_impl; [exact Hall |].
      intros r (m & s & t & Hve & _). eapply check_rationale_rules_complete; exact Hve. }
    rewrite H1, H2, H3. exact H4.
Qed.

(** What the validators throw on an answer that has the array: a validator
    error, unless an entry is [null]. *)
Lemma for_of_Throw {A : Type} (body : A -> Res unit) (l : list A) (e : Error) :
  for_of body l = Throw e -> exists r, r ∈ l /\ body r = Throw e.
Proof.
  induction l as [| r l IH]; simpl; [discriminate |].
  unfold mbind, Res_bind. destruct (body r) as [[] | e'] eqn:E.
  - intros H. destruct (IH H) as (r' & Hr' & Hb). exists r'. split; [| exact Hb].
    apply elem_of_cons. right. exact Hr'.
  - intros H. injection H as ->. exists r. split; [apply list_elem_of_here | exact E].
Qed.
(** * What llmRecommend stores and returns *)

Ltac llm_outcome llm now params w H :=
  pose proof (llmRecommend_outcome llm now params w) as H; cbv zeta in H.

(** X6. When llmRecommend returns, the museums it returns are pairwise
    distinct candidates that the user has not rated, there are at most [k]
    of them, and the rows now stored for the user are these results, in
    this order, stamped with the user and the time of the call. *)
Theorem llmRecommend_result_eligible (llm : jsstring -> Res jsstring) (now : jsstring)
  (params : Params.t) (w w' : World) (res : list (Museum * jsstring)) :
  llmRecommend llm now params w = (Ok res, w') ->
  NoDup (map fst res) /\
  (forall m, m ∈ map fst res ->
     m ∈ Params.candidates params /\
     (m ∉ map TasteSignalRow.museum (tasteSignalsOf w' (Params.user params)))) /\
  (Z.of_nat (length res) <= Params.k params)%Z /\
  res = result_of RecommendationRow.museum RecommendationRow.rationale
          (recommendationsOf w' (Params.user params)) /\
  Forall (fun row => RecommendationRow.user row = Params.user params /\
                     RecommendationRow.generatedAt row = now)
    (recommendationsOf w' (Params.user params)).
Proof.
  intros Hrun. llm_outcome llm now params w H.
  destruct H as [(Hk & E) | [(Hk & Hs & E) | [(Hk & Hr & e & E & _) |
                 (Hk & Hr & raw & parsed & recs & Hllm & Hparse & Hv & Hrecs & E)]]];
    rewrite E in Hrun; try discriminate; injection Hrun as <- <-.
  - rewrite recommendationsOf_afterCommit. simpl.
    split; [constructor |]. split; [intros m Hm; inversion Hm |].
    split; [lia |]. split; [reflexivity | constructor].
  - rewrite recommendationsOf_afterCommit.
    set (unseen := unseenOf w (Params.user params) (Params.candidates params)) in *.
    set (top := rank recs unseen (Params.k params)).
    assert (Efst : map fst (result_of Ranked.museum Ranked.rationale top)
                   = map Ranked.museum top).
    { unfold result_of. rewrite map_map. reflexivity. }
    rewrite Efst.
    split; [exact (rank_NoDup _ _ _ _ Hv Hrecs) |].
    split.
    { intros m Hm. apply list_elem_of_fmap in Hm as (t & -> & Ht).
      apply elem_of_rank in Ht as [Hu _].
      split.
      - unfold unseen, unseenOf in Hu. apply list_elem_of_filter in Hu. tauto.
      - intros Hin. apply list_elem_of_fmap in Hin as (ts & Hts & Hin).
        apply (elem_of_unseenOf _ _ _ _ Hu ts); [exact Hin | congruence]. }
    split.
    { unfold result_of. rewrite length_map. pose proof (length_rank recs unseen (Params.k params)).
      fold top in H. lia. }
    split; [symmetry; apply result_of_rowsOf |].
    unfold rowsOf. apply Forall_forall. intros row Hrow.
    apply list_elem_of_fmap in Hrow as (t & -> & _). split; reflexivity.
Qed.

Lemma llmRecommend_result_eligible_witness :
  exists res w',
    llmRecommend llm_whitney (str "t1") (sample_params 3) world_rated = (Ok res, w') /\
    map fst res = [str "whitney"] /\
    NoDup (map fst res) /\
    (forall m, m ∈ map fst res ->
       m ∈ sample_candidates /\
       (m ∉ map TasteSignalRow.museum (tasteSignalsOf w' alice))).
Proof.
  assert (Hrun : llmRecommend llm_whitney (str "t1") (sample_params 3) world_rated
                 = (Ok [(str "whitney",
                         str "(90% match) You will love its postwar sculpture focus.")],
                    world_recommended))
    by (vm_compute; reflexivity).
  eexists _, _. split; [exact Hrun |]. split; [reflexivity |].
  destruct (llmRecommend_result_eligible _ _ _ _ _ _ Hrun) as (H1 & H2 & _).
  split; [exact H1 | exact H2].
Defined.

(** X7. Round trip: right after llmRecommend has returned [res],
    getRecommendations for the same user returns the first [max(1, j)]
    entries of [res], for every [j], and changes nothing. *)
Theorem llmRecommend_then_getRecommendations (llm : jsstring -> Res jsstring)
  (now : jsstring) (params : Params.t) (w w' : World) (res : list (Museum * jsstring))
  (j : Z) :
  llmRecommend llm now params w = (Ok res, w') ->
  getRecommendations (Params.user params) j w'
  = (Ok (take (Z.to_nat (Z.max 1 j)) res), w').
Proof.
  intros Hrun. llm_outcome llm now params w H.
  unfold getRecommendations, mbind, Action_bind, getRecommendationRows, mret, Action_ret,
    slice0.
  fold (recommendationsOf w' (Params.user params)).
  destruct H as [(Hk & E) | [(Hk & Hs & E) | [(Hk & Hr & e & E & _) |
                 (Hk & Hr & raw & parsed & recs & Hllm & Hparse & Hv & Hrecs & E)]]];
    rewrite E in Hrun; try discriminate; injection Hrun as <- <-.
  - rewrite recommendationsOf_afterCommit. unfold Array_sort. cbn [foldr].
    rewrite !take_nil. reflexivity.
  - rewrite recommendationsOf_afterCommit.
    set (unseen := unseenOf w (Params.user params) (Params.candidates params)) in *.
    set (top := rank recs unseen (Params.k params)).
    set (rows := rowsOf now params (promptOf w params) top).
    assert (Hok : Forall (fun r => is_double (RecommendationRow.score r) /\
                                   Number.isNaN (RecommendationRow.score r) = false) rows).
    { unfold rows, rowsOf. apply Forall_forall. intros row Hrow.
      apply list_elem_of_fmap in Hrow as (t & -> & Ht). simpl.
      pose proof (rank_scores_ok _ _ _ unseen (Params.k params) Hparse Hrecs) as Hs.
      eapply Forall_forall in Hs; [exact Hs | exact Ht]. }
    assert (Hsorted : StronglySorted (desc RecommendationRow.score) rows).
    { unfold rows, rowsOf.
      apply (StronglySorted_fmap _ (desc Ranked.score)); [intros x y Hxy; exact Hxy |].
      exact (rank_sorted _ _ _ unseen (Params.k params) Hparse Hrecs). }
    rewrite (Array_sort_sorted _ _ Hok Hsorted).
    rewrite result_of_take. unfold rows. rewrite result_of_rowsOf. reflexivity.
Qed.

Lemma llmRecommend_then_getRecommendations_witness :
  exists res w',
    llmRecommend llm_whitney (str "t1") (sample_params 3) world_rated = (Ok res, w') /\
    res <> [] /\
    getRecommendations alice 2 w' = (Ok (take 2 res), w').
Proof.
  assert (Hrun : llmRecommend llm_whitney (str "t1") (sample_params 3) world_rated
                 = (Ok [(str "whitney",
                         str "(90% match) You will love its postwar sculpture focus.")],
                    world_recommended))
    by (vm_compute; reflexivity).
  eexists _, _. split; [exact Hrun |]. split; [discriminate |].
  exact (llmRecommend_then_getRecommendations _ _ (sample_params 3) _ _ _ 2 Hrun).
Defined.
(** * Ratings and refreshes *)

(** X8. Rating a museum and then refreshing repairs the cache: when
    refreshOnRatingChange returns after a recordMuseumTaste for [museum],
    [museum] is neither among the results nor among the stored rows of the
    user, whatever was stored before. *)
Theorem refresh_after_rating_drops_museum (llm : jsstring -> Res jsstring)
  (now1 now2 : jsstring) (user : User) (museum : Museum) (taste : Taste)
  (defaultK : Z) (candidates : list Museum) (w w2 : World)
  (res : list (Museum * jsstring)) :
  refreshOnRatingChange llm now2 user defaultK candidates
    (snd (recordMuseumTaste now1 user museum taste w)) = (Ok res, w2) ->
  (museum ∉ map fst res) /\
  (museum ∉ map RecommendationRow.museum (recommendationsOf w2 user)).
Proof.
  unfold refreshOnRatingChange. intros Hrun.
  set (w1 := snd (recordMuseumTaste now1 user museum taste w)) in *.
  llm_outcome llm now2 (Params.mk user defaultK candidates None) w1 H. simpl in H.
  assert (Hrated : TasteSignalRow.mk user museum taste now1 ∈ tasteSignalsOf w1 user).
  { destruct (recordMuseumTaste_run_row now1 user museum taste w) as [E _]. exact E. }
  destruct H as [(Hk & E) | [(Hk & Hs & E) | [(Hk & Hr & e & E & _) |
                 (Hk & Hr & raw & parsed & recs & Hllm & Hparse & Hv & Hrecs & E)]]];
    rewrite E in Hrun; try discriminate; injection Hrun as <- <-.
  - rewrite recommendationsOf_afterCommit. simpl. split; apply not_elem_of_nil.
  - rewrite recommendationsOf_afterCommit, rowsOf_museums.
    assert (Efst : forall top, map fst (result_of Ranked.museum Ranked.rationale top)
                   = map Ranked.museum top).
    { intros top. unfold result_of. rewrite map_map. reflexivity. }
    rewrite Efst.
    assert (Hno : museum ∉ map Ranked.museum (rank recs (unseenOf w1 user candidates) defaultK)).
    { intros Hin. apply list_elem_of_fmap in Hin as (t & Ht & Hin).
      apply elem_of_rank in Hin as [Hu _].
      apply (elem_of_unseenOf _ _ _ _ Hu _ Hrated). simpl. exact Ht. }
    split; exact Hno.
Qed.

(** Alice rates the Whitney, which was recommended to her, and the refresh
    returns the Museum of Modern Art. *)
Lemma refresh_after_rating_drops_museum_witness :
  str "whitney" ∈ map RecommendationRow.museum (recommendationsOf world_recommended alice) /\
  exists res w2,
    refreshOnRatingChange llm_moma (str "t3") alice 3 sample_candidates
      (snd (recordMuseumTaste (str "t2") alice (str "whitney") LIKE world_recommended))
    = (Ok res, w2) /\
    map fst res = [str "moma"] /\
    (str "whitney" ∉ map RecommendationRow.museum (recommendationsOf w2 alice)).
Proof.
  split; [vm_compute; apply list_elem_of_here |].
  destruct (refreshOnRatingChange llm_moma (str "t3") alice 3 sample_candidates
              (snd (recordMuseumTaste (str "t2") alice (str "whitney") LIKE
                      world_recommended))) as [r w2] eqn:Hrun.
  assert (Hr : r = Ok [(str "moma", str "(80% match) Strong on modern painting.")]).
  { apply (f_equal fst) in Hrun. simpl in Hrun. rewrite <- Hrun. vm_compute. reflexivity. }
  subst r. eexists _, w2. split; [reflexivity |]. split; [reflexivity |].
  exact (proj2 (refresh_after_rating_drops_museum _ _ _ _ _ _ _ _ _ _ _ Hrun)).
Defined.

(** * Answers that are turned down *)

(** X9. All or nothing: when one entry of the answer is not valid, the call
    throws and stores nothing, however good the other entries are. *)
Theorem llmRecommend_all_or_nothing (llm : jsstring -> Res jsstring) (now : jsstring)
  (params : Params.t) (w : World) (raw : jsstring) (parsed : jsvalue)
  (recs : list jsvalue) (r : jsvalue) :
  (1 <= Params.k params)%Z ->
  reachesLLM w params ->
  llm (promptOf w params) = Ok raw ->
  parseLLMJson raw = Ok parsed ->
  recommendations_of parsed = Some recs ->
  r ∈ recs ->
  (forall m s t,
     ~ ValidEntry (unseenOf w (Params.user params) (Params.candidates params)) r m s t) ->
  exists e : Error,
    llmRecommend llm now params w = (Throw e, afterCall (promptOf w params) w) /\
    store (afterCall (promptOf w params) w) = store w.
Proof.
  intros Hk Hreach Hllm Hparse Hrecs Hr Hbad.
  rewrite (llmRecommend_reaches llm now params w Hk Hreach), Hllm, Hparse.
  destruct (validateLLMRecommendations parsed _) as [[] | e] eqn:Hv.
  - exfalso. destruct (validateLLMRecommendations_Ok _ _ Hv) as (recs' & Hrecs' & _ & Hall).
    rewrite Hrecs in Hrecs'. injection Hrecs' as <-.
    eapply Forall_forall in Hall; [| exact Hr]. destruct Hall as (m & s & t & Hve).
    exact (Hbad m s t Hve).
  - exists e. split; reflexivity.
Qed.

(** The Whitney entry is fine; the Met entry is for a museum that Alice has
    rated. *)
Lemma llmRecommend_all_or_nothing_witness :
  exists e : Error,
    llmRecommend (fun _ => Ok raw_whitney_and_met) (str "t1") (sample_params 3) world_rated
    = (Throw e, afterCall (promptOf world_rated (sample_params 3)) world_rated).
Proof.
  assert (Hreach : reachesLLM world_rated (sample_params 3))
    by (split; vm_compute; discriminate).
  destruct (parseLLMJson raw_whitney_and_met) as [parsed | e0] eqn:Hparse;
    [| vm_compute in Hparse; discriminate].
  destruct (recommendations_of parsed) as [recs |] eqn:Hrecs;
    [| apply (f_equal (fun p => match p with Ok v => recommendations_of v | _ => None end))
         in Hparse; rewrite Hrecs in Hparse; vm_compute in Hparse; discriminate].
  assert (Hrecs' : recs = [JObj [(str "museumId", JStr (str "whitney"));
                                 (str "score", JNum (number_of_decimal false 9 (-1)));
                                 (str "rationale", JStr (str "(90% match) Postwar sculpture."))];
                           JObj [(str "museumId", JStr (str "met"));
                                 (str "score", JNum (number_of_decimal false 7 (-1)));
                                 (str "rationale", JStr (str "(70% match) Encyclopedic."))]]).
  { apply (f_equal (fun p => match p with Ok v => recommendations_of v | _ => None end))
      in Hparse. rewrite Hrecs in Hparse. vm_compute in Hparse. injection Hparse as <-.
    vm_compute. reflexivity. }
  destruct (llmRecommend_all_or_nothing (fun _ => Ok raw_whitney_and_met) (str "t1")
              (sample_params 3) world_rated raw_whitney_and_met parsed recs
              (JObj [(str "museumId", JStr (str "met"));
                     (str "score", JNum (number_of_decimal false 7 (-1)));
                     (str "rationale", JStr (str "(70% match) Encyclopedic."))]))
    as (e & He & _).
  - simpl. lia.
  - exact Hreach.
  - reflexivity.
  - exact Hparse.
  - exact Hrecs.
  - rewrite Hrecs'. apply list_elem_of_further, list_elem_of_here.
  - intros m s t [Em _ _ _ Hu _ _ _ _ _ _ _].
    vm_compute in Em. injection Em as <-.
    unfold unseenOf in Hu. apply list_elem_of_filter in Hu as [Hu _]. apply Hu.
    vm_compute. set_solver.
  - exists e. exact He.
Defined.

(** X10. An answer whose [recommendations] array is empty is turned down:
    the call throws the validator's error for an empty set, after the one
    call to the model, and the store stays as it was. *)
Theorem llmRecommend_empty_array (llm : jsstring -> Res jsstring) (now : jsstring)
  (params : Params.t) (w : World) (raw : jsstring) (parsed : jsvalue) :
  (1 <= Params.k params)%Z ->
  reachesLLM w params ->
  llm (promptOf w params) = Ok raw ->
  parseLLMJson raw = Ok parsed ->
  recommendations_of parsed = Some [] ->
  llmRecommend llm now params w
  = (Throw (Validator EmptyRecommendationsSet),
     {| store := store w; llmCalls := llmCalls w ++ [promptOf w params] |}).
Proof.
  intros Hk Hreach Hllm Hparse Hrecs.
  rewrite (llmRecommend_reaches llm now params w Hk Hreach), Hllm, Hparse.
  unfold validateLLMRecommendations.
  rewrite (recommendations_of_truthy _ _ Hrecs), Hrecs. reflexivity.
Qed.

Lemma llmRecommend_empty_array_witness :
  parseLLMJson raw_empty_array = Ok (JObj [(str "recommendations", JArr [])]) /\
  llmRecommend (fun _ => Ok raw_empty_array) (str "t1") (sample_params 3) world_rated
  = (Throw (Validator EmptyRecommendationsSet),
     {| store := store world_rated;
        llmCalls := llmCalls world_rated ++ [promptOf world_rated (sample_params 3)] |}).
Proof.
  assert (Hparse : parseLLMJson raw_empty_array = Ok (JObj [(str "recommendations", JArr [])]))
    by (vm_compute; reflexivity).
  split; [exact Hparse |].
  apply (llmRecommend_empty_array _ _ _ _ raw_empty_array
           (JObj [(str "recommendations", JArr [])]));
    [simpl; lia | split; vm_compute; discriminate | reflexivity | exact Hparse | reflexivity].
Defined.

(** X11. A [k] below 1: llmRecommend throws before it reads the store or
    calls the model, and the world is the one it was given;
    getRecommendations answers as for [k = 1]. *)
Theorem k_below_one (llm : jsstring -> Res jsstring) (now : jsstring)
  (params : Params.t) (w : World) :
  (Params.k params < 1)%Z ->
  llmRecommend llm now params w = (Throw KMustBeAtLeastOne, w) /\
  getRecommendations (Params.user params) (Params.k params) w
  = getRecommendations (Params.user params) 1 w.
Proof.
  intros Hk. split.
  - unfold llmRecommend. destruct (Z.ltb_spec (Params.k params) 1) as [_ | Hge]; [| lia].
    reflexivity.
  - unfold getRecommendations. replace (Z.max 1 (Params.k params)) with (Z.max 1 1) by lia.
    reflexivity.
Qed.

Lemma k_below_one_witness :
  llmRecommend llm_whitney (str "t1") (sample_params 0) world_rated
  = (Throw KMustBeAtLeastOne, world_rated) /\
  getRecommendations alice 0 world_recommended = getRecommendations alice 1 world_recommended.
Proof.
  split.
  - apply (proj1 (k_below_one llm_whitney (str "t1") (sample_params 0) world_rated
                    ltac:(simpl; lia))).
  - apply (proj2 (k_below_one llm_whitney (str "t1") (sample_params 0) world_recommended
                    ltac:(simpl; lia))).
Defined.
(** * The shape of the store in every reachable world *)

Lemma upsert_keyed (u : User) (row : TasteSignalRow.t) (l : list TasteSignalRow.t) :
  TasteSignalRow.user row = u ->
  NoDup (map TasteSignalRow.museum l) ->
  Forall (fun ts => TasteSignalRow.user ts = u) l ->
  let l' :=
    match list_find (fun ts => TasteSignalRow.museum ts = TasteSignalRow.museum row) l with
    | Some (i, _) => <[i := row]> l
    | None => l ++ [row]
    end in
  NoDup (map TasteSignalRow.museum l') /\ Forall (fun ts => TasteSignalRow.user ts = u) l'.
Proof.
  intros Hu Hnd Hall l'.
  destruct (upsert_cases row l) as [(i & old & Hi & Hm & _ & E) | (Hnot & E)];
    [change (l' = <[i := row]> l) in E | change (l' = l ++ [row]) in E]; rewrite E.
  - split.
    + rewrite (upsert_museums row l i old Hi Hm). exact Hnd.
    + apply Forall_insert; assumption.
  - split.
    + rewrite map_app. simpl. apply NoDup_app. split; [exact Hnd |].
      split; [| apply NoDup_singleton].
      intros x Hx Hx'. apply list_elem_of_singleton in Hx'. subst x. contradiction.
    + apply Forall_app. split; [exact Hall |]. constructor; [exact Hu | constructor].
Qed.

Lemma run_op_taste_keyed (op : Op) (w : World) :
  TasteSignalsKeyed (store w) -> TasteSignalsKeyed (store (run_op op w)).
Proof.
  intros Hinv u.
  destruct op as [now user museum taste | user museum | llm now params | user k].
  - cbn [run_op]. fold (tasteSignalsOf (snd (recordMuseumTaste now user museum taste w)) u).
    unfold recordMuseumTaste, mbind, Action_bind, getTasteSignals.
    rewrite tasteSignalsOf_setTasteSignals.
    destruct (decide (u = user)) as [-> | Hne]; [| exact (Hinv u)].
    destruct (Hinv user) as [Hnd Hall].
    exact (upsert_keyed user (TasteSignalRow.mk user museum taste now) _ eq_refl Hnd Hall).
  - cbn [run_op]. fold (tasteSignalsOf (snd (clearMuseumTaste user museum w)) u).
    unfold clearMuseumTaste, mbind, Action_bind, getTasteSignals.
    rewrite tasteSignalsOf_setTasteSignals.
    destruct (decide (u = user)) as [-> | Hne]; [| exact (Hinv u)].
    destruct (Hinv user) as [Hnd Hall].
    split.
    + eapply sublist_NoDup; [exact Hnd |]. apply fmap_sublist, sublist_filter.
    + apply Forall_forall. intros ts Hts. apply list_elem_of_filter in Hts as [_ Hts].
      eapply Forall_forall in Hall; [exact Hall | exact Hts].
  - cbn [run_op].
    destruct (llmRecommend_store llm now params w) as [E | (rows & E & _)];
      rewrite E; exact (Hinv u).
  - rewrite run_op_get. exact (Hinv u).
Qed.

Lemma run_op_recommendations_keyed (op : Op) (w : World) :
  RecommendationsKeyed (store w) -> RecommendationsKeyed (store (run_op op w)).
Proof.
  intros Hinv u.
  destruct op as [now user museum taste | user museum | llm now params | user k].
  - destruct (run_op_record_store now user museum taste w) as [-> _]. exact (Hinv u).
  - destruct (run_op_clear_store user museum w) as [-> _]. exact (Hinv u).
  - cbn [run_op]. llm_outcome llm now params w H.
    fold (recommendationsOf (snd (llmRecommend llm now params w)) u).
    destruct H as [(Hk & E) | [(Hk & Hs & E) | [(Hk & Hr & e & E & _) |
                   (Hk & Hr & raw & parsed & recs & Hllm & Hparse & Hv & Hrecs & E)]]];
      rewrite E; cbn [snd].
    + exact (Hinv u).
    + destruct (decide (u = Params.user params)) as [-> | Hne].
      * rewrite recommendationsOf_afterCommit. split; constructor.
      * rewrite recommendationsOf_afterCommit_ne by exact Hne. exact (Hinv u).
    + exact (Hinv u).
    + destruct (decide (u = Params.user params)) as [-> | Hne].
      * rewrite recommendationsOf_afterCommit. split.
        -- rewrite rowsOf_museums. exact (rank_NoDup _ _ _ _ Hv Hrecs).
        -- apply rowsOf_user.
      * rewrite recommendationsOf_afterCommit_ne by exact Hne. exact (Hinv u).
  - rewrite run_op_get. exact (Hinv u).
Qed.

(** X12. In every world reached from the empty store by the public
    operations, the taste signals kept under a user carry that user and no
    two of them are for the same museum, and likewise for the stored
    recommendations. *)
Theorem reachable_store_keyed (allowed : World -> Op -> Prop) (w : World) :
  reachable_by allowed w ->
  TasteSignalsKeyed (store w) /\ RecommendationsKeyed (store w).
Proof.
  induction 1 as [| w op _ [IH1 IH2] _].
  - split; intros u; simpl; rewrite lookup_empty; split; constructor.
  - split; [apply run_op_taste_keyed; exact IH1 | apply run_op_recommendations_keyed; exact IH2].
Qed.

Lemma reachable_store_keyed_witness :
  recommendationsOf world_recommended alice <> [] /\
  tasteSignalsOf world_recommended alice <> [] /\
  TasteSignalsKeyed (store world_recommended) /\
  RecommendationsKeyed (store world_recommended).
Proof.
  split; [vm_compute; discriminate |]. split; [vm_compute; discriminate |].
  exact (reachable_store_keyed _ _ world_recommended_reachable).
Defined.

(** X13. The latest rating wins: when the user's list has at most one row per
    museum (as it has in every reachable world), then after
    recordMuseumTaste the only row of the user for that museum is the new
    one. *)
Theorem recordMuseumTaste_latest_wins (now : jsstring) (user : User) (museum : Museum)
  (taste : Taste) (w : World) (ts : TasteSignalRow.t) :
  NoDup (map TasteSignalRow.museum (tasteSignalsOf w user)) ->
  ts ∈ tasteSignalsOf (snd (recordMuseumTaste now user museum taste w)) user ->
  TasteSignalRow.museum ts = museum ->
  ts = TasteSignalRow.mk user museum taste now.
Proof.
  intros Hnd Hts Hm.
  unfold recordMuseumTaste, mbind, Action_bind, getTasteSignals in Hts.
  fold (tasteSignalsOf w user) in Hts.
  rewrite tasteSignalsOf_setTasteSignals in Hts.
  destruct (decide (user = user)); [| contradiction].
  set (row := TasteSignalRow.mk user museum taste now) in *.
  set (l := tasteSignalsOf w user) in *.
  destruct (upsert_cases row l) as [(i & old & Hi & Hmo & _ & E) | (Hnot & E)];
    cbv zeta in E; change (TasteSignalRow.museum row) with museum in *; rewrite E in Hts.
  - apply list_elem_of_lookup in Hts as [j Hj].
    destruct (decide (j = i)) as [-> | Hji].
    + rewrite list_lookup_insert_eq in Hj by (eapply lookup_lt_Some; exact Hi).
      congruence.
    + rewrite list_lookup_insert_ne in Hj by congruence.
      exfalso. apply Hji.
      eapply (NoDup_lookup (map TasteSignalRow.museum l) j i museum); [exact Hnd | |].
      * rewrite list_lookup_fmap, Hj. simpl. congruence.
      * rewrite list_lookup_fmap, Hi. simpl. congruence.
  - apply elem_of_app in Hts as [Hts | Hts].
    + exfalso. apply Hnot. apply list_elem_of_fmap. exists ts. split; [congruence | exact Hts].
    + apply list_elem_of_singleton in Hts. exact Hts.
Qed.

(** Alice, who loved the Met, now finds it meh. *)
Lemma recordMuseumTaste_latest_wins_witness :
  NoDup (map TasteSignalRow.museum (tasteSignalsOf world_rated alice)) /\
  forall ts,
    ts ∈ tasteSignalsOf (snd (recordMuseumTaste (str "t5") alice (str "met") MEH world_rated))
           alice ->
    TasteSignalRow.museum ts = str "met" ->
    TasteSignalRow.taste ts = MEH.
Proof.
  assert (Hnd : NoDup (map TasteSignalRow.museum (tasteSignalsOf world_rated alice))).
  { vm_compute. apply NoDup_singleton. }
  split; [exact Hnd |].
  intros ts Hts Hm.
  rewrite (recordMuseumTaste_latest_wins _ _ _ _ _ ts Hnd Hts Hm). reflexivity.
Defined.

(** X14. Rating a museum that was not rated and clearing it again gives back
    the taste signals of every user; the recommendations were never
    touched. *)
Theorem record_then_clear (now : jsstring) (user : User) (museum : Museum) (taste : Taste)
  (w : World) :
  (museum ∉ map TasteSignalRow.museum (tasteSignalsOf w user)) ->
  let w' := snd (clearMuseumTaste user museum
                   (snd (recordMuseumTaste now user museum taste w))) in
  (forall u, tasteSignalsOf w' u = tasteSignalsOf w u) /\
  Recommendations (store w') = Recommendations (store w) /\
  llmCalls w' = llmCalls w.
Proof.
  intros Hnot w'. subst w'. split; [| split; reflexivity].
  intros u.
  unfold clearMuseumTaste, mbind, Action_bind, getTasteSignals.
  rewrite tasteSignalsOf_setTasteSignals.
  fold (tasteSignalsOf (snd (recordMuseumTaste now user museum taste w)) user).
  unfold recordMuseumTaste, mbind, Action_bind, getTasteSignals.
  rewrite !tasteSignalsOf_setTasteSignals.
  fold (tasteSignalsOf w user).
  destruct (decide (u = user)) as [-> | Hne]; [| reflexivity].
  destruct (decide (user = user)); [| contradiction].
  set (row := TasteSignalRow.mk user museum taste now).
  set (l := tasteSignalsOf w user) in *.
  destruct (upsert_cases row l) as [(i & old & Hi & Hmo & _ & E) | (_ & E)];
    cbv zeta in E; change (TasteSignalRow.museum row) with museum in *; rewrite E.
  - exfalso. apply Hnot. apply list_elem_of_fmap. exists old. split; [congruence |].
    eapply list_elem_of_lookup_2; exact Hi.
  - rewrite filter_app, filter_cons, filter_nil.
    destruct (decide (TasteSignalRow.museum row ≠ museum)) as [Hc | _];
      [exfalso; apply Hc; reflexivity |].
    rewrite app_nil_r. clear E.
    induction l as [| y l IH]; [reflexivity |].
    rewrite filter_cons. destruct (decide _) as [H | H].
    + f_equal. apply IH. intros Hin. apply Hnot. simpl. apply elem_of_cons. right. exact Hin.
    + exfalso. apply Hnot. simpl. apply elem_of_cons. left.
      destruct (decide (TasteSignalRow.museum y = museum)); [congruence | contradiction].
Qed.

Lemma record_then_clear_witness :
  (str "moma" ∉ map TasteSignalRow.museum (tasteSignalsOf world_rated alice)) /\
  tasteSignalsOf
    (snd (clearMuseumTaste alice (str "moma")
            (snd (recordMuseumTaste (str "t6") alice (str "moma") LIKE world_rated)))) alice
  = tasteSignalsOf world_rated alice.
Proof.
  assert (Hnot : str "moma" ∉ map TasteSignalRow.museum (tasteSignalsOf world_rated alice)).
  { vm_compute. intros H. apply list_elem_of_singleton in H. discriminate. }
  split; [exact Hnot |].
  exact (proj1 (record_then_clear (str "t6") alice (str "moma") LIKE world_rated Hnot) alice).
Defined.
(** * The LLM wrapper: bounds, recovery and the memo *)

Module GeminiLLMLaws.

Import GeminiLLM.

Section Wrapper.

Variable digest : jsstring -> jsstring.
Variable env : Env.

(** The loop from any iteration on: it ends, after [n] further calls and
    the [n - 1] sleeps in between; the attempt counter never passes
    [2 + MAX_RETRIES], and the memo changes at [key] only. *)
Lemma retryLoop_bounds (fuel : nat) :
  forall (key prompt modelName : jsstring) (attempt delay : Z) (st : State),
    (0 <= attempt)%Z ->
    (2 + MAX_RETRIES <= attempt + Z.of_nat fuel)%Z -> (1 <= fuel)%nat ->
    exists (r : Res jsstring) (st' : State) (n : nat),
      retryLoop env fuel key prompt modelName attempt delay st = Some (r, st') /\
      (1 <= n)%nat /\ (attempt + Z.of_nat n <= Z.max (attempt + 1) (2 + MAX_RETRIES))%Z /\
      calls st' = calls st ++ replicate n (modelName, prompt) /\
      sleeps st' = sleeps st ++ backoff (n - 1) delay /\
      (forall key', key' <> key -> memo st' !! key' = memo st !! key') /\
      (forall e, r = Throw e -> memo st' = memo st).
Proof.
  induction fuel as [| fuel IH]; intros key prompt modelName attempt delay st Ha Hf H1; [lia |].
  simpl retryLoop.
  destruct (generateContent env _ modelName prompt) as [text | err].
  - eexists _, _, 1%nat. split; [reflexivity |]. unfold setMemo. simpl.
    split; [lia |]. split; [lia |]. split; [reflexivity |].
    split; [rewrite app_nil_r; reflexivity |].
    split; [| discriminate].
    intros key' Hk. rewrite lookup_insert_ne by congruence. reflexivity.
  - destruct ((attempt + 1 >? 1 + MAX_RETRIES)%Z || negb (isTransient err)) eqn:E.
    + eexists _, _, 1%nat. split; [reflexivity |]. simpl.
      split; [lia |]. split; [lia |]. split; [reflexivity |].
      split; [rewrite app_nil_r; reflexivity |]. split; reflexivity.
    + apply orb_false_iff in E as [E _].
      rewrite Z.gtb_ltb in E. apply Z.ltb_ge in E. unfold MAX_RETRIES in *.
      edestruct (IH key prompt modelName (attempt + 1)%Z (Z.min (delay * 2) 4000))
        as (r & st' & n & Hrun & Hn1 & Hn & Hc & Hs & Hm & Ht); [lia | lia | lia |].
      exists r, st', (S n). split; [exact Hrun |].
      simpl in Hc, Hs, Hm, Ht.
      split; [lia |]. split; [lia |].
      split; [rewrite Hc, <- app_assoc; reflexivity |].
      split.
      { rewrite Hs, <- app_assoc. f_equal.
        destruct n as [| n]; [lia |]. simpl. rewrite Nat.sub_0_r. reflexivity. }
      split; [exact Hm | exact Ht].
Qed.

Lemma retryLoop_more_fuel (fuel : nat) :
  forall (fuel' : nat) (key prompt modelName : jsstring) (attempt delay : Z) (st : State)
         (x : Res jsstring * State),
    retryLoop env fuel key prompt modelName attempt delay st = Some x ->
    (fuel <= fuel')%nat ->
    retryLoop env fuel' key prompt modelName attempt delay st = Some x.
Proof.
  induction fuel as [| fuel IH]; intros fuel' key prompt modelName attempt delay st x H Hf;
    [discriminate |].
  destruct fuel' as [| fuel']; [lia |]. simpl in H |- *.
  destruct (generateContent env _ modelName prompt) as [text | err]; [exact H |].
  destruct ((attempt + 1 >? 1 + MAX_RETRIES)%Z || negb (isTransient err)); [exact H |].
  apply (IH fuel'); [exact H | lia].
Qed.

Lemma backoff_take (n : nat) :
  (n <= 3)%nat -> backoff n BACKOFF_MS = take n [500; 1000; 2000]%Z.
Proof.
  intros Hn. destruct n as [| [| [| [| n]]]]; try reflexivity. lia.
Qed.

(** X15. Whatever the model and the clock do, executeLLM ends: it returns or
    throws after at most [2 + MAX_RETRIES = 4] external calls, all for this
    model and prompt, having slept the first [n - 1] of 500, 1000 and 2000
    ms between them; it changes the memo at its own key only. *)
Theorem executeLLM_bounds (fuel : nat) (prompt modelName : jsstring) (st : State) :
  (4 <= fuel)%nat ->
  exists (r : Res jsstring) (st' : State) (n : nat),
    executeLLM digest env fuel prompt modelName st = Some (r, st') /\
    (n <= 4)%nat /\
    calls st' = calls st ++ replicate n (modelName, prompt) /\
    sleeps st' = sleeps st ++ take (n - 1) [500; 1000; 2000]%Z /\
    (forall key', key' <> promptKey digest modelName prompt ->
       memo st' !! key' = memo st !! key') /\
    (forall fuel', (fuel <= fuel')%nat ->
       executeLLM digest env fuel' prompt modelName st = Some (r, st')).
Proof.
  intros Hf. unfold executeLLM.
  set (key := promptKey digest modelName prompt).
  assert (Hloop : forall st1 : State,
            calls st1 = calls st -> sleeps st1 = sleeps st ->
            (forall key', key' <> key -> memo st1 !! key' = memo st !! key') ->
            exists (r : Res jsstring) (st' : State) (n : nat),
              retryLoop env fuel key prompt modelName 0 BACKOFF_MS st1 = Some (r, st') /\
              (n <= 4)%nat /\
              calls st' = calls st ++ replicate n (modelName, prompt) /\
              sleeps st' = sleeps st ++ take (n - 1) [500; 1000; 2000]%Z /\
              (forall key', key' <> key -> memo st' !! key' = memo st !! key') /\
              (forall fuel', (fuel <= fuel')%nat ->
                 retryLoop env fuel' key prompt modelName 0 BACKOFF_MS st1 = Some (r, st'))).
  { intros st1 Hc1 Hs1 Hm1.
    destruct (retryLoop_bounds fuel key prompt modelName 0 BACKOFF_MS st1)
      as (r & st' & n & Hrun & Hn1 & Hn & Hc & Hs & Hm & _);
      [lia | unfold MAX_RETRIES; lia | lia |].
    unfold MAX_RETRIES in Hn.
    exists r, st', n. split; [exact Hrun |]. split; [lia |].
    split; [rewrite Hc, Hc1; reflexivity |].
    split; [rewrite Hs, Hs1, backoff_take by lia; reflexivity |].
    split; [intros key' Hk; rewrite (Hm key' Hk); apply Hm1; exact Hk |].
    intros fuel' Hf'. exact (retryLoop_more_fuel _ _ _ _ _ _ _ _ _ Hrun Hf'). }
  unfold getMemo. destruct (memo st !! key) as [hit |] eqn:Ehit.
  - simpl. destruct (dateNow env (clockReads st) - at_ hit >? MEMO_TTL_MS)%Z.
    + apply Hloop; try reflexivity. simpl. intros key' Hk.
      rewrite lookup_delete_ne by congruence. reflexivity.
    + destruct (text_ hit) as [| c t].
      * apply Hloop; reflexivity.
      * eexists _, _, 0%nat. split; [reflexivity |]. simpl.
        split; [lia |]. rewrite !app_nil_r. repeat split; reflexivity.
  - apply Hloop; reflexivity.
Qed.

(** X16. A failure that is not transient ends the call at once: one external
    call, no sleep, nothing written to the memo, and the error is labelled
    LLM_ERROR and carries the message of the failure. *)
Theorem executeLLM_permanent_failure (fuel : nat) (prompt modelName : jsstring)
  (st : State) (err : Thrown) :
  memo st !! promptKey digest modelName prompt = None ->
  generateContent env (length (calls st)) modelName prompt = Failure err ->
  isTransient err = false ->
  (1 <= fuel)%nat ->
  executeLLM digest env fuel prompt modelName st
  = Some (Throw (LLMFailure (str "LLM_ERROR: " ++ message err)),
          {| memo := memo st; calls := calls st ++ [(modelName, prompt)];
             sleeps := sleeps st; clockReads := clockReads st |}).
Proof.
  intros Hmiss Hfail Ht Hf. unfold executeLLM, getMemo. rewrite Hmiss.
  destruct fuel as [| fuel]; [lia |]. simpl. rewrite Hfail, Ht. simpl.
  unfold label. rewrite Ht.
  assert (Hto : isTimeout err = false).
  { unfold isTransient in Ht. apply orb_false_iff in Ht. tauto. }
  rewrite Hto. reflexivity.
Qed.

(** A run of [j] transient failures followed by an answer. *)
Lemma retryLoop_recovers (j : nat) :
  forall (fuel : nat) (key prompt modelName text : jsstring) (attempt delay : Z)
         (st : State),
    (forall i, (i < j)%nat -> exists err,
        generateContent env (length (calls st) + i) modelName prompt = Failure err /\
        isTransient err = true) ->
    generateContent env (length (calls st) + j) modelName prompt = Response text ->
    (attempt + Z.of_nat j <= 1 + MAX_RETRIES)%Z ->
    (j < fuel)%nat ->
    exists st' : State,
      retryLoop env fuel key prompt modelName attempt delay st = Some (Ok text, st') /\
      calls st' = calls st ++ replicate (S j) (modelName, prompt) /\
      sleeps st' = sleeps st ++ backoff j delay /\
      memo st' = <[key := {| at_ := dateNow env (clockReads st); text_ := text |}]> (memo st) /\
      clockReads st' = S (clockReads st).
Proof.
  induction j as [| j IH]; intros fuel key prompt modelName text attempt delay st Hfail Hok
    Ha Hf; (destruct fuel as [| fuel]; [lia |]); simpl retryLoop.
  - rewrite Nat.add_0_r in Hok. rewrite Hok.
    eexists. split; [reflexivity |]. unfold setMemo. simpl.
    rewrite app_nil_r. repeat split; reflexivity.
  - destruct (Hfail 0%nat ltac:(lia)) as (err & Herr & Ht).
    rewrite Nat.add_0_r in Herr. rewrite Herr, Ht. simpl negb. rewrite orb_false_r.
    assert (E : (attempt + 1 >? 1 + MAX_RETRIES)%Z = false)
      by (rewrite Z.gtb_ltb; apply Z.ltb_ge; lia).
    rewrite E.
    match goal with
    | |- context [retryLoop env fuel _ _ _ _ _ ?s] => set (st2 := s)
    end.
    destruct (IH fuel key prompt modelName text (attempt + 1)%Z (Z.min (delay * 2) 4000) st2)
      as (st' & Hrun & Hc & Hs & Hm & Hr).
    + intros i Hi. simpl. rewrite length_app. simpl.
      replace (length (calls st) + 1 + i)%nat with (length (calls st) + S i)%nat by lia.
      apply Hfail. lia.
    + simpl. rewrite length_app. simpl.
      replace (length (calls st) + 1 + j)%nat with (length (calls st) + S j)%nat by lia.
      exact Hok.
    + lia.
    + lia.
    + exists st'. split; [exact Hrun |]. simpl in Hc, Hs, Hm, Hr.
      split; [rewrite Hc, <- app_assoc; reflexivity |].
      split; [rewrite Hs, <- app_assoc; reflexivity |].
      split; [exact Hm | exact Hr].
Qed.

(** X17. Retries recover: when the first [j <= 3] external calls fail
    transiently and the next one answers, executeLLM returns that answer
    after [j + 1] calls and the first [j] of the sleeps 500, 1000, 2000 ms,
    and stores it in the memo under the key of the request. *)
Theorem executeLLM_recovers (j fuel : nat) (prompt modelName text : jsstring)
  (st : State) :
  memo st !! promptKey digest modelName prompt = None ->
  (forall i, (i < j)%nat -> exists err,
      generateContent env (length (calls st) + i) modelName prompt = Failure err /\
      isTransient err = true) ->
  generateContent env (length (calls st) + j) modelName prompt = Response text ->
  (j <= 3)%nat -> (j < fuel)%nat ->
  exists st' : State,
    executeLLM digest env fuel prompt modelName st = Some (Ok text, st') /\
    calls st' = calls st ++ replicate (S j) (modelName, prompt) /\
    sleeps st' = sleeps st ++ take j [500; 1000; 2000]%Z /\
    memo st' !! promptKey digest modelName prompt
    = Some {| at_ := dateNow env (clockReads st); text_ := text |}.
Proof.
  intros Hmiss Hfail Hok Hj Hf. unfold executeLLM, getMemo. rewrite Hmiss.
  destruct (retryLoop_recovers j fuel (promptKey digest modelName prompt) prompt modelName
              text 0 BACKOFF_MS st Hfail Hok) as (st' & Hrun & Hc & Hs & Hm & _);
    [unfold MAX_RETRIES; lia | exact Hf |].
  exists st'. split; [exact Hrun |]. split; [exact Hc |].
  split; [rewrite Hs, backoff_take by exact Hj; reflexivity |].
  rewrite Hm. apply lookup_insert_eq.
Qed.

(** X18. Idempotent within the time to live: after a call that was answered
    with a text that is not empty, the same request, made while the entry
    is at most MEMO_TTL_MS old, returns the same text without any external
    call. *)
Theorem executeLLM_idempotent_within_ttl (fuel : nat) (prompt modelName text : jsstring)
  (st : State) :
  memo st !! promptKey digest modelName prompt = None ->
  generateContent env (length (calls st)) modelName prompt = Response text ->
  text <> [] ->
  (dateNow env (S (clockReads st)) - dateNow env (clockReads st) <= MEMO_TTL_MS)%Z ->
  (1 <= fuel)%nat ->
  exists st1 st2 : State,
    executeLLM digest env fuel prompt modelName st = Some (Ok text, st1) /\
    executeLLM digest env fuel prompt modelName st1 = Some (Ok text, st2) /\
    calls st1 = calls st ++ [(modelName, prompt)] /\
    calls st2 = calls st1 /\ sleeps st2 = sleeps st /\ memo st2 = memo st1.
Proof.
  intros Hmiss Hresp Htext Httl Hf.
  set (key := promptKey digest modelName prompt) in *.
  unfold executeLLM at 1, getMemo. fold key. rewrite Hmiss.
  destruct fuel as [| fuel]; [lia |]. simpl retryLoop. rewrite Hresp.
  eexists. eexists. split; [reflexivity |].
  unfold executeLLM, getMemo, setMemo. fold key. simpl. rewrite lookup_insert_eq. simpl.
  assert (E : (dateNow env (S (clockReads st)) - dateNow env (clockReads st)
               >? MEMO_TTL_MS)%Z = false)
    by (rewrite Z.gtb_ltb; apply Z.ltb_ge; lia).
  rewrite E. destruct text as [| c t]; [contradiction |].
  split; [reflexivity |]. simpl. repeat split; reflexivity.
Qed.

(** X19. An entry older than MEMO_TTL_MS is never served: it is deleted, and
    the model is called; an answer replaces the entry, a failure that is
    not transient leaves the key without entry. *)
Theorem executeLLM_expired_entry (fuel : nat) (prompt modelName : jsstring)
  (st : State) (hit : MemoEntry) :
  memo st !! promptKey digest modelName prompt = Some hit ->
  (MEMO_TTL_MS < dateNow env (clockReads st) - at_ hit)%Z ->
  (1 <= fuel)%nat ->
  match generateContent env (length (calls st)) modelName prompt with
  | Response text =>
      exists st' : State,
        executeLLM digest env fuel prompt modelName st = Some (Ok text, st') /\
        calls st' = calls st ++ [(modelName, prompt)] /\
        memo st' !! promptKey digest modelName prompt
        = Some {| at_ := dateNow env (S (clockReads st)); text_ := text |}
  | Failure err =>
      isTransient err = false ->
      exists (e : Error) (st' : State),
        executeLLM digest env fuel prompt modelName st = Some (Throw e, st') /\
        calls st' = calls st ++ [(modelName, prompt)] /\
        memo st' !! promptKey digest modelName prompt = None
  end.
Proof.
  intros Hhit Hold Hf.
  set (key := promptKey digest modelName prompt) in *.
  unfold executeLLM, getMemo. fold key. rewrite Hhit. simpl.
  assert (E : (dateNow env (clockReads st) - at_ hit >? MEMO_TTL_MS)%Z = true)
    by (rewrite Z.gtb_ltb; apply Z.ltb_lt; lia).
  rewrite E. destruct fuel as [| fuel]; [lia |]. simpl.
  destruct (generateContent env (length (calls st)) modelName prompt) as [text | err].
  - eexists. split; [reflexivity |]. unfold setMemo. simpl.
    split; [reflexivity | apply lookup_insert_eq].
  - intros Ht. rewrite Ht. simpl.
    eexists _, _. split; [reflexivity |]. simpl.
    split; [reflexivity | apply lookup_delete_eq].
Qed.

(** X20. The key does not separate the model from the prompt: a model name
    that ends in [::] with a prompt, and the name without it with the
    prompt that begins with [::], are two requests with one key, whatever
    the digest; so the second is answered from the memo entry of the
    first without a call. *)
Theorem promptKey_collision (fuel : nat) (modelName prompt : jsstring) (st : State)
  (hit : MemoEntry) :
  memo st !! promptKey digest (modelName ++ str "::") prompt = Some hit ->
  (dateNow env (clockReads st) - at_ hit <= MEMO_TTL_MS)%Z ->
  text_ hit <> [] ->
  (modelName ++ str "::", prompt) <> (modelName, str "::" ++ prompt) /\
  promptKey digest (modelName ++ str "::") prompt
  = promptKey digest modelName (str "::" ++ prompt) /\
  exists st' : State,
    executeLLM digest env fuel (str "::" ++ prompt) modelName st
    = Some (Ok (text_ hit), st') /\
    calls st' = calls st.
Proof.
  intros Hhit Httl Htext.
  assert (Hkey : promptKey digest (modelName ++ str "::") prompt
                 = promptKey digest modelName (str "::" ++ prompt)).
  { unfold promptKey. rewrite <- !app_assoc. reflexivity. }
  split.
  { intros H. injection H as H _. apply (f_equal (@length N)) in H.
    rewrite length_app in H. simpl in H. lia. }
  split; [exact Hkey |].
  unfold executeLLM, getMemo. rewrite <- Hkey, Hhit. simpl.
  assert (E : (dateNow env (clockReads st) - at_ hit >? MEMO_TTL_MS)%Z = false)
    by (rewrite Z.gtb_ltb; apply Z.ltb_ge; lia).
  rewrite E. destruct (text_ hit) as [| c t]; [contradiction |].
  eexists. split; reflexivity.
Qed.

End Wrapper.

Lemma executeLLM_bounds_witness :
  exists (r : Res jsstring) (st' : State) (n : nat),
    executeLLM sample_digest env_always_503 4 (str "prompt") defaultModel initialState
    = Some (r, st') /\
    (n <= 4)%nat /\
    calls st' = replicate n (defaultModel, str "prompt").
Proof.
  destruct (executeLLM_bounds sample_digest env_always_503 4 (str "prompt") defaultModel
              initialState (Nat.le_refl 4))
    as (r & st' & n & Hrun & Hn & Hc & _).
  exists r, st', n. split; [exact Hrun |]. split; [exact Hn | exact Hc].
Defined.

Lemma executeLLM_permanent_failure_witness :
  isTransient (Build_Thrown (str "Error") (str "Bad Request") (str "400")) = false /\
  executeLLM sample_digest env_always_400 4 (str "prompt") defaultModel initialState
  = Some (Throw (LLMFailure (str "LLM_ERROR: Bad Request")),
          {| memo := ∅; calls := [(defaultModel, str "prompt")]; sleeps := [];
             clockReads := 0 |}).
Proof.
  split; [reflexivity |].
  apply (executeLLM_permanent_failure sample_digest env_always_400 4 (str "prompt")
           defaultModel initialState
           (Build_Thrown (str "Error") (str "Bad Request") (str "400")));
    [apply lookup_empty | reflexivity | reflexivity | lia].
Defined.

Lemma executeLLM_recovers_witness :
  exists st' : State,
    executeLLM sample_digest env_flaky 4 (str "prompt") defaultModel initialState
    = Some (Ok (str "ok"), st') /\
    calls st' = replicate 3 (defaultModel, str "prompt") /\
    sleeps st' = [500; 1000]%Z.
Proof.
  destruct (executeLLM_recovers sample_digest env_flaky 2 4 (str "prompt") defaultModel
              (str "ok") initialState) as (st' & Hrun & Hc & Hs & _).
  - apply lookup_empty.
  - intros i Hi. simpl. destruct (Nat.ltb_spec i 2) as [_ | Hge]; [| lia].
    eexists. split; reflexivity.
  - reflexivity.
  - lia.
  - lia.
  - exists st'. split; [exact Hrun |]. split; [exact Hc | exact Hs].
Defined.

Lemma executeLLM_idempotent_within_ttl_witness :
  exists st1 st2 : State,
    executeLLM sample_digest env_answers 4 (str "prompt") defaultModel initialState
    = Some (Ok (str "ok"), st1) /\
    executeLLM sample_digest env_answers 4 (str "prompt") defaultModel st1
    = Some (Ok (str "ok"), st2) /\
    calls st2 = [(defaultModel, str "prompt")].
Proof.
  destruct (executeLLM_idempotent_within_ttl sample_digest env_answers 4 (str "prompt")
              defaultModel (str "ok") initialState)
    as (st1 & st2 & H1 & H2 & Hc1 & Hc2 & _).
  - apply lookup_empty.
  - reflexivity.
  - discriminate.
  - simpl. unfold MEMO_TTL_MS. lia.
  - lia.
  - exists st1, st2. split; [exact H1 |]. split; [exact H2 |]. rewrite Hc2, Hc1. reflexivity.
Defined.

Lemma executeLLM_expired_entry_witness :
  exists st' : State,
    executeLLM sample_digest env_slow_clock 4 (str "prompt") defaultModel
      (state_with_entry (promptKey sample_digest defaultModel (str "prompt")))
    = Some (Ok (str "new"), st') /\
    calls st' = [(defaultModel, str "prompt")] /\
    memo st' !! promptKey sample_digest defaultModel (str "prompt")
    = Some {| at_ := 40000; text_ := str "new" |}.
Proof.
  exact (executeLLM_expired_entry sample_digest env_slow_clock 4 (str "prompt") defaultModel
           (state_with_entry (promptKey sample_digest defaultModel (str "prompt")))
           {| at_ := 0; text_ := str "old" |}
           (lookup_singleton_eq _ _)
           ltac:(simpl; unfold MEMO_TTL_MS; lia) ltac:(lia)).
Defined.

Lemma promptKey_collision_witness :
  (str "m::", str "p") <> (str "m", str "::p") /\
  exists st' : State,
    executeLLM sample_digest env_answers 4 (str "::p") (str "m")
      (state_with_entry (promptKey sample_digest (str "m::") (str "p")))
    = Some (Ok (str "old"), st') /\
    calls st' = [].
Proof.
  destruct (promptKey_collision sample_digest env_answers 4 (str "m") (str "p")
              (state_with_entry (promptKey sample_digest (str "m::") (str "p")))
              {| at_ := 0; text_ := str "old" |})
    as (Hne & _ & st' & Hrun & Hc).
  - apply lookup_singleton_eq.
  - simpl. unfold MEMO_TTL_MS. lia.
  - discriminate.
  - split; [exact Hne |]. exists st'. split; [exact Hrun | exact Hc].
Defined.

End GeminiLLMLaws.
(** * What the prompt shows the model *)

Section PromptFacts.

Lemma hexval_hexDigit (n : N) : (n < 16)%N -> JSON.hexval (hexDigit n) = Some n.
Proof.
  intros H.
  destruct n as [| p]; [reflexivity |].
  do 4 (destruct p as [p | p |]; try reflexivity); exfalso; lia.
Qed.

Lemma hex_digits_value (c : N) :
  (c < 65536)%N ->
  ((((c / 4096) * 16 + c / 256 mod 16) * 16 + c / 16 mod 16) * 16 + c mod 16 = c)%N.
Proof. intros H. zify. Z.to_euclidean_division_equations. lia. Qed.

Lemma hex4_unicodeEscape (c : N) :
  (c < 65536)%N ->
  JSON.hex4 (hexDigit (c / 4096)) (hexDigit (c / 256 mod 16)) (hexDigit (c / 16 mod 16))
    (hexDigit (c mod 16)) = Some c.
Proof.
  intros H. unfold JSON.hex4.
  rewrite !hexval_hexDigit.
  - f_equal. apply hex_digits_value. exact H.
  - apply N.mod_lt. discriminate.
  - apply N.mod_lt. discriminate.
  - apply N.mod_lt. discriminate.
  - apply N.Div0.div_lt_upper_bound. exact H.
Qed.

(** Reading an escape of four hexadecimal digits. *)
Lemma string_body_unicodeEscape (c : N) (acc tl : jsstring) :
  (c < 65536)%N ->
  JSON.string_body acc (unicodeEscape c ++ tl) = JSON.string_body (c :: acc) tl.
Proof.
  intros H. unfold unicodeEscape. cbn [app JSON.string_body].
  change (N.eqb 92 34) with false. change (N.eqb 92 92) with true.
  change (N.eqb 117 34 || N.eqb 117 92 || N.eqb 117 47) with false.
  change (N.eqb 117 98) with false. change (N.eqb 117 102) with false.
  change (N.eqb 117 110) with false. change (N.eqb 117 114) with false.
  change (N.eqb 117 116) with false. change (N.eqb 117 117) with true.
  cbv iota. rewrite (hex4_unicodeEscape c H). reflexivity.
Qed.

(** Reading a character that is written as it is. *)
Lemma string_body_plain (c : N) (acc tl : jsstring) :
  c <> 34%N -> c <> 92%N -> (32 <= c)%N ->
  JSON.string_body acc (c :: tl) = JSON.string_body (c :: acc) tl.
Proof.
  intros H1 H2 H3. cbn [JSON.string_body].
  destruct (N.eqb_spec c 34); [contradiction |].
  destruct (N.eqb_spec c 92); [contradiction |].
  destruct (N.ltb_spec c 32); [lia | reflexivity].
Qed.

(** Round trip of a string: what [JSON.stringify] writes between the quotes
    is read back by [JSON.parse] as the string. *)
Lemma string_body_quoteJSONChars (n : nat) :
  forall (s acc tl : jsstring),
    (length s <= n)%nat -> codeUnits s ->
    JSON.string_body acc (quoteJSONChars s ++ 34%N :: tl) = Some (rev acc ++ s, tl).
Proof.
  induction n as [| n IH]; intros s acc tl Hn Hs.
  { destruct s; [| simpl in Hn; lia]. simpl. rewrite app_nil_r. reflexivity. }
  destruct s as [| c r]; [simpl; rewrite app_nil_r; reflexivity |].
  apply Forall_cons in Hs as [Hc Hr]. simpl in Hn.
  assert (Hstep : forall acc', JSON.string_body (c :: acc') (quoteJSONChars r ++ 34%N :: tl)
                               = Some (rev acc' ++ c :: r, tl)).
  { intros acc'. rewrite IH by (assumption || lia). simpl. rewrite <- app_assoc. reflexivity. }
  assert (Hshort : forall (e : N) (q : jsstring),
            JSON.string_body acc (q ++ quoteJSONChars r ++ 34%N :: tl)
            = JSON.string_body (e :: acc) (quoteJSONChars r ++ 34%N :: tl) ->
            e = c ->
            JSON.string_body acc ((q ++ quoteJSONChars r) ++ 34%N :: tl)
            = Some (rev acc ++ c :: r, tl)).
  { intros e q Hq <-. rewrite <- app_assoc, Hq. apply Hstep. }
  cbn [quoteJSONChars].
  destruct (N.eqb_spec c 8) as [E | H8];
    [apply (Hshort 8%N); [subst c; reflexivity | congruence] |].
  destruct (N.eqb_spec c 9) as [E | H9];
    [apply (Hshort 9%N); [subst c; reflexivity | congruence] |].
  destruct (N.eqb_spec c 10) as [E | H10];
    [apply (Hshort 10%N); [subst c; reflexivity | congruence] |].
  destruct (N.eqb_spec c 12) as [E | H12];
    [apply (Hshort 12%N); [subst c; reflexivity | congruence] |].
  destruct (N.eqb_spec c 13) as [E | H13];
    [apply (Hshort 13%N); [subst c; reflexivity | congruence] |].
  destruct (N.eqb_spec c 34) as [E | H34];
    [apply (Hshort 34%N); [subst c; reflexivity | congruence] |].
  destruct (N.eqb_spec c 92) as [E | H92];
    [apply (Hshort 92%N); [subst c; reflexivity | congruence] |].
  destruct (N.ltb_spec c 32) as [Hlt | Hge].
  { rewrite <- app_assoc, string_body_unicodeEscape by exact Hc. apply Hstep. }
  destruct (isHighSurrogate c) eqn:Ehi.
  { destruct r as [| d r'].
    - rewrite string_body_unicodeEscape by exact Hc. exact (Hstep acc).
    - destruct (isLowSurrogate d) eqn:Elo.
      + apply Forall_cons in Hr as [Hd Hr']. simpl in Hn.
        unfold isLowSurrogate in Elo. apply andb_true_iff in Elo as [Elo _].
        apply N.leb_le in Elo.
        rewrite <- !app_comm_cons.
        rewrite string_body_plain by (assumption || lia).
        rewrite string_body_plain by lia.
        rewrite IH by (assumption || lia). simpl. rewrite <- !app_assoc. reflexivity.
      + rewrite <- app_assoc, string_body_unicodeEscape by exact Hc. apply Hstep. }
  destruct (isLowSurrogate c) eqn:Elo.
  { rewrite <- app_assoc, string_body_unicodeEscape by exact Hc. apply Hstep. }
  rewrite <- app_comm_cons. rewrite string_body_plain by (assumption || lia). apply Hstep.
Qed.

Lemma skip_ws_app (ws s : jsstring) :
  Forall (fun c => JSON.isJsonWs c = true) ws -> JSON.skip_ws (ws ++ s) = JSON.skip_ws s.
Proof.
  induction 1 as [| c ws Hc _ IH]; [reflexivity |]. simpl. rewrite Hc. exact IH.
Qed.

Lemma value_quoted (f : nat) (ws s tl : jsstring) :
  Forall (fun c => JSON.isJsonWs c = true) ws -> codeUnits s ->
  JSON.value (S f) (ws ++ quoteJSONString s ++ tl) = Some (JStr s, tl).
Proof.
  intros Hws Hs. simpl JSON.value. rewrite (skip_ws_app _ _ Hws).
  unfold quoteJSONString. rewrite <- !app_assoc. simpl.
  rewrite (string_body_quoteJSONChars (length s) s [] tl (Nat.le_refl _) Hs). reflexivity.
Qed.

Lemma elements_step (f : nat) (acc : list jsvalue) (s r r1 : jsstring) (v : jsvalue) (c : N) :
  JSON.value f s = Some (v, r) -> JSON.skip_ws r = c :: r1 ->
  JSON.elements (S f) acc s =
  if N.eqb c 44 then JSON.elements f (v :: acc) r1
  else if N.eqb c 93 then Some (JArr (rev (v :: acc)), r1)
  else None.
Proof. intros Hv Hr. simpl. rewrite Hv, Hr. reflexivity. Qed.

(** The elements of an array of strings as [JSON.stringify(a, null, 2)]
    writes them, read back. *)
Lemma elements_strings (cs : list jsstring) :
  forall (f : nat) (acc : list jsvalue) (ws tl : jsstring),
    cs <> [] -> Forall codeUnits cs ->
    Forall (fun c => JSON.isJsonWs c = true) ws ->
    (length cs < f)%nat ->
    JSON.elements f acc
      (ws ++ join (str "," ++ [10%N] ++ str "  ") (map quoteJSONString cs) ++
       [10%N] ++ str "]" ++ tl)
    = Some (JArr (rev acc ++ map JStr cs), tl).
Proof.
  induction cs as [| c1 cs IH]; intros f acc ws tl Hne Hall Hws Hf; [contradiction |].
  apply Forall_cons in Hall as [Hc1 Hall].
  destruct f as [| f]; [lia |]. simpl in Hf.
  destruct cs as [| c2 cs'].
  - cbn [map join].
    rewrite (elements_step f acc _ ([10%N] ++ str "]" ++ tl) tl (JStr c1) 93%N).
    + simpl. reflexivity.
    + destruct f as [| f]; [lia |]. apply value_quoted; assumption.
    + reflexivity.
  - change (map quoteJSONString (c1 :: c2 :: cs'))
      with (quoteJSONString c1 :: map quoteJSONString (c2 :: cs')).
    change (join (str "," ++ [10%N] ++ str "  ")
              (quoteJSONString c1 :: map quoteJSONString (c2 :: cs')))
      with (quoteJSONString c1 ++ (str "," ++ [10%N] ++ str "  ") ++
            join (str "," ++ [10%N] ++ str "  ") (map quoteJSONString (c2 :: cs'))).
    rewrite <- !app_assoc.
    rewrite (elements_step f acc _
               (str "," ++ [10%N] ++ str "  " ++
                join (str "," ++ [10%N] ++ str "  ") (map quoteJSONString (c2 :: cs')) ++
                [10%N] ++ str "]" ++ tl)
               ([10%N; 32%N; 32%N] ++
                join (str "," ++ [10%N] ++ str "  ") (map quoteJSONString (c2 :: cs')) ++
                [10%N] ++ str "]" ++ tl)
               (JStr c1) 44%N).
    + change (N.eqb 44 44) with true. cbv iota.
      rewrite (IH f (JStr c1 :: acc) [10%N; 32%N; 32%N] tl);
        [| discriminate | exact Hall | repeat constructor | simpl in *; lia].
      simpl. rewrite <- app_assoc. reflexivity.
    + destruct f as [| f]; [simpl in Hf; lia |]. apply value_quoted; assumption.
    + reflexivity.
Qed.

Lemma length_join_quoted (sep : jsstring) (cs : list jsstring) :
  (length cs <= length (join sep (map quoteJSONString cs)))%nat.
Proof.
  induction cs as [| c1 cs IH]; [simpl; lia |].
  destruct cs as [| c2 cs'].
  - simpl. unfold quoteJSONString. rewrite length_app. simpl. lia.
  - change (join sep (map quoteJSONString (c1 :: c2 :: cs')))
      with (quoteJSONString c1 ++ sep ++ join sep (map quoteJSONString (c2 :: cs'))).
    rewrite !length_app. unfold quoteJSONString at 1. rewrite length_app.
    simpl in *. lia.
Qed.

(** Round trip of an array of strings. *)
Lemma parse_stringifyArray (cs : list jsstring) :
  Forall codeUnits cs ->
  JSON.parse (stringifyArray (map quoteJSONString cs)) = Some (JArr (map JStr cs)).
Proof.
  intros Hall. destruct cs as [| c1 cs]; [reflexivity |].
  unfold JSON.parse.
  set (text := stringifyArray (map quoteJSONString (c1 :: cs))).
  replace (2 * length text + 2)%nat with (S (2 * length text + 1)) by lia.
  set (sep := str "," ++ [10%N] ++ str "  ").
  assert (Etext : text = 91%N :: [10%N; 32%N; 32%N] ++
                         join sep (map quoteJSONString (c1 :: cs)) ++
                         [10%N] ++ str "]" ++ []) by reflexivity.
  assert (Hlen : (length (c1 :: cs) <= length text)%nat).
  { rewrite Etext. simpl length. rewrite length_app.
    pose proof (length_join_quoted sep (c1 :: cs)). simpl in *. lia. }
  assert (Hel : JSON.elements (2 * length text + 1) []
                  ([10%N; 32%N; 32%N] ++ join sep (map quoteJSONString (c1 :: cs)) ++
                   [10%N] ++ str "]" ++ [])
                = Some (JArr (map JStr (c1 :: cs)), [])).
  { rewrite (elements_strings (c1 :: cs) _ [] [10%N; 32%N; 32%N] []);
      [reflexivity | discriminate | exact Hall | repeat constructor | simpl in *; lia]. }
  assert (Hval : JSON.value (S (2 * length text + 1)) text
                 = Some (JArr (map JStr (c1 :: cs)), [])).
  { rewrite Etext. rewrite <- Hel. simpl JSON.value.
    destruct cs as [| c2 cs']; reflexivity. }
  rewrite Hval. reflexivity.
Qed.

Lemma join_snoc (sep : jsstring) (l : list jsstring) (x : jsstring) :
  l <> [] -> join sep (l ++ [x]) = join sep l ++ sep ++ x.
Proof.
  induction l as [| y l IH]; [contradiction |]. intros _.
  destruct l as [| y' l'].
  - reflexivity.
  - change (join sep ((y :: y' :: l') ++ [x])) with (y ++ sep ++ join sep ((y' :: l') ++ [x])).
    rewrite IH by discriminate.
    change (join sep (y :: y' :: l')) with (y ++ sep ++ join sep (y' :: l')).
    rewrite <- !app_assoc. reflexivity.
Qed.

Lemma trim_wrapped (y z : N) (b : jsstring) :
  isWhiteSpace y = false -> isWhiteSpace z = false ->
  trim ([10%N] ++ (y :: b ++ [z]) ++ [10%N]) = y :: b ++ [z].
Proof.
  intros Hy Hz. unfold trim.
  assert (E1 : trimStart ([10%N] ++ (y :: b ++ [z]) ++ [10%N]) = (y :: b ++ [z]) ++ [10%N]).
  { simpl. rewrite Hy. reflexivity. }
  rewrite E1.
  assert (E2 : trimEnd [z; 10%N] = [z]).
  { unfold trimEnd. simpl. rewrite Hz. reflexivity. }
  change ((y :: b ++ [z]) ++ [10%N]) with (((y :: b) ++ [z]) ++ [10%N]).
  rewrite <- app_assoc. change ([z] ++ [10%N]) with [z; 10%N].
  rewrite trimEnd_app by (rewrite E2; discriminate). rewrite E2. reflexivity.
Qed.

Lemma stringifyArray_last (elements : list jsstring) :
  exists body, stringifyArray elements = body ++ [93%N].
Proof.
  destruct elements as [| e l].
  - exists [91%N]. reflexivity.
  - eexists. unfold stringifyArray. change (str "]") with [93%N].
    rewrite !app_assoc. reflexivity.
Qed.

(** The prompt is the template with its two payloads: the trim removes the
    line breaks at both ends and nothing else. *)
Lemma buildPromptFromTasteSignals_lines (tastes : list (jsstring * Taste))
  (candidates : list jsstring) (k : Z) :
  buildPromptFromTasteSignals tastes candidates k =
  join [10%N]
    (prompt_lines (Z_toString k)
       (stringifyArray (map (fun t => stringifyTaste (fst t) (snd t)) tastes))
       (stringifyArray (map quoteJSONString candidates))).
Proof.
  unfold buildPromptFromTasteSignals.
  set (K := Z_toString k).
  set (T := stringifyArray (map (fun t => stringifyTaste (fst t) (snd t)) tastes)).
  set (C := stringifyArray (map quoteJSONString candidates)).
  destruct (stringifyArray_last (map quoteJSONString candidates)) as [cb HC]. fold C in HC.
  assert (E : prompt_lines K T C = removelast (prompt_lines K T C) ++ [C]) by reflexivity.
  assert (Ehead : exists l1 rest, removelast (prompt_lines K T C) = (89%N :: l1) :: rest /\
                                  rest <> []).
  { eexists _, _. split; [reflexivity | discriminate]. }
  destruct Ehead as (l1 & rest & Ehead & Hrest).
  rewrite E, join_snoc by (rewrite Ehead; discriminate).
  rewrite Ehead.
  destruct rest as [| l2 rest']; [contradiction |].
  change (join [10%N] ((89%N :: l1) :: l2 :: rest'))
    with ((89%N :: l1) ++ [10%N] ++ join [10%N] (l2 :: rest')).
  rewrite HC.
  set (J := join [10%N] (l2 :: rest')).
  set (mid := l1 ++ [10%N] ++ J ++ [10%N] ++ cb).
  assert (Ebody : ((89%N :: l1) ++ [10%N] ++ J) ++
                  [10%N] ++ cb ++ [93%N] = 89%N :: mid ++ [93%N]).
  { unfold mid. rewrite <- !app_assoc. reflexivity. }
  rewrite Ebody. apply trim_wrapped; reflexivity.
Qed.

(** X21. The prompt that llmRecommend sends ends with the heading of the
    candidates and a JSON array which, read back by JSON.parse, is the list
    of the candidates that the user has not rated, in the order given. *)
Theorem prompt_lists_unseen_candidates (w : World) (params : Params.t) :
  Forall codeUnits (Params.candidates params) ->
  exists pre payload : jsstring,
    promptOf w params
    = pre ++ str "CANDIDATES (JSON array of museumIds):" ++ [10%N] ++ payload /\
    JSON.parse payload
    = Some (JArr (map JStr (unseenOf w (Params.user params) (Params.candidates params)))).
Proof.
  intros Hall. unfold promptOf. rewrite buildPromptFromTasteSignals_lines.
  set (unseen := unseenOf w (Params.user params) (Params.candidates params)).
  set (K := Z_toString (Params.k params)).
  set (T := stringifyArray _).
  set (C := stringifyArray (map quoteJSONString unseen)).
  set (H := str "CANDIDATES (JSON array of museumIds):").
  assert (E : prompt_lines K T C
              = (removelast (removelast (prompt_lines K T C)) ++ [H]) ++ [C]) by reflexivity.
  set (F := removelast (removelast (prompt_lines K T C))) in *.
  assert (HF : F <> []) by (cbn; discriminate).
  assert (HFH : F ++ [H] <> []) by (destruct F; discriminate).
  clearbody F H. rewrite E, (join_snoc _ _ _ HFH), (join_snoc _ _ _ HF).
  exists (join [10%N] F ++ [10%N]), C. split.
  - rewrite <- !app_assoc. reflexivity.
  - apply parse_stringifyArray. apply Forall_forall. intros m Hm.
    unfold unseen, unseenOf in Hm. apply list_elem_of_filter in Hm as [_ Hm].
    eapply Forall_forall in Hall; [exact Hall | exact Hm].
Qed.

Lemma prompt_lists_unseen_candidates_witness :
  Forall codeUnits sample_candidates /\
  exists pre payload : jsstring,
    promptOf world_rated (sample_params 3)
    = pre ++ str "CANDIDATES (JSON array of museumIds):" ++ [10%N] ++ payload /\
    JSON.parse payload = Some (JArr [JStr (str "whitney"); JStr (str "moma")]).
Proof.
  assert (Hall : Forall codeUnits sample_candidates).
  { repeat constructor; vm_compute; reflexivity. }
  split; [exact Hall |].
  destruct (prompt_lists_unseen_candidates world_rated (sample_params 3) Hall)
    as (pre & payload & Hp & Hparse).
  exists pre, payload. split; [exact Hp |]. rewrite Hparse.
  vm_compute. reflexivity.
Defined.

End PromptFacts.
(** * Small functions *)

Lemma InUnitInterval_validated (n : number) :
  InUnitInterval n ->
  Number.isFinite n = true /\ num_lt n num_0 = false /\ num_gt n num_1 = false.
Proof.
  intros [H0 H1].
  assert (Hnan : Number.isNaN n = false) by (destruct n; try reflexivity; discriminate).
  assert (Hfin : Number.isFinite n = true).
  { destruct n as [s | [|] | | s m e]; try reflexivity; discriminate. }
  split; [exact Hfin |].
  rewrite num_le_not_lt in H0, H1 by (assumption || reflexivity).
  apply negb_true_iff in H0, H1. split; assumption.
Qed.

(** X22. clamp01 maps every number into [0,1]; it returns a number of [0,1]
    as it is (the negative zero as zero), NaN as 0.5; and clamping twice is
    clamping once. *)
Theorem clamp01_idempotent (n : number) :
  InUnitInterval (clamp01 n) /\
  clamp01 (clamp01 n) = clamp01 n /\
  (InUnitInterval n -> clamp01 n = n \/ n = S754_zero true /\ clamp01 n = num_0) /\
  (Number.isNaN n = true -> clamp01 n = num_half).
Proof.
  split; [apply clamp01_in_unit_interval |].
  split.
  { destruct (clamp01_cases n) as [-> | [-> | [-> | [E _]]]]; try reflexivity.
    rewrite E. exact E. }
  split.
  { intros Hn. destruct (InUnitInterval_validated n Hn) as (Hf & H0 & H1).
    destruct (clamp01_validated n Hf H0 H1) as [E | ([|] & -> & E)].
    - left. exact E.
    - right. split; [reflexivity | exact E].
    - left. exact E. }
  intros Hn. unfold clamp01. rewrite Hn. reflexivity.
Qed.

Lemma clamp01_idempotent_witness :
  InUnitInterval num_half /\ clamp01 num_half = num_half /\
  clamp01 (clamp01 num_10) = clamp01 num_10.
Proof.
  assert (H : InUnitInterval num_half) by (split; reflexivity).
  split; [exact H |].
  destruct (clamp01_idempotent num_half) as (_ & _ & Hid & _).
  destruct (clamp01_idempotent num_10) as (_ & Hidem & _ & _).
  split; [| exact Hidem].
  destruct (Hid H) as [E | [E _]]; [exact E | discriminate E].
Defined.

Lemma toInt32_mod (z : Z) : (toInt32 z mod 2 ^ 32 = z mod 2 ^ 32)%Z.
Proof.
  unfold toInt32. destruct (Z.ltb_spec (z mod 2 ^ 32) (2 ^ 31)).
  - apply Z.mod_mod. lia.
  - rewrite <- (Z.mod_add _ 1) by lia.
    replace (z mod 2 ^ 32 - 2 ^ 32 + 1 * 2 ^ 32)%Z with (z mod 2 ^ 32)%Z by lia.
    apply Z.mod_mod. lia.
Qed.

Lemma toInt32_range (z : Z) : (- 2 ^ 31 <= toInt32 z < 2 ^ 31)%Z.
Proof.
  unfold toInt32. pose proof (Z.mod_pos_bound z (2 ^ 32) ltac:(lia)).
  destruct (Z.ltb_spec (z mod 2 ^ 32) (2 ^ 31)); lia.
Qed.

Lemma simpleHash_loop (s : jsstring) :
  forall h1 h2 : Z,
    (h1 mod 2 ^ 32 = h2 mod 2 ^ 32)%Z ->
    (fold_left (fun h c => toInt32 (h * 31 + Z.of_N c)) s h1 mod 2 ^ 32
     = fold_left (fun h c => (h * 31 + Z.of_N c)%Z) s h2 mod 2 ^ 32)%Z.
Proof.
  induction s as [| c s IH]; intros h1 h2 H; [exact H |].
  simpl. apply IH. rewrite toInt32_mod.
  rewrite (Z.add_mod (h1 * 31)), (Z.add_mod (h2 * 31)) by lia.
  rewrite (Z.mul_mod h1), (Z.mul_mod h2) by lia. rewrite H. reflexivity.
Qed.

(** X23. simpleHash is the polynomial hash with base 31 of the code units,
    taken modulo 2^32 and printed in hexadecimal after the letter h: the
    truncation to 32 bits at every step of the loop does not change the
    result. *)
Theorem simpleHash_polynomial (s : jsstring) :
  simpleHash s =
  str "h" ++ str (HexadecimalString.NilZero.string_of_uint
                    (N.to_hex_uint (Z.to_N (polyHash s mod 2 ^ 32)))).
Proof.
  unfold simpleHash, polyHash. rewrite (simpleHash_loop s 0 0 eq_refl). reflexivity.
Qed.

(** * The parser and the validators together *)

Lemma parseLLMJson_has_recommendations (raw : jsstring) (parsed : jsvalue) :
  parseLLMJson raw = Ok parsed -> has_recommendations parsed = true.
Proof.
  unfold parseLLMJson, parse_direct.
  destruct (JSON.parse raw) as [obj |].
  - destruct (has_recommendations obj) eqn:E; [intros [= <-]; exact E |].
    destruct (match_brace_block raw) as [block |]; [| discriminate].
    destruct (JSON.parse block) as [obj' |]; [| discriminate].
    destruct (has_recommendations obj') eqn:E'; [intros [= <-]; exact E' | discriminate].
  - destruct (match_brace_block raw) as [block |]; [| discriminate].
    destruct (JSON.parse block) as [obj' |]; [| discriminate].
    destruct (has_recommendations obj') eqn:E'; [intros [= <-]; exact E' | discriminate].
Qed.

Lemma check_shape_not_missing_array (r : jsvalue) :
  check_shape r <> Throw (Validator MissingRecommendationsArray).
Proof.
  unfold check_shape, mbind, Res_bind, read.
  destruct r; simpl; try discriminate; repeat case_match; discriminate.
Qed.

Lemma no_duplicates_loop_not_missing_array (unseenSet seen : gset (list N))
  (recs : list jsvalue) :
  no_duplicates_loop unseenSet seen recs <> Throw (Validator MissingRecommendationsArray).
Proof.
  revert seen. induction recs as [| r recs IH]; intros seen; [discriminate |].
  simpl. unfold mbind, Res_bind, read.
  destruct r; simpl; try discriminate; repeat case_match; try discriminate; apply IH.
Qed.

Lemma check_score_and_percent_not_missing_array (r : jsvalue) :
  check_score_and_percent r <> Throw (Validator MissingRecommendationsArray).
Proof.
  unfold check_score_and_percent, mbind, Res_bind, read.
  destruct r; simpl; try discriminate; repeat case_match; discriminate.
Qed.

Lemma check_rationale_rules_not_missing_array (r : jsvalue) :
  check_rationale_rules r <> Throw (Validator MissingRecommendationsArray).
Proof.
  unfold check_rationale_rules, mbind, Res_bind, read.
  destruct r; simpl; try discriminate; repeat case_match; discriminate.
Qed.

(** X24. What parseLLMJson returns is an object with a [recommendations]
    array; so the first check of validateLLMRecommendations, for a missing
    array, never fires on it. *)
Theorem parsed_answer_has_array (raw : jsstring) (parsed : jsvalue)
  (unseen : list Museum) :
  parseLLMJson raw = Ok parsed ->
  (exists recs, recommendations_of parsed = Some recs) /\
  validateLLMRecommendations parsed unseen <> Throw (Validator MissingRecommendationsArray).
Proof.
  intros Hparse. apply parseLLMJson_has_recommendations in Hparse.
  unfold has_recommendations in Hparse. apply andb_true_iff in Hparse as [Ht Hr].
  apply bool_decide_eq_true in Hr. destruct Hr as [recs Hrecs].
  split; [exists recs; exact Hrecs |].
  destruct recs as [| r0 recs0] eqn:Erecs.
  { unfold validateLLMRecommendations. rewrite Ht, Hrecs. discriminate. }
  rewrite <- Erecs in *.
  rewrite (validateLLMRecommendations_unfold _ _ _ Hrecs) by (rewrite Erecs; discriminate).
  unfold mbind, Res_bind. intros H.
  destruct (for_of check_shape recs) as [[] | e] eqn:H1.
  2:{ injection H as ->. apply for_of_Throw in H1 as (r & _ & Hr).
      exact (check_shape_not_missing_array r Hr). }
  destruct (validateNoDuplicatesAndOnlyUnseen recs unseen) as [[] | e] eqn:H2.
  2:{ injection H as ->. exact (no_duplicates_loop_not_missing_array _ _ _ H2). }
  destruct (validateScoreAndPercentAgreement recs) as [[] | e] eqn:H3.
  2:{ injection H as ->. apply for_of_Throw in H3 as (r & _ & Hr).
      exact (check_score_and_percent_not_missing_array r Hr). }
  apply for_of_Throw in H as (r & _ & Hr).
  exact (check_rationale_rules_not_missing_array r Hr).
Qed.

Lemma parsed_answer_has_array_witness :
  exists parsed recs,
    parseLLMJson raw_in_prose = Ok parsed /\
    recommendations_of parsed = Some recs.
Proof.
  destruct (parseLLMJson raw_in_prose) as [parsed | e] eqn:Hparse;
    [| vm_compute in Hparse; discriminate].
  destruct (parsed_answer_has_array raw_in_prose parsed [] Hparse) as [[recs Hrecs] _].
  exists parsed, recs. split; [reflexivity | exact Hrecs].
Defined.
(** * The model version *)

(** X26. The model version of the parameters is a stamp and nothing else:
    llmRecommend sends the same prompt, returns the same result and stores
    the same rows whatever the version is, except that the rows carry it
    (or the default name when none is given). *)
Theorem modelVersion_only_stamps (llm : jsstring -> Res jsstring) (now : jsstring)
  (user : User) (k : Z) (candidates : list Museum) (mv1 mv2 : option jsstring)
  (w : World) :
  let run mv := llmRecommend llm now (Params.mk user k candidates mv) w in
  let unstamped row := (RecommendationRow.user row, RecommendationRow.museum row,
                        RecommendationRow.score row, RecommendationRow.rationale row,
                        RecommendationRow.generatedAt row, RecommendationRow.promptHash row) in
  fst (run mv1) = fst (run mv2) /\
  llmCalls (snd (run mv1)) = llmCalls (snd (run mv2)) /\
  TasteSignals (store (snd (run mv1))) = TasteSignals (store (snd (run mv2))) /\
  (forall u, map unstamped (recommendationsOf (snd (run mv1)) u)
             = map unstamped (recommendationsOf (snd (run mv2)) u)) /\
  (forall res w', run mv1 = (Ok res, w') ->
     Forall (fun row => RecommendationRow.modelVersion row
                        = default (str "gemini-2.5-flash-lite") mv1)
       (recommendationsOf w' user)).
Proof.
  intros run unstamped. subst run.
  llm_outcome llm now (Params.mk user k candidates mv1) w H1.
  llm_outcome llm now (Params.mk user k candidates mv2) w H2.
  assert (Hnot : tasteSignalsOf w user = [] \/ unseenOf w user candidates = [] ->
                 forall mv, ~ reachesLLM w (Params.mk user k candidates mv)).
  { intros [E | E] mv [Ha Hb]; contradiction. }
  change (promptOf w (Params.mk user k candidates mv2))
    with (promptOf w (Params.mk user k candidates mv1)) in H2.
  cbn [Params.user Params.k Params.candidates] in H1, H2.
  destruct H1 as [(Hk & E1) | [(Hk & Hs & E1) | [(Hk & Hr & e & E1 & Hc) |
                  (Hk & Hr & raw & parsed & recs & Hllm & Hparse & Hv & Hrecs & E1)]]];
    destruct H2 as [(Hk' & E2) | [(Hk' & Hs' & E2) | [(Hk' & Hr' & e' & E2 & Hc') |
                  (Hk' & Hr' & raw' & parsed' & recs' & Hllm' & Hparse' & Hv' & Hrecs' & E2)]]];
    try lia;
    try (exfalso; exact (Hnot Hs _ Hr'));
    try (exfalso; exact (Hnot Hs' _ Hr));
    rewrite E1, E2; cbn [fst snd].
  - repeat split; try reflexivity. intros res w' [=].
  - repeat split; try reflexivity. intros res w' [= <- <-].
    rewrite recommendationsOf_afterCommit. constructor.
  - assert (e = e').
    { destruct Hc as [Hc | (raw & Hl & [Hc | (parsed & Hp & Hc)])];
        destruct Hc' as [Hc' | (raw' & Hl' & [Hc' | (parsed' & Hp' & Hc')])];
        congruence. }
    subst e'. repeat split; try reflexivity. intros res w' [=].
  - exfalso.
    destruct Hc as [Hc | (raw0 & Hl & [Hc | (parsed0 & Hp & Hc)])]; congruence.
  - exfalso.
    destruct Hc' as [Hc' | (raw0 & Hl & [Hc' | (parsed0 & Hp & Hc')])]; congruence.
  - assert (raw' = raw) by congruence. subst raw'.
    assert (parsed' = parsed) by congruence. subst parsed'.
    assert (recs' = recs) by congruence. subst recs'.
    split; [reflexivity |]. split; [reflexivity |]. split; [reflexivity |].
    split.
    + intros u. destruct (decide (u = user)) as [-> | Hne].
      * rewrite !recommendationsOf_afterCommit. unfold rowsOf. rewrite !map_map. reflexivity.
      * rewrite !recommendationsOf_afterCommit_ne by exact Hne. reflexivity.
    + intros res w' [= <- <-]. rewrite recommendationsOf_afterCommit.
      unfold rowsOf. apply Forall_forall. intros row Hrow.
      apply list_elem_of_fmap in Hrow as (t & -> & _). reflexivity.
Qed.
(** * llmRecommend for any number [k] *)

Section AnyNumberFacts.

Variable Number_toString : number -> jsstring.
Variable llm : jsstring -> Res jsstring.
Variable now : jsstring.
Variable params : AnyNumber.Params.t.
Variable w : World.

Let user := AnyNumber.Params.user params.
Let k := AnyNumber.Params.k params.
Let unseen := unseenOf w (AnyNumber.Params.user params) (AnyNumber.Params.candidates params).
Let prompt := AnyNumber.promptOf Number_toString w params.

(** The four ways in which a call ends. *)
Lemma llmRecommend_number_outcome :
  (num_lt k num_1 = true /\
   AnyNumber.llmRecommend Number_toString llm now params w = (Throw KMustBeAtLeastOne, w)) \/
  (num_lt k num_1 = false /\ (tasteSignalsOf w user = [] \/ unseen = []) /\
   AnyNumber.llmRecommend Number_toString llm now params w
   = (Ok [], afterCommit user [] w)) \/
  (AnyNumber.reachesLLM w params /\
   exists e, AnyNumber.llmRecommend Number_toString llm now params w
             = (Throw e, afterCall prompt w)) \/
  (AnyNumber.reachesLLM w params /\
   exists raw parsed recs,
     llm prompt = Ok raw /\ parseLLMJson raw = Ok parsed /\
     validateLLMRecommendations parsed unseen = Ok tt /\
     recommendations_of parsed = Some recs /\
     AnyNumber.llmRecommend Number_toString llm now params w =
       (Ok (result_of Ranked.museum Ranked.rationale (AnyNumber.rank recs unseen k)),
        afterCommit user
          (map (fun t =>
                  RecommendationRow.mk user (Ranked.museum t) (Ranked.score t)
                    (Ranked.rationale t) now
                    (default (str "gemini-2.5-flash-lite")
                       (AnyNumber.Params.modelVersion params))
                    (Some (simpleHash prompt)))
             (AnyNumber.rank recs unseen k))
          (afterCall prompt w))).
Proof.
  subst user k unseen prompt.
  unfold AnyNumber.llmRecommend, AnyNumber.reachesLLM, AnyNumber.promptOf.
  destruct (num_lt (AnyNumber.Params.k params) num_1) eqn:Ek.
  { left. split; reflexivity. }
  right. unfold mbind, Action_bind, getTasteSignals.
  fold (tasteSignalsOf w (AnyNumber.Params.user params)).
  unfold unseenOf, ratedOf.
  destruct (tasteSignalsOf w (AnyNumber.Params.user params)) as [| ts0 tss] eqn:Ets.
  { left. split; [reflexivity |]. split; [left; reflexivity | reflexivity]. }
  set (ts := ts0 :: tss) in *.
  destruct (filter _ (AnyNumber.Params.candidates params)) as [| u0 us] eqn:Eu.
  { left. split; [reflexivity |]. split; [right; reflexivity | reflexivity]. }
  set (un := u0 :: us) in *.
  right.
  assert (Hreach : false = false /\ ts <> [] /\ un <> [])
    by (repeat split; discriminate).
  unfold callLLM, lift, afterCall, afterCommit, setRecommendations, mret, Action_ret. simpl.
  destruct (llm _) as [raw | e] eqn:El.
  2:{ left. split; [exact Hreach |]. exists e. reflexivity. }
  destruct (parseLLMJson raw) as [parsed | e] eqn:Ep.
  2:{ left. split; [exact Hreach |]. exists e. reflexivity. }
  destruct (validateLLMRecommendations parsed un) as [[] | e] eqn:Ev.
  2:{ left. split; [exact Hreach |]. exists e. reflexivity. }
  right. split; [exact Hreach |].
  destruct (validateLLMRecommendations_Ok _ _ Ev) as (recs & Erecs & _ & _).
  exists raw, parsed, recs. rewrite Erecs.
  repeat split; first [reflexivity | assumption].
Qed.

End AnyNumberFacts.
(** * Numbers that are not below 1, and integers as numbers *)

Section TruncateFacts.

#[local] Open Scope Z_scope.

(** A number that is not below 1 and not NaN is positive infinity or a
    finite positive number whose integer part is at least 1. *)
Lemma truncate_ge_1 (x : number) :
  is_double x -> Number.isNaN x = false -> num_lt x num_1 = false ->
  x = S754_infinity false \/
  exists m e, x = S754_finite false m e /\ 1 <= AnyNumber.truncate x.
Proof.
  intros Hd Hn Hlt.
  destruct x as [s | [|] | | s m e]; try discriminate.
  - left. reflexivity.
  - right. destruct s; [discriminate |]. exists m, e. split; [reflexivity |].
    destruct (is_double_finite _ _ _ Hd) as (Hemin & Hhi & Hnorm).
    assert (Hkey : ~ key_lt (num_key (S754_finite false m e)) (num_key num_1)).
    { intros Hk. apply num_lt_key in Hk; [congruence | reflexivity | reflexivity]. }
    unfold key_lt, num_key, num_1 in Hkey.
    unfold emin, prec, emax in *.
    assert (He : -52 <= e) by lia.
    assert (Hm : 2 ^ 52 <= Zpos m) by (destruct (Z.eq_dec e (-52)); lia).
    unfold AnyNumber.truncate.
    destruct (Z.leb_spec 0 e) as [H0 | H0].
    + assert (0 < 2 ^ e) by (apply Z.pow_pos_nonneg; lia). nia.
    + apply Z.div_le_lower_bound; [apply Z.pow_pos_nonneg; lia |].
      rewrite Z.mul_1_r.
      assert (2 ^ (- e) <= 2 ^ 52) by (apply Z.pow_le_mono_r; lia). lia.
Qed.

(** An integer from 1 below 2^53 is a number exactly: the mantissa is the
    integer shifted to 53 bits. *)
Lemma number_of_Z_exact (p : positive) :
  Zpos p < 2 ^ 53 ->
  exists m : positive,
    number_of_Z (Zpos p) = S754_finite false m (Zpos (digits2_pos p) - 53) /\
    Zpos m = Zpos p * 2 ^ (53 - Zpos (digits2_pos p)) /\
    1 <= Zpos (digits2_pos p) <= 53.
Proof.
  intros Hp.
  pose proof (digits2_pos_bounds p) as [Hlo Hhi].
  set (d := Zpos (digits2_pos p)) in *.
  assert (Hd1 : 1 <= d) by (unfold d; lia).
  assert (Hd : d <= 53).
  { destruct (Z.le_gt_cases d 53) as [H | H]; [exact H |].
    assert (2 ^ 53 <= 2 ^ (d - 1)) by (apply Z.pow_le_mono_r; lia). lia. }
  unfold number_of_Z, binary_normalize, binary_round.
  fold d.
  assert (Hfexp : fexp prec emax (d + 0) = d - 53) by (unfold fexp, emin, prec, emax; lia).
  rewrite Hfexp.
  destruct (shl_align p 0 (d - 53)) as [mz ez] eqn:Esh.
  assert (Hmz : Zpos mz = Zpos p * 2 ^ (53 - d)).
  { pose proof (shl_align_fst p 0 (d - 53) ltac:(lia)) as H. rewrite Esh in H. simpl in H.
    rewrite H. f_equal. f_equal. lia. }
  assert (Hez : ez = d - 53).
  { unfold shl_align in Esh. destruct (d - 53 - 0) as [| q | q] eqn:E; inversion Esh; lia. }
  subst ez.
  assert (Hdig : Zdigits2 (Zpos mz) = 53).
  { apply Zdigits2_unique; [lia |]. rewrite Hmz.
    assert (0 < 2 ^ (53 - d)) by (apply Z.pow_pos_nonneg; lia).
    split.
    - replace (53 - 1) with ((d - 1) + (53 - d)) by lia. rewrite Z.pow_add_r by lia. nia.
    - replace 53 with (d + (53 - d)) at 2 by lia. rewrite Z.pow_add_r by lia. nia. }
  exists mz. split; [| split; [exact Hmz | lia]].
  unfold binary_round_aux.
  assert (Hshr : forall m, Zdigits2 m = 53 ->
            shr_fexp prec emax m (d - 53) loc_Exact
            = (shr_record_of_loc m loc_Exact, d - 53)).
  { intros m Hm. unfold shr_fexp. rewrite Hm.
    replace (fexp prec emax (53 + (d - 53)) - (d - 53)) with 0
      by (unfold fexp, emin, prec, emax; lia).
    reflexivity. }
  rewrite (Hshr (Zpos mz) Hdig). cbn [shr_m shr_record_of_loc loc_of_shr_record].
  change (round_nearest_even (Zpos mz) loc_Exact) with (Zpos mz).
  rewrite (Hshr (Zpos mz) Hdig). cbn [shr_m shr_record_of_loc].
  destruct (Z.leb_spec (d - 53) (emax - prec)) as [_ | H]; [reflexivity |].
  unfold emax, prec in H. lia.
Qed.

Lemma truncate_number_of_Z (z : Z) :
  1 <= z < 2 ^ 53 -> AnyNumber.truncate (number_of_Z z) = z.
Proof.
  intros [H1 H2]. destruct z as [| p | p]; try lia.
  destruct (number_of_Z_exact p H2) as (m & -> & Hm & Hd).
  unfold AnyNumber.truncate.
  set (d := Zpos (digits2_pos p)) in *.
  destruct (Z.leb_spec 0 (d - 53)) as [H0 | H0].
  - assert (Hd53 : d = 53) by lia. rewrite Hm, Hd53. simpl. lia.
  - rewrite Hm. replace (- (d - 53)) with (53 - d) by lia.
    apply Z.div_mul. apply Z.pow_nonzero; lia.
Qed.

Lemma num_lt_number_of_Z_1 (z : Z) :
  z < 2 ^ 53 -> num_lt (number_of_Z z) num_1 = (z <? 1).
Proof.
  intros H2. destruct z as [| p | p].
  - reflexivity.
  - destruct (number_of_Z_exact p H2) as (m & E & Hm & Hd).
    destruct (Z.ltb_spec (Zpos p) 1) as [? | _]; [lia |].
    destruct (num_lt (number_of_Z (Zpos p)) num_1) eqn:Elt; [| reflexivity].
    apply num_lt_key in Elt; [| rewrite E; reflexivity | reflexivity].
    rewrite E in Elt. unfold key_lt, num_key, num_1 in Elt.
    set (d := Zpos (digits2_pos p)) in *.
    assert (Hd1 : d = 1) by lia.
    rewrite Hd1 in Hm. change (2 ^ (53 - 1)) with 4503599627370496 in Hm. lia.
  - pose proof (binary_round_nonzero true p 0 ltac:(unfold emin, prec, emax; lia)) as Hs.
    change (binary_round prec emax true p 0) with (number_of_Z (Zneg p)) in Hs.
    destruct (number_of_Z (Zneg p)) as [| s | | s m e]; simpl in Hs; try contradiction;
      subst s; reflexivity.
Qed.

End TruncateFacts.
(** * What llmRecommend sends and returns, for any number [k] *)

Ltac llm_number_outcome toString llm now params w H :=
  pose proof (llmRecommend_number_outcome toString llm now params w) as H; cbv zeta in H.

Lemma filter_all {A : Type} (P : A -> Prop) `{forall x, Decision (P x)} (l : list A) :
  Forall P l -> filter P l = l.
Proof.
  induction 1 as [| x l Hx _ IH]; [reflexivity |].
  rewrite filter_cons. destruct (decide (P x)); [f_equal; exact IH | contradiction].
Qed.

(** After validation the filters of the ranking drop nothing. *)
Lemma kept_length_validated (unseen : list Museum) (recs : list jsvalue) :
  Forall (fun r => exists m s t, ValidEntry unseen r m s t) recs ->
  length (Array_sort (byScoreDesc Ranked.score)
            (filter (fun r => Ranked.museum r ∈ unseen) (omap ranked_entry recs)))
  = length recs.
Proof.
  intros Hall.
  rewrite (Permutation_length (Array_sort_perm _ _)).
  pose proof (omap_ranked_entry_valid _ _ Hall) as H2.
  rewrite (Forall2_length _ _ _ H2).
  f_equal. apply filter_all.
  apply Forall_forall. intros e He.
  apply list_elem_of_omap in He as (r & Hr & Hre).
  eapply Forall_forall in Hall; [| exact Hr]. destruct Hall as (m & s & t & Hve).
  rewrite (ranked_entry_valid _ _ _ _ _ Hve) in Hre. injection Hre as <-.
  exact (ve_unseen _ _ _ _ _ Hve).
Qed.

Lemma length_slice0_number {A B : Type} (k : number) (l : list A) (l' : list B) :
  length l = length l' ->
  length (AnyNumber.slice0 k l) = length (AnyNumber.slice0 k l').
Proof.
  intros E. unfold AnyNumber.slice0.
  destruct k; try reflexivity; try (destruct s; try reflexivity; exact E).
  destruct (_ <? 0)%Z; rewrite !length_take, E; reflexivity.
Qed.

(** X5. Whatever the model answers and whatever number [k] is,
    llmRecommend leaves the taste signals and the recommendations of the
    other users as they are; it sends the model one prompt when [k < 1] is
    false (as it is for NaN), the user has rated something and a candidate
    is unseen, and none otherwise. *)
Theorem llmRecommend_frame (Number_toString : number -> jsstring)
  (llm : jsstring -> Res jsstring) (now : jsstring) (params : AnyNumber.Params.t)
  (w : World) :
  let w' := snd (AnyNumber.llmRecommend Number_toString llm now params w) in
  TasteSignals (store w') = TasteSignals (store w) /\
  (forall u, u <> AnyNumber.Params.user params ->
     recommendationsOf w' u = recommendationsOf w u) /\
  (AnyNumber.reachesLLM w params ->
   llmCalls w' = llmCalls w ++ [AnyNumber.promptOf Number_toString w params]) /\
  (~ AnyNumber.reachesLLM w params -> llmCalls w' = llmCalls w).
Proof.
  intros w'. subst w'. llm_number_outcome Number_toString llm now params w H.
  destruct H as [(Hk & ->) | [(Hk & Hs & ->) | [(Hr & e & ->) |
                 (Hr & raw & parsed & recs & _ & _ & _ & _ & ->)]]]; cbn [snd].
  - split; [reflexivity |]. split; [reflexivity |].
    split; [intros [Hk' _]; congruence | reflexivity].
  - split; [reflexivity |].
    split; [intros u Hu; apply recommendationsOf_afterCommit_ne; exact Hu |].
    split; [| reflexivity].
    intros (_ & H1 & H2). destruct Hs; contradiction.
  - split; [reflexivity |]. split; [reflexivity |].
    split; [reflexivity | intros Hn; contradiction].
  - split; [reflexivity |].
    split.
    { intros u Hu. rewrite recommendationsOf_afterCommit_ne by exact Hu. reflexivity. }
    split; [reflexivity | intros Hn; contradiction].
Qed.

(** X25. When the model is called and its answer is accepted, the result
    has as many entries as [slice(0, k)] keeps of a list as long as the
    answer, since after validation nothing is filtered out: none when [k]
    is NaN, all for positive infinity, and [min(n, integer part of k)], at
    least one, for a finite [k]. *)
Theorem llmRecommend_result_length (Number_toString : number -> jsstring)
  (llm : jsstring -> Res jsstring) (now : jsstring) (params : AnyNumber.Params.t)
  (w w' : World) (res : list (Museum * jsstring)) :
  AnyNumber.llmRecommend Number_toString llm now params w = (Ok res, w') ->
  AnyNumber.reachesLLM w params ->
  let k := AnyNumber.Params.k params in
  exists (raw : jsstring) (parsed : jsvalue) (recs : list jsvalue),
    llm (AnyNumber.promptOf Number_toString w params) = Ok raw /\
    parseLLMJson raw = Ok parsed /\
    recommendations_of parsed = Some recs /\
    recs <> [] /\
    length res = length (AnyNumber.slice0 k recs) /\
    (Number.isNaN k = true -> res = []) /\
    (k = S754_infinity false -> length res = length recs) /\
    (forall s m e, k = S754_finite s m e -> is_double k ->
       length res = Nat.min (Z.to_nat (AnyNumber.truncate k)) (length recs) /\
       (1 <= length res)%nat).
Proof.
  intros Hrun Hreach k. llm_number_outcome Number_toString llm now params w H.
  destruct H as [(Hk & E) | [(Hk & Hs & E) | [(Hr & e & E) |
                 (Hr & raw & parsed & recs & Hllm & Hparse & Hv & Hrecs & E)]]].
  - destruct Hreach as [Hk' _]. congruence.
  - destruct Hreach as (_ & H1 & H2). destruct Hs; contradiction.
  - rewrite E in Hrun. discriminate.
  - rewrite E in Hrun. injection Hrun as <- <-.
    destruct (validateLLMRecommendations_Ok _ _ Hv) as (recs' & Hrecs' & Hne & Hall).
    rewrite Hrecs in Hrecs'. injection Hrecs' as <-.
    exists raw, parsed, recs.
    split; [exact Hllm |]. split; [exact Hparse |]. split; [exact Hrecs |].
    split; [exact Hne |].
    set (unseen := unseenOf w (AnyNumber.Params.user params)
                     (AnyNumber.Params.candidates params)) in *.
    assert (Hlen : length (result_of Ranked.museum Ranked.rationale
                             (AnyNumber.rank recs unseen (AnyNumber.Params.k params)))
                   = length (AnyNumber.slice0 k recs)).
    { unfold result_of. rewrite length_map. unfold AnyNumber.rank. fold k.
      apply length_slice0_number. apply kept_length_validated. exact Hall. }
    split; [exact Hlen |].
    split.
    { intros Hnan. apply length_zero_iff_nil. rewrite Hlen.
      destruct k; try discriminate. reflexivity. }
    split.
    { intros Hinf. rewrite Hlen, Hinf. reflexivity. }
    intros s m e Hk Hd.
    destruct Hreach as (Hlt & _). fold k in Hlt.
    destruct (truncate_ge_1 k Hd) as [Hinf | (m' & e' & Hk' & Hge)];
      [rewrite Hk; reflexivity | exact Hlt | congruence |].
    rewrite Hlen. rewrite Hk' in *. unfold AnyNumber.slice0.
    destruct (Z.ltb_spec (AnyNumber.truncate (S754_finite false m' e')) 0) as [? | _]; [lia |].
    rewrite length_take. split; [reflexivity |].
    destruct recs; [contradiction |]. simpl length. lia.
Qed.

(** With [k = 2.5] and an answer of three entries the result has two, the
    integer part of [k]. *)
Lemma llmRecommend_result_length_witness :
  AnyNumber.reachesLLM world_rated
    (AnyNumber.Params.mk alice num_2_5 four_candidates None) /\
  exists (res : list (Museum * jsstring)) (w' : World) (recs : list jsvalue),
    AnyNumber.llmRecommend sample_toString (fun _ => Ok raw_three) (str "t1")
      (AnyNumber.Params.mk alice num_2_5 four_candidates None) world_rated = (Ok res, w') /\
    length recs = 3%nat /\
    AnyNumber.truncate num_2_5 = 2%Z /\
    length res = Nat.min (Z.to_nat (AnyNumber.truncate num_2_5)) (length recs) /\
    map fst res = [str "whitney"; str "moma"].
Proof.
  assert (Hreach : AnyNumber.reachesLLM world_rated
                     (AnyNumber.Params.mk alice num_2_5 four_candidates None)).
  { split; [reflexivity |]. split; vm_compute; discriminate. }
  split; [exact Hreach |].
  destruct (AnyNumber.llmRecommend sample_toString (fun _ => Ok raw_three) (str "t1")
              (AnyNumber.Params.mk alice num_2_5 four_candidates None) world_rated)
    as [r w'] eqn:Hrun.
  assert (Hr : r = Ok [(str "whitney", str "(90% match) Postwar sculpture.");
                       (str "moma", str "(80% match) Modern painting.")]).
  { apply (f_equal fst) in Hrun. simpl in Hrun. rewrite <- Hrun. vm_compute. reflexivity. }
  subst r.
  destruct (llmRecommend_result_length _ _ _ _ _ _ _ Hrun Hreach)
    as (raw & parsed & recs & Hllm & Hparse & Hrecs & _ & _ & _ & _ & Hfin).
  destruct (Hfin _ _ _ eq_refl eq_refl) as [Hlen _].
  cbn [AnyNumber.Params.k] in Hlen.
  injection Hllm as <-.
  assert (Hn : length recs = 3%nat).
  { apply (f_equal (fun p => match p with
                             | Ok v => option_map (@length jsvalue) (recommendations_of v)
                             | Throw _ => None
                             end)) in Hparse.
    rewrite Hrecs in Hparse. vm_compute in Hparse. injection Hparse as Hparse.
    symmetry. exact Hparse. }
  eexists _, w', recs. split; [reflexivity |]. split; [exact Hn |].
  split; [reflexivity |]. split; [exact Hlen | reflexivity].
Defined.

(** On the integers from 1 below 2^53, printed by their digits, and on the
    integers below 1, llmRecommend for any number is llmRecommend for an
    integer [k]. *)
Lemma llmRecommend_number_integer (Number_toString : number -> jsstring)
  (llm : jsstring -> Res jsstring) (now : jsstring) (user : User) (z : Z)
  (candidates : list Museum) (modelVersion : option jsstring) (w : World) :
  (z < 2 ^ 53)%Z ->
  Number_toString (number_of_Z z) = Z_toString z ->
  AnyNumber.llmRecommend Number_toString llm now
    (AnyNumber.Params.mk user (number_of_Z z) candidates modelVersion) w
  = llmRecommend llm now (Params.mk user z candidates modelVersion) w.
Proof.
  intros Hz Hprint.
  unfold AnyNumber.llmRecommend, llmRecommend.
  cbn [AnyNumber.Params.user AnyNumber.Params.k AnyNumber.Params.candidates
       AnyNumber.Params.modelVersion Params.user Params.k Params.candidates
       Params.modelVersion].
  rewrite (num_lt_number_of_Z_1 z Hz).
  destruct (Z.ltb_spec z 1) as [Hlt | Hge]; [reflexivity |].
  assert (Hprompt : forall tastes cands,
            AnyNumber.buildPromptFromTasteSignals Number_toString tastes cands (number_of_Z z)
            = buildPromptFromTasteSignals tastes cands z).
  { intros tastes cands. unfold AnyNumber.buildPromptFromTasteSignals,
      buildPromptFromTasteSignals. rewrite Hprint. reflexivity. }
  assert (Hrank : forall recs unseen,
            AnyNumber.rank recs unseen (number_of_Z z) = rank recs unseen z).
  { intros recs unseen. unfold AnyNumber.rank, rank, slice0, AnyNumber.slice0.
    pose proof (truncate_number_of_Z z ltac:(lia)) as Ht.
    destruct z as [| p | p]; try lia.
    destruct (number_of_Z_exact p Hz) as (m & E & _). rewrite E in Ht |- *.
    rewrite Ht. destruct (Z.ltb_spec (Zpos p) 0); [lia | reflexivity]. }
  unfold mbind, Action_bind.
  destruct (getTasteSignals user w) as [[tss | e] w1]; [| reflexivity].
  destruct tss as [| ts0 tss]; [reflexivity |].
  destruct (filter _ candidates) as [| u0 us]; [reflexivity |].
  rewrite Hprompt.
  destruct (callLLM llm _ w1) as [[raw | e] w2]; [| reflexivity].
  destruct (lift (parseLLMJson raw) w2) as [[parsed | e] w3]; [| reflexivity].
  destruct (lift (validateLLMRecommendations parsed (u0 :: us)) w3) as [[[] | e] w4];
    [| reflexivity].
  rewrite Hrank. reflexivity.
Qed.

(** With [k = NaN] the call is not turned down: the model is called, and
    the rows of the user are replaced by none. *)
Lemma llmRecommend_frame_witness :
  AnyNumber.reachesLLM world_recommended
    (AnyNumber.Params.mk alice S754_nan four_candidates None) /\
  recommendationsOf world_recommended alice <> [] /\
  exists w' : World,
    AnyNumber.llmRecommend sample_toString (fun _ => Ok raw_three) (str "t1")
      (AnyNumber.Params.mk alice S754_nan four_candidates None) world_recommended
    = (Ok [], w') /\
    llmCalls w' = llmCalls world_recommended ++
                  [AnyNumber.promptOf sample_toString world_recommended
                     (AnyNumber.Params.mk alice S754_nan four_candidates None)] /\
    recommendationsOf w' alice = [].
Proof.
  assert (Hreach : AnyNumber.reachesLLM world_recommended
                     (AnyNumber.Params.mk alice S754_nan four_candidates None)).
  { split; [reflexivity |]. split; vm_compute; discriminate. }
  split; [exact Hreach |]. split; [vm_compute; discriminate |].
  destruct (AnyNumber.llmRecommend sample_toString (fun _ => Ok raw_three) (str "t1")
              (AnyNumber.Params.mk alice S754_nan four_candidates None) world_recommended)
    as [r w'] eqn:Hrun.
  pose proof (llmRecommend_frame sample_toString (fun _ => Ok raw_three) (str "t1")
                (AnyNumber.Params.mk alice S754_nan four_candidates None) world_recommended)
    as Hframe.
  cbv zeta in Hframe. rewrite Hrun in Hframe. cbn [snd] in Hframe.
  destruct Hframe as (_ & _ & Hcalls & _).
  assert (Hr : r = Ok []).
  { apply (f_equal fst) in Hrun. simpl in Hrun. rewrite <- Hrun. vm_compute. reflexivity. }
  assert (Hrows : recommendationsOf w' alice = []).
  { apply (f_equal snd) in Hrun. simpl in Hrun. rewrite <- Hrun. vm_compute. reflexivity. }
  subst r. exists w'. split; [reflexivity |]. split; [exact (Hcalls Hreach) | exact Hrows].
Defined.
